(** * The kubernetes runtime of go-micro: a shallow embedding

    This development embeds [runtime/kubernetes/kubernetes.go] and proves
    properties of its status transformer, its service correlator
    ([getService]), its namespace provisioning, its credential secrets, its
    resource dispatcher ([Create], [Update], [Delete], [Logs]) and its log
    stream.

    Conventions of the embedding:
    - Go strings are [string]; a Go [map[string]string] is a
      [gmap string string] and reading a missing key gives the empty string
      ([goIndex]);
    - a Go slice is a [list]; a slice that may be [nil] is an [option (list _)];
    - a Go pointer that the code tests against [nil] is an [option];
    - a call either returns, panics, or blocks for ever ([result]);
    - the cluster API client is an oracle that answers each call from the
      history of the calls made so far, and every call is recorded. *)

From Stdlib Require Import ZArith Ascii String List Lia.
From stdpp Require Import base option list strings gmap pretty.

Open Scope string_scope.
Open Scope list_scope.

(** ** Go helpers *)

(** [m[k]] on a Go map: the zero value when the key is absent. *)
Definition goIndex (m : gmap string string) (k : string) : string :=
  default EmptyString (m !! k).

(** [for k, v := range src { dst[k] = v }]: every key of [src] is written
    into [dst]; the keys of [src] are distinct, so the order of the range
    does not matter and [src] wins on the common keys. *)
Definition copyInto (src dst : gmap string string) : gmap string string :=
  src ∪ dst.

(** [strings.ToLower], on the ASCII letters: a byte in ['A'..'Z'] is moved to
    ['a'..'z'], every other byte is kept. *)
Definition lowerByte (c : ascii) : ascii :=
  let n := nat_of_ascii c in
  if (65 <=? n)%nat && (n <=? 90)%nat then ascii_of_nat (n + 32) else c.

Fixpoint ToLower (s : string) : string :=
  match s with
  | EmptyString => EmptyString
  | String c rest => String (lowerByte c) (ToLower rest)
  end.



(** [strings.Contains s sub]. *)
Fixpoint Contains (s sub : string) : bool :=
  String.prefix sub s ||
  match s with
  | EmptyString => false
  | String _ rest => Contains rest sub
  end.

(** ** Package runtime: the types this file uses *)

(** Modelled from the spec: the declarations of package [runtime] are not
    part of the sources; the records below have the fields that the file
    reads and writes. *)
Module runtime.

(** Modelled from the spec: the closed enumeration of service statuses
    (the declaration of [runtime.ServiceStatus] is in another package). *)
Inductive ServiceStatus := Starting | Running | Stopped | Error | Unknown.

#[global] Instance ServiceStatus_eq_dec : EqDecision ServiceStatus.
Proof. solve_decision. Defined.

(** [runtime.Service]. [Status] is [None] while the field still holds the
    zero value it got from the composite literal that built the service. *)
Module Service.
Record t := mk {
  Name : string;
  Version : string;
  Source : string;
  Metadata : gmap string string;
  Status : option ServiceStatus
}.
End Service.

Module Namespace.
Record t := mk { Name : string }.
End Namespace.

Module NetworkPolicy.
Record t := mk {
  Name : string;
  Namespace : string;
  AllowedLabels : gmap string string
}.
End NetworkPolicy.

(** Modelled from the spec: the kind tags [runtime.TypeNamespace],
    [runtime.TypeNetworkPolicy] and [runtime.TypeService], declared in
    package [runtime]; the dispatcher only compares them, so all that
    matters is that they are three different texts. *)
Definition TypeNamespace : string := "namespace".
Definition TypeNetworkPolicy : string := "networkpolicy".
Definition TypeService : string := "service".

(** A value of the interface [runtime.Resource]: one of the three concrete
    types of the package, or a value of any other implementation.  For the
    latter only what its [Type()] method returns matters here, and a foreign
    implementation is free to return one of the three known tags. *)
Inductive Resource :=
| OfNamespace (n : Namespace.t)
| OfNetworkPolicy (p : NetworkPolicy.t)
| OfService (s : Service.t)
| Foreign (declared : string).

(** [resource.Type()]. *)
Definition Type_ (r : Resource) : string :=
  match r with
  | OfNamespace _ => TypeNamespace
  | OfNetworkPolicy _ => TypeNetworkPolicy
  | OfService _ => TypeService
  | Foreign declared => declared
  end.

(** The type assertions of a resource to a pointer to [runtime.Namespace],
    [runtime.NetworkPolicy] or [runtime.Service]. *)
Definition asNamespace (r : Resource) : option Namespace.t :=
  match r with OfNamespace n => Some n | _ => None end.
Definition asNetworkPolicy (r : Resource) : option NetworkPolicy.t :=
  match r with OfNetworkPolicy p => Some p | _ => None end.
Definition asService (r : Resource) : option Service.t :=
  match r with OfService s => Some s | _ => None end.

End runtime.

(** Go errors: the sentinel values that the file names
    ([runtime.ErrInvalidResource], [runtime.ErrNotFound], [api.ErrNotFound]),
    and any other error with its message. *)
Inductive error :=
| ErrInvalidResource
| ErrNotFound
| apiErrNotFound
| Upstream (msg : string).

(** Modelled from the spec: [err.Error()]. The texts of the sentinels are
    declared in their packages; the file inspects the text of an error only
    to look for [already exists]. *)
Definition Error_ (e : error) : string :=
  match e with
  | ErrInvalidResource => "invalid resource"
  | ErrNotFound => "not found"
  | apiErrNotFound => "kubernetes: resource not found"
  | Upstream msg => msg
  end.

#[global] Instance error_eq_dec : EqDecision error.
Proof. solve_decision. Defined.

(** ** Package client: the objects of the cluster API *)

(** Modelled from the spec: the declarations of package [client] are not
    part of the sources; the records below have the fields that the file
    reads and writes, with the nesting flattened where the file only goes
    through it. The metadata, spec and status of a listed object are taken
    to be present, as they are in what the API server returns. *)
Module client.

Module Metadata.
Record t := mk {
  Name : string;
  Namespace : string;
  Labels : gmap string string;
  Annotations : gmap string string
}.
End Metadata.

Module ServicePort.
Record t := mk { Port : Z }.
End ServicePort.

Module ServiceSpec.
Record t := mk { ClusterIP : string; Ports : list ServicePort.t }.
End ServiceSpec.

Module Service.
Record t := mk { Metadata : Metadata.t; Spec : ServiceSpec.t }.
End Service.

Module DeploymentCondition.
Record t := mk { Type_ : string; LastUpdateTime : string }.
End DeploymentCondition.

Module Deployment.
Record t := mk {
  Metadata : Metadata.t;
  (* Spec.Template.Metadata.Annotations *)
  TemplateAnnotations : gmap string string;
  (* Status.Conditions *)
  Conditions : list DeploymentCondition.t
}.
End Deployment.

Module Condition.
Record t := mk { Started : string }.
End Condition.

Module ContainerState.
Record t := mk {
  Running : option Condition.t;
  Terminated : option Condition.t;
  Waiting : option Condition.t
}.
End ContainerState.

Module ContainerStatus.
Record t := mk { State : ContainerState.t }.
End ContainerStatus.

Module Pod.
Record t := mk {
  Metadata : Metadata.t;
  (* Status.Phase *)
  Phase : string;
  (* Status.Containers *)
  Containers : list ContainerStatus.t
}.
End Pod.

Module Namespace.
Record t := mk { Metadata : Metadata.t }.
End Namespace.

Module Secret.
Record t := mk {
  Type_ : string;
  Data : gmap string string;
  Metadata : Metadata.t
}.
End Secret.

(** Modelled from the spec: [client.DefaultNamespace], the fixed default
    namespace. *)
Definition DefaultNamespace : string := "default".

End client.

(** ** The status transformer *)

Import runtime(ServiceStatus, Starting, Running, Stopped, Error, Unknown).

Definition transformStatus (depStatus : string) : ServiceStatus :=
  let s := ToLower depStatus in
  if String.eqb s "pending" then Starting
  else if String.eqb s "containercreating" then Starting
  else if String.eqb s "imagepullbackoff" then Error
  else if String.eqb s "crashloopbackoff" then Error
  else if String.eqb s "error" then Error
  else if String.eqb s "running" then Running
  else if String.eqb s "available" then Running
  else if String.eqb s "succeeded" then Stopped
  else if String.eqb s "failed" then Error
  else if String.eqb s "waiting" then Starting
  else if String.eqb s "terminated" then Stopped
  else Unknown.

(** ** How a call ends *)

Inductive panic :=
| IndexOutOfRange
| NilPointerDereference
| CloseOfClosedChannel
| CloseOfNilChannel.

(** A call returns a value, panics, or never returns because it waits for a
    lock that is never released. *)
Inductive result (A : Type) :=
| Returns (a : A)
| Panics (p : panic)
| Blocks.

Arguments Returns {A} a.
Arguments Panics {A} p.
Arguments Blocks {A}.

Definition andThen {A B} (r : result A) (f : A → result B) : result B :=
  match r with
  | Returns a => f a
  | Panics p => Panics p
  | Blocks => Blocks
  end.

(** A [for _, x := range items] loop whose body may panic. *)
Fixpoint rangeOver {A S} (body : S → A → result S) (items : list A) (s : S)
  : result S :=
  match items with
  | [] => Returns s
  | x :: rest => andThen (body s x) (rangeOver body rest)
  end.

(** ** The logical service *)

(** Modelled from the spec: the struct [service], declared in another file
    of the package: the embedded [runtime.Service] and the two
    back-references to the native objects. The back-references are pointers
    to the variables of the loops; the file only tests them against nil and
    reads through [kdeploy]. *)
Module service.

Record t := mk {
  Service : runtime.Service.t;
  kservice : option client.Service.t;
  kdeploy : option client.Deployment.t
}.

Definition withService (f : runtime.Service.t → runtime.Service.t) (s : t) : t :=
  mk (f (Service s)) (kservice s) (kdeploy s).

(** [svc.Service.Name = v] and the like. *)
Definition setName (v : string) : t → t :=
  withService (λ r, runtime.Service.mk v (runtime.Service.Version r)
    (runtime.Service.Source r) (runtime.Service.Metadata r) (runtime.Service.Status r)).
Definition setVersion (v : string) : t → t :=
  withService (λ r, runtime.Service.mk (runtime.Service.Name r) v
    (runtime.Service.Source r) (runtime.Service.Metadata r) (runtime.Service.Status r)).
Definition setSource (v : string) : t → t :=
  withService (λ r, runtime.Service.mk (runtime.Service.Name r)
    (runtime.Service.Version r) v (runtime.Service.Metadata r) (runtime.Service.Status r)).
Definition setMetadata (md : gmap string string) : t → t :=
  withService (λ r, runtime.Service.mk (runtime.Service.Name r)
    (runtime.Service.Version r) (runtime.Service.Source r) md (runtime.Service.Status r)).

Definition Metadata (s : t) : gmap string string :=
  runtime.Service.Metadata (Service s).

(** [svc.Metadata[key] = v]. *)
Definition putMetadata (key v : string) (s : t) : t :=
  setMetadata (<[key := v]> (Metadata s)) s.

(** [svc.kdeploy = &kdep]. *)
Definition setKdeploy (d : client.Deployment.t) (s : t) : t :=
  mk (Service s) (kservice s) (Some d).

(** Modelled from the spec: the method [Status] of [service], which is in
    another file of the package; called with a [nil] error it records the
    derived status of the logical service. *)
Definition Status (status : ServiceStatus) (s : t) : t :=
  withService (λ r, runtime.Service.mk (runtime.Service.Name r)
    (runtime.Service.Version r) (runtime.Service.Source r)
    (runtime.Service.Metadata r) (Some status)) s.

End service.

(** ** The service correlator: the join of [getService] *)

Definition labelOf (md : client.Metadata.t) (key : string) : string :=
  goIndex (client.Metadata.Labels md) key.

Definition annotationOf (md : client.Metadata.t) (key : string) : string :=
  goIndex (client.Metadata.Annotations md) key.

(** The key of the service map, [name+version]. *)
Definition mapKey (md : client.Metadata.t) : string :=
  labelOf md "name" +:+ labelOf md "version".

(** The body of the loop over [serviceList.Items]. *)
Definition collectService (svcMap : gmap string service.t)
    (kservice : client.Service.t) : result (gmap string service.t) :=
  let name := labelOf (client.Service.Metadata kservice) "name" in
  let version := labelOf (client.Service.Metadata kservice) "version" in
  let srv := service.mk
    (runtime.Service.mk name version EmptyString ∅ None) (Some kservice) None in
  let address := client.ServiceSpec.ClusterIP (client.Service.Spec kservice) in
  match client.ServiceSpec.Ports (client.Service.Spec kservice) with
  | [] => Panics IndexOutOfRange
  | port :: _ =>
    let srv := service.putMetadata "address"
      (address +:+ ":" +:+ pretty (client.ServicePort.Port port)) srv in
    let srv := service.putMetadata "type"
      (labelOf (client.Service.Metadata kservice) "micro") srv in
    let srv := service.setMetadata
      (copyInto (client.Metadata.Annotations (client.Service.Metadata kservice))
         (service.Metadata srv)) srv in
    Returns (<[name +:+ version := srv]> svcMap)
  end.

(** The body of the loop over [podList.Items], for the deployment labelled
    [name] and [version]. *)
Definition refineStatus (name version : string) (svc : service.t)
    (item : client.Pod.t) : service.t :=
  if decide (labelOf (client.Pod.Metadata item) "name" ≠ name) then svc
  else if decide (labelOf (client.Pod.Metadata item) "version" ≠ version) then svc
  else
    let status := transformStatus (client.Pod.Phase item) in
    match client.Pod.Containers item with
    | [] => svc
    | container :: _ =>
      let state := client.ContainerStatus.State container in
      let svc :=
        match client.ContainerState.Running state with
        | Some running =>
          service.putMetadata "started" (client.Condition.Started running) svc
        | None => svc
        end in
      let status :=
        match client.ContainerState.Waiting state with
        | Some _ => Starting
        | None => status
        end in
      service.Status status svc
    end.

(** [delete(kdep.Metadata.Annotations, ...)] for the three provenance keys;
    the map is shared with the deployment, which is stored afterwards. *)
Definition dropProvenance (kdep : client.Deployment.t) : client.Deployment.t :=
  let md := client.Deployment.Metadata kdep in
  client.Deployment.mk
    (client.Metadata.mk (client.Metadata.Name md) (client.Metadata.Namespace md)
       (client.Metadata.Labels md)
       (delete "source" (delete "version" (delete "name"
          (client.Metadata.Annotations md)))))
    (client.Deployment.TemplateAnnotations kdep)
    (client.Deployment.Conditions kdep).

(** What one deployment does to the logical service it is matched with. *)
Definition applyDeployment (pods : list client.Pod.t)
    (kdep : client.Deployment.t) (svc : service.t) : service.t :=
  let md := client.Deployment.Metadata kdep in
  let name := labelOf md "name" in
  let version := labelOf md "version" in
  let svc := service.setName (annotationOf md "name") svc in
  let svc := service.setVersion (annotationOf md "version") svc in
  let svc := service.setSource (annotationOf md "source") svc in
  let kdep := dropProvenance kdep in
  let svc := service.setMetadata
    (copyInto (client.Metadata.Annotations (client.Deployment.Metadata kdep))
       (service.Metadata svc)) svc in
  let svc :=
    match client.Deployment.Conditions kdep with
    | condition :: _ =>
      let status := transformStatus (client.DeploymentCondition.Type_ condition) in
      let svc := service.Status status svc in
      service.putMetadata "started"
        (client.DeploymentCondition.LastUpdateTime condition) svc
    | [] => service.Status Unknown svc
    end in
  let svc := foldl (refineStatus name version) svc pods in
  service.setKdeploy kdep svc.

(** The body of the loop over [depList.Items]. The map holds pointers, so
    the changes made through [svc] are changes of the entry. *)
Definition collectDeployment (pods : list client.Pod.t)
    (svcMap : gmap string service.t) (kdep : client.Deployment.t)
  : gmap string service.t :=
  let md := client.Deployment.Metadata kdep in
  match svcMap !! mapKey md with
  | Some svc =>
    match client.Metadata.Annotations md !! "name" with
    | None => svcMap
    | Some _ => <[mapKey md := applyDeployment pods kdep svc]> svcMap
    end
  | None => svcMap
  end.

(** The range over the service map at the end of [getService]: the services
    in an order the language leaves unspecified. *)
Definition servicesOf (svcMap : gmap string service.t) : list service.t :=
  (map_to_list svcMap).*2.

(** [getService] after its three lists have been fetched. *)
Definition correlateMap (services : list client.Service.t)
    (deployments : list client.Deployment.t) (pods : list client.Pod.t)
  : result (gmap string service.t) :=
  andThen (rangeOver collectService services ∅)
    (λ svcMap, Returns (foldl (collectDeployment pods) svcMap deployments)).

Definition correlate (services : list client.Service.t)
    (deployments : list client.Deployment.t) (pods : list client.Pod.t)
  : result (list service.t) :=
  andThen (correlateMap services deployments pods)
    (λ svcMap, Returns (servicesOf svcMap)).

(** What the properties of the correlation compare: name, version, status. *)
Definition view (s : service.t) : string * string * option ServiceStatus :=
  (runtime.Service.Name (service.Service s),
   runtime.Service.Version (service.Service s),
   runtime.Service.Status (service.Service s)).

Definition views (r : result (list service.t))
  : list (string * string * option ServiceStatus) :=
  match r with
  | Returns l => view <$> l
  | _ => []
  end.

(** ** Base64, as [base64.StdEncoding.EncodeToString] *)

Definition encodeStd : string :=
  "ABCDEFGHIJKLMNOPQRSTUVWXYZabcdefghijklmnopqrstuvwxyz0123456789+/".

(** The character of a 6-bit value. *)
Definition sextet (n : N) : ascii :=
  default "="%char (String.get (N.to_nat n) encodeStd).

Fixpoint encodeBytes (src : list N) : string :=
  match src with
  | [] => EmptyString
  | [a] =>
    String (sextet (N.shiftr a 2))
      (String (sextet (N.shiftl (N.land a 3) 4)) "==")
  | [a; b] =>
    String (sextet (N.shiftr a 2))
      (String (sextet (N.lor (N.shiftl (N.land a 3) 4) (N.shiftr b 4)))
         (String (sextet (N.shiftl (N.land b 15) 2)) "="))
  | a :: b :: c :: rest =>
    String (sextet (N.shiftr a 2))
      (String (sextet (N.lor (N.shiftl (N.land a 3) 4) (N.shiftr b 4)))
         (String (sextet (N.lor (N.shiftl (N.land b 15) 2) (N.shiftr c 6)))
            (String (sextet (N.land c 63)) (encodeBytes rest))))
  end.

(** [[]byte(value)]. *)
Fixpoint bytesOf (s : string) : list N :=
  match s with
  | EmptyString => []
  | String c rest => N_of_ascii c :: bytesOf rest
  end.

Definition EncodeToString (value : string) : string :=
  encodeBytes (bytesOf value).

(** ** Options *)

(** Modelled from the spec: the option bundles of package [runtime], with
    the fields that the file reads. *)
Module Options.
Record t := mk { Type_ : string; Source : string; Image : string }.
End Options.

Module CreateOptions.
Record t := mk {
  Namespace : string;
  Type_ : string;
  Image : string;
  Secrets : gmap string string
}.
Definition setType (v : string) (o : t) : t :=
  mk (Namespace o) v (Image o) (Secrets o).
Definition setImage (v : string) (o : t) : t :=
  mk (Namespace o) (Type_ o) v (Secrets o).
End CreateOptions.

Module UpdateOptions.
Record t := mk { Namespace : string }.
End UpdateOptions.

Module DeleteOptions.
Record t := mk { Namespace : string }.
End DeleteOptions.

Module LogsOptions.
Record t := mk { Count : Z; Stream : bool }.
End LogsOptions.

(** [for _, o := range opts { o(&options) }]. *)
Definition applyOptions {O} (opts : list (O → O)) (options : O) : O :=
  foldl (λ acc o, o acc) options opts.

(** ** The log stream *)

Inductive chan := NilChan | OpenChan | ClosedChan.

(** What [Stop] does to the channels, in order. *)
Inductive chanEvent := CloseStop | CloseStream.

Module kubeStream.

Record t := mk {
  stream : chan;
  (* the embedded sync.Mutex *)
  locked : bool;
  stop : chan;
  err : option error
}.

(** [&kubeStream{stream: make(chan runtime.Log), stop: make(chan bool)}]. *)
Definition make : t := mk OpenChan false OpenChan None.

Definition Error (k : t) : option error := err k.

Definition Chan (k : t) : chan := stream k.

(** [close(c)]. *)
Definition close (c : chan) : result chan :=
  match c with
  | OpenChan => Returns ClosedChan
  | ClosedChan => Panics CloseOfClosedChannel
  | NilChan => Panics CloseOfNilChannel
  end.

(** Whether [case <-c] of a [select] with a [default] is taken: a closed
    channel delivers at once; nothing ever sends on the stop channel, so an
    open one does not; a nil channel never does. *)
Definition ready (c : chan) : bool :=
  match c with ClosedChan => true | _ => false end.

(** [Stop]. The deferred [Unlock] runs when the body returns and when it
    panics. A [Lock] on a held mutex never returns. *)
Definition Stop (k : t) : result (option error) * t * list chanEvent :=
  if locked k then (Blocks, k, [])
  else
    if ready (stop k) then (Returns None, k, [])
    else
      match close (stop k) with
      | Returns stop' =>
        match close (stream k) with
        | Returns stream' =>
          (Returns None, mk stream' false stop' (err k), [CloseStop; CloseStream])
        | Panics p => (Panics p, mk (stream k) false stop' (err k), [CloseStop])
        | Blocks => (Blocks, k, [])
        end
      | Panics p => (Panics p, k, [])
      | Blocks => (Blocks, k, [])
      end.

(** [n] calls of [Stop] one after the other; a panic ends the sequence. *)
Fixpoint stops (n : nat) (k : t)
  : list (result (option error)) * t * list chanEvent :=
  match n with
  | O => ([], k, [])
  | S n' =>
    match Stop k with
    | (Returns r, k', ev) =>
      let '(rs, k'', ev') := stops n' k' in (Returns r :: rs, k'', ev ++ ev')
    | (r, k', ev) => ([r], k', ev)
    end
  end.

End kubeStream.

(** ** The calls that leave this file *)

(** A log record, opaque here. *)
Definition Log := string.

Inductive call :=
(* k.client.List of the namespaces *)
| ListNamespaces
(* k.client.Get of the services, deployments and pods: namespace and labels *)
| GetServices (namespace : string) (labels : gmap string string)
| GetDeployments (namespace : string) (labels : gmap string string)
| GetPods (namespace : string) (labels : gmap string string)
(* k.client.Create of a namespace, with the CreateNamespace option *)
| ClientCreateNamespace (ns : client.Namespace.t) (namespace : string)
(* k.client.Create of a secret: resource name, value, namespace *)
| ClientCreateSecret (name : string) (secret : client.Secret.t) (namespace : string)
(* k.client.Delete of a secret *)
| ClientDeleteSecret (name : string) (namespace : string)
(* the helpers of the package that live in other files *)
| createNamespace (n : runtime.Namespace.t)
| createNetworkPolicy (p : runtime.NetworkPolicy.t)
| updateNetworkPolicy (p : runtime.NetworkPolicy.t)
| deleteNamespace (n : runtime.Namespace.t)
| deleteNetworkPolicy (p : runtime.NetworkPolicy.t)
(* newService(s, options) followed by Start, Stop; service.Update *)
| serviceStart (s : runtime.Service.t) (options : CreateOptions.t) (namespace : string)
| serviceStop (s : runtime.Service.t) (options : CreateOptions.t) (namespace : string)
| serviceUpdate (s : service.t) (namespace : string)
(* newLog(...) followed by Read or Stream *)
| logRead (name : string) (options : LogsOptions.t)
| logStream (name : string) (options : LogsOptions.t).

(** A value together with a Go error: the error when it is not nil. *)
Inductive answer (A : Type) := Ok (a : A) | Fails (e : error).
Arguments Ok {A} a.
Arguments Fails {A} e.

(** What the file takes from outside: functions of other packages, and the
    cluster behind the client.  The cluster answers a call from the calls
    made before it (oldest first), so that it may change as it is used. *)
Record Env := {
  (* client.SerializeResourceName and client.Format *)
  SerializeResourceName : string → string;
  Format : string → string;
  (* runtime.NewNetworkPolicy(name, namespace, allowedLabels) *)
  NewNetworkPolicy :
    string → string → gmap string string → answer runtime.NetworkPolicy.t;
  (* time.Now().Unix() *)
  unixNow : list call → Z;
  (* the items of the namespace list; nil when the list has none *)
  listNamespaces : list call → answer (option (list client.Namespace.t));
  getServices :
    list call → string → gmap string string → answer (list client.Service.t);
  getDeployments :
    list call → string → gmap string string → answer (list client.Deployment.t);
  getPods :
    list call → string → gmap string string → answer (list client.Pod.t);
  (* the error of a create, update, delete, start or stop; None is nil *)
  perform : list call → call → option error;
  readLogs : list call → string → LogsOptions.t → answer (list Log);
  streamLogs : list call → string → LogsOptions.t → answer kubeStream.t
}.

(** ** The runtime and its state *)

Module kubernetes.
Record t := mk {
  (* the embedded sync.RWMutex: held for writing or free *)
  locked : bool;
  options : Options.t;
  running : bool;
  (* the namespace cache; nil until it is populated *)
  namespaces : option (list client.Namespace.t)
}.
Definition setLocked (b : bool) (k : t) : t :=
  mk b (options k) (running k) (namespaces k).
Definition setNamespaces (ns : option (list client.Namespace.t)) (k : t) : t :=
  mk (locked k) (options k) (running k) ns.
End kubernetes.

(** The runtime and the calls made so far, oldest first. *)
Record state := mkState { k : kubernetes.t; calls : list call }.

Definition M (A : Type) : Type := state → result A * state.

Definition ret {A} (a : A) : M A := λ w, (Returns a, w).

Definition bind {A B} (m : M A) (f : A → M B) : M B :=
  λ w,
    match m w with
    | (Returns a, w') => f a w'
    | (Panics p, w') => (Panics p, w')
    | (Blocks, w') => (Blocks, w')
    end.

#[global] Instance M_ret : MRet M := @ret.
#[global] Instance M_bind : MBind M := λ A B f m, bind m f.

Definition record (c : call) : M unit :=
  λ w, (Returns tt, mkState (k w) (calls w ++ [c])).

Definition getRuntime : M kubernetes.t := λ w, (Returns (k w), w).

Definition putRuntime (k' : kubernetes.t) : M unit :=
  λ w, (Returns tt, mkState k' (calls w)).

Definition history : M (list call) := λ w, (Returns (calls w), w).

Definition panicWith {A} (p : panic) : M A := λ w, (Panics p, w).

Definition lift {A} (r : result A) : M A := λ w, (r, w).

(** A call answered with an error or nil. *)
Definition invoke (E : Env) (c : call) : M (option error) :=
  h ← history; _ ← record c; ret (perform E h c).

(** [k.Lock()]: the lock is not reentrant, so taking it while it is held
    never returns. *)
Definition Lock : M unit :=
  λ w, if kubernetes.locked (k w) then (Blocks, w)
       else (Returns tt, mkState (kubernetes.setLocked true (k w)) (calls w)).

Definition Unlock : M unit :=
  λ w, (Returns tt, mkState (kubernetes.setLocked false (k w)) (calls w)).

(** [k.Lock(); defer k.Unlock(); body]: the deferred call runs when the body
    returns and when it panics, not when it blocks. *)
Definition locking {A} (body : M A) : M A :=
  λ w,
    match Lock w with
    | (Returns _, w1) =>
      match body w1 with
      | (Blocks, w2) => (Blocks, w2)
      | (r, w2) => (r, snd (Unlock w2))
      end
    | (Panics p, w1) => (Panics p, w1)
    | (Blocks, w1) => (Blocks, w1)
    end.

(** ** Namespaces *)

Definition namespaceExists (E : Env) (name : string) : M (bool * option error) :=
  let check : M (bool * option error) :=
    rt ← getRuntime;
    ret (existsb
           (λ n, bool_decide
              (client.Metadata.Name (client.Namespace.Metadata n) = name))
           (default [] (kubernetes.namespaces rt)), None) in
  rt ← getRuntime;
  match kubernetes.namespaces rt with
  | None =>
    h ← history;
    _ ← record ListNamespaces;
    match listNamespaces E h with
    | Fails e => ret (false, Some e)
    | Ok items =>
      _ ← putRuntime (kubernetes.setNamespaces items rt);
      check
    end
  | Some _ => check
  end.

(** [client.Namespace{Metadata: &client.Metadata{Name: name}}]. *)
Definition namespaceNamed (name : string) : client.Namespace.t :=
  client.Namespace.mk (client.Metadata.mk name EmptyString ∅ ∅).

(** [autoCreateNamespace] after its call of the client: [err] is the error
    of the namespace creation, [Create] is the method it calls for the
    policy. *)
Definition finishAutoCreate
    (Create : runtime.Resource → list (CreateOptions.t → CreateOptions.t) →
              M (option error))
    (E : Env) (namespace : string) (ns : client.Namespace.t)
    (err : option error) : M (option error) :=
  let err :=
    match err with
    | Some e => if Contains (Error_ e) "already exists" then None else Some e
    | None => None
    end in
  rt ← getRuntime;
  match err, kubernetes.namespaces rt with
  | None, Some cache =>
    _ ← putRuntime (kubernetes.setNamespaces (Some (cache ++ [ns])) rt);
    match NewNetworkPolicy E "ingress" namespace {["owner" := "micro"]} with
    | Fails e => ret (Some e)
    | Ok networkPolicy =>
      Create (runtime.OfNetworkPolicy networkPolicy)
        [λ o, CreateOptions.mk namespace (CreateOptions.Type_ o)
                (CreateOptions.Image o) (CreateOptions.Secrets o)]
    end
  | _, _ => ret err
  end.

Definition autoCreateNamespaceWith
    (Create : runtime.Resource → list (CreateOptions.t → CreateOptions.t) →
              M (option error))
    (E : Env) (namespace : string) : M (option error) :=
  let ns := namespaceNamed namespace in
  err ← invoke E (ClientCreateNamespace ns namespace);
  finishAutoCreate Create E namespace ns err.

(** ** Credentials *)

Definition credentialsName (E : Env) (service : runtime.Service.t) : string :=
  let name := runtime.Service.Name service +:+ "-" +:+
              runtime.Service.Version service +:+ "-credentials" in
  SerializeResourceName E name.

Definition createCredentials (E : Env) (service : runtime.Service.t)
    (options : CreateOptions.t) : M (option error) :=
  let data := EncodeToString <$> CreateOptions.Secrets options in
  let secret := client.Secret.mk "Opaque" data
    (client.Metadata.mk (credentialsName E service)
       (CreateOptions.Namespace options) ∅ ∅) in
  let name := credentialsName E service in
  invoke E (ClientCreateSecret name secret (CreateOptions.Namespace options)).

Definition getImage (rt : kubernetes.t) (s : runtime.Service.t)
    (options : CreateOptions.t) : string :=
  if (0 <? String.length (CreateOptions.Image options))%nat
  then CreateOptions.Image options
  else if (0 <? String.length (Options.Image (kubernetes.options rt)))%nat
  then Options.Image (kubernetes.options rt)
  else EmptyString.

(** ** getService *)

(** [getService(labels, client.GetNamespace(namespace))]: the three lists,
    then the join. An error of a list is returned as it is. *)
Definition getService (E : Env) (labels : gmap string string)
    (namespace : string) : M (answer (list service.t)) :=
  h ← history;
  _ ← record (GetServices namespace labels);
  match getServices E h namespace labels with
  | Fails e => ret (Fails e)
  | Ok serviceList =>
    h ← history;
    _ ← record (GetDeployments namespace labels);
    match getDeployments E h namespace labels with
    | Fails e => ret (Fails e)
    | Ok depList =>
      h ← history;
      _ ← record (GetPods namespace labels);
      match getPods E h namespace labels with
      | Fails e => ret (Fails e)
      | Ok podList =>
        services ← lift (correlate serviceList depList podList);
        ret (Ok services)
      end
    end
  end.

(** ** The dispatcher *)

(** [len(s) > 0] and [len(s) == 0] on a string. *)
Definition nonEmpty (s : string) : bool := (0 <? String.length s)%nat.

(** [Create], given the [autoCreateNamespace] it calls. In the source
    [Create] and [autoCreateNamespace] call each other; the inner [Create]
    is always given a network policy, whose branch does not reach
    [autoCreateNamespace], so the recursion is unfolded once below. *)
Definition CreateWith (autoCreateNamespace : string → M (option error))
    (E : Env) (resource : runtime.Resource)
    (opts : list (CreateOptions.t → CreateOptions.t)) : M (option error) :=
  locking (
    rt ← getRuntime;
    let options := applyOptions opts
      (CreateOptions.mk client.DefaultNamespace
         (Options.Type_ (kubernetes.options rt)) EmptyString ∅) in
    if decide (runtime.Type_ resource = runtime.TypeNamespace) then
      match runtime.asNamespace resource with
      | None => ret (Some ErrInvalidResource)
      | Some namespace => invoke E (createNamespace namespace)
      end
    else if decide (runtime.Type_ resource = runtime.TypeNetworkPolicy) then
      match runtime.asNetworkPolicy resource with
      | None => ret (Some ErrInvalidResource)
      | Some networkPolicy => invoke E (createNetworkPolicy networkPolicy)
      end
    else if decide (runtime.Type_ resource = runtime.TypeService) then
      match runtime.asService resource with
      | None => ret (Some ErrInvalidResource)
      | Some s =>
        let options :=
          if nonEmpty (CreateOptions.Type_ options) then options
          else CreateOptions.setType (Options.Type_ (kubernetes.options rt)) options in
        let s :=
          if nonEmpty (runtime.Service.Source s) then s
          else runtime.Service.mk (runtime.Service.Name s)
                 (runtime.Service.Version s)
                 (Options.Source (kubernetes.options rt))
                 (runtime.Service.Metadata s) (runtime.Service.Status s) in
        let namespace := SerializeResourceName E (CreateOptions.Namespace options) in
        ensured ←
          (if decide (namespace ≠ "default") then
             found ← namespaceExists E namespace;
             match found with
             | (false, None) => autoCreateNamespace namespace
             | (true, None) => ret None
             | (_, Some e) => ret (Some e)
             end
           else ret None);
        match ensured with
        | Some e => ret (Some e)
        | None =>
          let options := CreateOptions.setImage (getImage rt s options) options in
          created ←
            (if (0 <? size (CreateOptions.Secrets options))%nat
             then createCredentials E s options
             else ret None);
          match created with
          | Some e => ret (Some e)
          | None =>
            invoke E (serviceStart s options (CreateOptions.Namespace options))
          end
        end
      end
    else ret (Some ErrInvalidResource)).

(** The [Create] that [autoCreateNamespace] calls. *)
Definition CreateNested (E : Env) :=
  CreateWith (λ _, ret None) E.

Definition autoCreateNamespace (E : Env) (namespace : string) : M (option error) :=
  autoCreateNamespaceWith (CreateNested E) E namespace.

Definition Create (E : Env) (resource : runtime.Resource)
    (opts : list (CreateOptions.t → CreateOptions.t)) : M (option error) :=
  CreateWith (autoCreateNamespace E) E resource opts.

(** The labels that [Update] selects with. *)
Definition updateLabels (E : Env) (s : runtime.Service.t) : gmap string string :=
  let labels : gmap string string := ∅ in
  let labels :=
    if nonEmpty (runtime.Service.Name s)
    then <["name" := Format E (runtime.Service.Name s)]> labels else labels in
  if nonEmpty (runtime.Service.Version s)
  then <["version" := Format E (runtime.Service.Version s)]> labels else labels.

(** The loop of [Update] over the services that [getService] returned. The
    first thing its body does is to read through [service.kdeploy]. Its nil
    check is on the metadata and the annotations of the deployment; both are
    there in a deployment that [getService] stored, which had a [name]
    annotation. *)
Fixpoint updateServices (E : Env) (s : runtime.Service.t) (namespace : string)
    (services : list service.t) : M (option error) :=
  match services with
  | [] => ret None
  | service :: rest =>
    match service.kdeploy service with
    | None => panicWith NilPointerDereference
    | Some kdeploy =>
      let md := client.Deployment.Metadata kdeploy in
      let md := client.Metadata.mk (client.Metadata.Name md)
        (client.Metadata.Namespace md) (client.Metadata.Labels md)
        (copyInto (runtime.Service.Metadata s) (client.Metadata.Annotations md)) in
      h ← history;
      let kdeploy := client.Deployment.mk md
        (<["updated" := pretty (unixNow E h)]>
           (client.Deployment.TemplateAnnotations kdeploy))
        (client.Deployment.Conditions kdeploy) in
      err ← invoke E (serviceUpdate (service.setKdeploy kdeploy service) namespace);
      match err with
      | Some e => ret (Some e)
      | None => updateServices E s namespace rest
      end
    end
  end.

Definition Update (E : Env) (resource : runtime.Resource)
    (opts : list (UpdateOptions.t → UpdateOptions.t)) : M (option error) :=
  let options := applyOptions opts (UpdateOptions.mk client.DefaultNamespace) in
  if decide (runtime.Type_ resource = runtime.TypeNamespace) then
    ret None
  else if decide (runtime.Type_ resource = runtime.TypeNetworkPolicy) then
    match runtime.asNetworkPolicy resource with
    | None => ret (Some ErrInvalidResource)
    | Some networkPolicy => invoke E (updateNetworkPolicy networkPolicy)
    end
  else if decide (runtime.Type_ resource = runtime.TypeService) then
    match runtime.asService resource with
    | None => ret (Some ErrInvalidResource)
    | Some s =>
      found ← getService E (updateLabels E s) (UpdateOptions.Namespace options);
      match found with
      | Fails e => ret (Some e)
      | Ok services =>
        updateServices E s (UpdateOptions.Namespace options) services
      end
    end
  else ret (Some ErrInvalidResource).

Definition Delete (E : Env) (resource : runtime.Resource)
    (opts : list (DeleteOptions.t → DeleteOptions.t)) : M (option error) :=
  locking (
    let options := applyOptions opts (DeleteOptions.mk client.DefaultNamespace) in
    if decide (runtime.Type_ resource = runtime.TypeNamespace) then
      match runtime.asNamespace resource with
      | None => ret (Some ErrInvalidResource)
      | Some namespace => invoke E (deleteNamespace namespace)
      end
    else if decide (runtime.Type_ resource = runtime.TypeNetworkPolicy) then
      match runtime.asNetworkPolicy resource with
      | None => ret (Some ErrInvalidResource)
      | Some networkPolicy => invoke E (deleteNetworkPolicy networkPolicy)
      end
    else if decide (runtime.Type_ resource = runtime.TypeService) then
      match runtime.asService resource with
      | None => ret (Some ErrInvalidResource)
      | Some s =>
        rt ← getRuntime;
        let serviceOptions := CreateOptions.mk (DeleteOptions.Namespace options)
          (Options.Type_ (kubernetes.options rt)) EmptyString ∅ in
        let ns := DeleteOptions.Namespace options in
        _ ← invoke E (ClientDeleteSecret (credentialsName E s) ns);
        err ← invoke E (serviceStop s serviceOptions ns);
        match err with
        | Some e =>
          if decide (e = apiErrNotFound) then ret (Some ErrNotFound)
          else ret (Some e)
        | None => ret None
        end
      end
    else ret (Some ErrInvalidResource)).

(** What [Logs] hands out: the stream it made together with the records
    that its goroutine sends before it stops the stream, or the stream of
    the log accessor. *)
Inductive Logs_ :=
| Replay (kstream : kubeStream.t) (records : list Log)
| Live (stream : kubeStream.t).

Definition Logs (E : Env) (resource : runtime.Resource)
    (options : list (LogsOptions.t → LogsOptions.t))
  : M (option Logs_ * option error) :=
  if decide (runtime.Type_ resource = runtime.TypeNamespace) then
    ret (None, None)
  else if decide (runtime.Type_ resource = runtime.TypeNetworkPolicy) then
    ret (None, None)
  else if decide (runtime.Type_ resource = runtime.TypeService) then
    match runtime.asService resource with
    | None => ret (None, Some ErrInvalidResource)
    | Some s =>
      let name := runtime.Service.Name s in
      let klo := applyOptions options (LogsOptions.mk 0 false) in
      h ← history;
      if negb (LogsOptions.Stream klo) then
        _ ← record (logRead name klo);
        match readLogs E h name klo with
        | Fails e => ret (None, Some e)
        | Ok records => ret (Some (Replay kubeStream.make records), None)
        end
      else
        _ ← record (logStream name klo);
        match streamLogs E h name klo with
        | Fails e => ret (None, Some e)
        | Ok stream => ret (Some (Live stream), None)
        end
    end
  else ret (None, Some ErrInvalidResource).

(** ** Notions used to state the properties of the correlation *)

Definition hasPort (kservice : client.Service.t) : Prop :=
  length (client.ServiceSpec.Ports (client.Service.Spec kservice)) ≠ 0.

(** A deployment that the loop of [getService] applies to the entry [key]:
    its labels give that key and it has a [name] annotation. *)
Definition managedFor (key : string) (kdep : client.Deployment.t) : Prop :=
  mapKey (client.Deployment.Metadata kdep) = key ∧
  is_Some (client.Metadata.Annotations (client.Deployment.Metadata kdep) !! "name").

Definition managed (kdep : client.Deployment.t) : Prop :=
  is_Some (client.Metadata.Annotations (client.Deployment.Metadata kdep) !! "name").

Definition hasContainers (item : client.Pod.t) : Prop :=
  length (client.Pod.Containers item) ≠ 0.

(** A pod with the name and version labels of the deployment and with a
    container status. *)
Definition matchingPod (kdep : client.Deployment.t) (item : client.Pod.t) : Prop :=
  labelOf (client.Pod.Metadata item) "name" =
    labelOf (client.Deployment.Metadata kdep) "name" ∧
  labelOf (client.Pod.Metadata item) "version" =
    labelOf (client.Deployment.Metadata kdep) "version" ∧
  hasContainers item.

(** The status derived from a pod, in the words of the specification: the
    phase through the status transformer, forced to [Starting] when the
    first container reports a waiting state. *)
Definition podStatus (item : client.Pod.t) : ServiceStatus :=
  match client.Pod.Containers item with
  | container :: _ =>
    match client.ContainerState.Waiting (client.ContainerStatus.State container) with
    | Some _ => Starting
    | None => transformStatus (client.Pod.Phase item)
    end
  | [] => transformStatus (client.Pod.Phase item)
  end.

(** The status derived from the conditions of a deployment. *)
Definition deploymentStatus (kdep : client.Deployment.t) : ServiceStatus :=
  match client.Deployment.Conditions kdep with
  | condition :: _ => transformStatus (client.DeploymentCondition.Type_ condition)
  | [] => Unknown
  end.

Definition serviceKey (kservice : client.Service.t) : string :=
  mapKey (client.Service.Metadata kservice).

Definition deploymentKey (kdep : client.Deployment.t) : string :=
  mapKey (client.Deployment.Metadata kdep).

Definition podKey (item : client.Pod.t) : string * string :=
  (labelOf (client.Pod.Metadata item) "name",
   labelOf (client.Pod.Metadata item) "version").

(** The loop over the services when none of them panics. *)
Definition placed (svcMap : gmap string service.t) (kservice : client.Service.t)
  : gmap string service.t :=
  match collectService svcMap kservice with
  | Returns svcMap' => svcMap'
  | _ => svcMap
  end.

#[global] Instance hasPort_dec kservice : Decision (hasPort kservice).
Proof. unfold hasPort. apply _. Defined.

#[global] Instance managedFor_dec key kdep : Decision (managedFor key kdep).
Proof. unfold managedFor. apply _. Defined.

#[global] Instance managed_dec kdep : Decision (managed kdep).
Proof. unfold managed. apply _. Defined.

#[global] Instance hasContainers_dec item : Decision (hasContainers item).
Proof. unfold hasContainers. apply _. Defined.

#[global] Instance matchingPod_dec kdep item : Decision (matchingPod kdep item).
Proof. unfold matchingPod. apply _. Defined.

(** ** The correlation seen through name, version and status *)

Definition mapResult {A B} (f : A → B) (r : result A) : result B :=
  andThen r (λ a, Returns (f a)).

Abbreviation View := (string * string * option ServiceStatus)%type.

(** What a pod does to the view of the service of deployment [kdep]. *)
Definition refineView (kdep : client.Deployment.t) (v : View)
    (item : client.Pod.t) : View :=
  if decide (matchingPod kdep item) then (v.1.1, v.1.2, Some (podStatus item))
  else v.

(** The view that a deployment leaves, whatever the service was before. *)
Definition deploymentView (pods : list client.Pod.t)
    (kdep : client.Deployment.t) : View :=
  foldl (refineView kdep)
    (annotationOf (client.Deployment.Metadata kdep) "name",
     annotationOf (client.Deployment.Metadata kdep) "version",
     Some (deploymentStatus kdep)) pods.

Definition collectView (pods : list client.Pod.t) (vm : gmap string View)
    (kdep : client.Deployment.t) : gmap string View :=
  match vm !! deploymentKey kdep with
  | Some _ =>
    if decide (managed kdep) then <[deploymentKey kdep := deploymentView pods kdep]> vm
    else vm
  | None => vm
  end.

Definition serviceView (kservice : client.Service.t) : View :=
  (labelOf (client.Service.Metadata kservice) "name",
   labelOf (client.Service.Metadata kservice) "version", None).

Definition placeView (vm : gmap string View) (kservice : client.Service.t)
  : gmap string View :=
  <[serviceKey kservice := serviceView kservice]> vm.

(** Native objects that compete for the same entry of the service map
    agree on what the entry shows. Two services with the same key: the same
    name and version labels. *)
Definition servicesAgree (services : list client.Service.t) : Prop :=
  Forall (λ s1, Forall (λ s2,
    serviceKey s1 = serviceKey s2 → serviceView s1 = serviceView s2)
    services) services.

(** Two deployments with a [name] annotation and the same key: the same
    name and version labels, the same name and version annotations, and the
    same status of the first condition. *)
Definition sameOutcome (d1 d2 : client.Deployment.t) : Prop :=
  labelOf (client.Deployment.Metadata d1) "name" =
    labelOf (client.Deployment.Metadata d2) "name" ∧
  labelOf (client.Deployment.Metadata d1) "version" =
    labelOf (client.Deployment.Metadata d2) "version" ∧
  annotationOf (client.Deployment.Metadata d1) "name" =
    annotationOf (client.Deployment.Metadata d2) "name" ∧
  annotationOf (client.Deployment.Metadata d1) "version" =
    annotationOf (client.Deployment.Metadata d2) "version" ∧
  deploymentStatus d1 = deploymentStatus d2.

Definition deploymentsAgree (deployments : list client.Deployment.t) : Prop :=
  Forall (λ d1, Forall (λ d2,
    managed d1 → managed d2 → deploymentKey d1 = deploymentKey d2 →
    sameOutcome d1 d2) deployments) deployments.

(** Two pods with a container status and the same name and version labels:
    the same derived status. *)
Definition podsAgree (pods : list client.Pod.t) : Prop :=
  Forall (λ p1, Forall (λ p2,
    hasContainers p1 → hasContainers p2 → podKey p1 = podKey p2 →
    podStatus p1 = podStatus p2) pods) pods.

#[global] Instance sameOutcome_dec d1 d2 : Decision (sameOutcome d1 d2).
Proof. unfold sameOutcome. apply _. Defined.

#[global] Instance servicesAgree_dec services : Decision (servicesAgree services).
Proof. unfold servicesAgree. apply _. Defined.

#[global] Instance deploymentsAgree_dec deployments :
  Decision (deploymentsAgree deployments).
Proof. unfold deploymentsAgree. apply _. Defined.

#[global] Instance podsAgree_dec pods : Decision (podsAgree pods).
Proof. unfold podsAgree. apply _. Defined.

(** The kinds that the dispatcher knows. *)
Definition knownKinds : list string :=
  [runtime.TypeNamespace; runtime.TypeNetworkPolicy; runtime.TypeService].

(** ** Concrete environments and objects *)

(** The same environment, in which every creation of a namespace succeeds. *)
Definition namespaceCreateSucceeds (E : Env) : Env :=
  {| SerializeResourceName := SerializeResourceName E;
     Format := Format E;
     NewNetworkPolicy := NewNetworkPolicy E;
     unixNow := unixNow E;
     listNamespaces := listNamespaces E;
     getServices := getServices E;
     getDeployments := getDeployments E;
     getPods := getPods E;
     perform := λ h c,
       match c with
       | ClientCreateNamespace _ _ => None
       | _ => perform E h c
       end;
     readLogs := readLogs E;
     streamLogs := streamLogs E |}.

(** The names of the namespaces that the calls made so far have created. *)
Fixpoint createdNamespaces (h : list call) : list string :=
  match h with
  | [] => []
  | ClientCreateNamespace _ name :: rest => name :: createdNamespaces rest
  | _ :: rest => createdNamespaces rest
  end.

(** A small cluster: it starts with the namespace [default] and no
    workload, remembers the namespaces it is asked to create and refuses to
    create one twice; every other call succeeds. Names are taken to be
    valid already, so that serializing them changes nothing. *)
Definition clusterOf (services : list client.Service.t)
    (deployments : list client.Deployment.t) (pods : list client.Pod.t) : Env :=
  {| SerializeResourceName := λ name, name;
     Format := λ name, name;
     NewNetworkPolicy := λ name namespace labels,
       Ok (runtime.NetworkPolicy.mk name namespace labels);
     unixNow := λ _, 0%Z;
     listNamespaces := λ h,
       Ok (Some (namespaceNamed "default" :: (namespaceNamed <$> createdNamespaces h)));
     getServices := λ _ _ _, Ok services;
     getDeployments := λ _ _ _, Ok deployments;
     getPods := λ _ _ _, Ok pods;
     perform := λ h c,
       match c with
       | ClientCreateNamespace _ name =>
         if bool_decide (name ∈ "default" :: createdNamespaces h)
         then Some (Upstream ("namespaces " +:+ name +:+ " already exists"))
         else None
       | _ => None
       end;
     readLogs := λ _ _ _, Ok [];
     streamLogs := λ _ _ _, Ok kubeStream.make |}.

Definition cluster : Env := clusterOf [] [] [].

(** A cluster whose list of namespaces comes back without items. *)
Definition bare : Env :=
  {| SerializeResourceName := SerializeResourceName cluster;
     Format := Format cluster;
     NewNetworkPolicy := NewNetworkPolicy cluster;
     unixNow := unixNow cluster;
     listNamespaces := λ _, Ok None;
     getServices := getServices cluster;
     getDeployments := getDeployments cluster;
     getPods := getPods cluster;
     perform := λ _ _, None;
     readLogs := readLogs cluster;
     streamLogs := streamLogs cluster |}.

(** The runtime that [NewRuntime] builds, and the state before any call. *)
Definition newRuntime : kubernetes.t :=
  kubernetes.mk false (Options.mk "service" EmptyString EmptyString) false None.

Definition idle : state := mkState newRuntime [].

Definition inNamespace (namespace : string) : CreateOptions.t → CreateOptions.t :=
  λ o, CreateOptions.mk namespace (CreateOptions.Type_ o)
         (CreateOptions.Image o) (CreateOptions.Secrets o).

Definition api_v1 : runtime.Service.t :=
  runtime.Service.mk "api" "v1" EmptyString ∅ None.

(** Native objects labelled with a name and a version. *)
Definition labelled (name version : string) (annotations : gmap string string)
  : client.Metadata.t :=
  client.Metadata.mk name "default"
    (<["name" := name]> (<["version" := version]> ∅)) annotations.

Definition nativeService (name version : string) : client.Service.t :=
  client.Service.mk (labelled name version ∅)
    (client.ServiceSpec.mk "10.0.0.1" [client.ServicePort.mk 8080]).

Definition portless (name version : string) : client.Service.t :=
  client.Service.mk (labelled name version ∅) (client.ServiceSpec.mk "10.0.0.1" []).

Definition deploymentOf (name version annotatedVersion condition : string)
  : client.Deployment.t :=
  client.Deployment.mk
    (labelled name version
       (<["name" := name]> (<["version" := annotatedVersion]> ∅)))
    ∅ [client.DeploymentCondition.mk condition "2020-01-01T00:00:00Z"].

(** A deployment that the adapter did not write: no [name] annotation. *)
Definition foreignDeployment (name version : string) : client.Deployment.t :=
  client.Deployment.mk (labelled name version ∅) ∅
    [client.DeploymentCondition.mk "Available" "2020-01-01T00:00:00Z"].

Definition waitingPod (name version : string) : client.Pod.t :=
  client.Pod.mk (labelled name version ∅) "Pending"
    [client.ContainerStatus.mk
       (client.ContainerState.mk None None (Some (client.Condition.mk EmptyString)))].

Definition runningPod (name version : string) : client.Pod.t :=
  client.Pod.mk (labelled name version ∅) "Running"
    [client.ContainerStatus.mk
       (client.ContainerState.mk
          (Some (client.Condition.mk "2020-01-01T00:00:05Z")) None None)].

(** A second instance of the same workload, started later. *)
Definition replicaPod (name version : string) : client.Pod.t :=
  client.Pod.mk (labelled name version ∅) "Running"
    [client.ContainerStatus.mk
       (client.ContainerState.mk
          (Some (client.Condition.mk "2020-01-01T00:00:09Z")) None None)].

(** The service map of a correlation that returns. *)
Definition joined (services : list client.Service.t)
    (deployments : list client.Deployment.t) (pods : list client.Pod.t)
  : gmap string service.t :=
  match correlateMap services deployments pods with
  | Returns svcMap => svcMap
  | _ => ∅
  end.

(** ** The rest of the runtime: Read, Init, Start, Stop *)

(** Modelled from the spec: [runtime.ReadOptions], with the fields that
    [Read] reads. *)
Module ReadOptions.
Record t := mk {
  Service : string;
  Version : string;
  Type_ : string;
  Namespace : string
}.
End ReadOptions.

(** The labels that [Read] selects with. *)
Definition readLabels (E : Env) (options : ReadOptions.t) : gmap string string :=
  let labels : gmap string string := ∅ in
  let labels :=
    if nonEmpty (ReadOptions.Service options)
    then <["name" := Format E (ReadOptions.Service options)]> labels else labels in
  let labels :=
    if nonEmpty (ReadOptions.Version options)
    then <["version" := Format E (ReadOptions.Version options)]> labels
    else labels in
  if nonEmpty (ReadOptions.Type_ options)
  then <["micro" := ReadOptions.Type_ options]> labels else labels.

Definition Read (E : Env) (opts : list (ReadOptions.t → ReadOptions.t))
  : M (answer (list runtime.Service.t)) :=
  locking (
    let options := applyOptions opts
      (ReadOptions.mk EmptyString EmptyString EmptyString client.DefaultNamespace) in
    found ← getService E (readLabels E options) (ReadOptions.Namespace options);
    match found with
    | Fails e => ret (Fails e)
    | Ok srvs => ret (Ok (service.Service <$> srvs))
    end).

Definition setRunning (b : bool) (rt : kubernetes.t) : kubernetes.t :=
  kubernetes.mk (kubernetes.locked rt) (kubernetes.options rt) b
    (kubernetes.namespaces rt).

Definition setOptions (o : Options.t) (rt : kubernetes.t) : kubernetes.t :=
  kubernetes.mk (kubernetes.locked rt) o (kubernetes.running rt)
    (kubernetes.namespaces rt).

Definition Init (opts : list (Options.t → Options.t)) : M (option error) :=
  locking (
    rt ← getRuntime;
    _ ← putRuntime (setOptions (applyOptions opts (kubernetes.options rt)) rt);
    ret None).

Definition Start : M (option error) :=
  locking (
    rt ← getRuntime;
    if kubernetes.running rt then ret None
    else _ ← putRuntime (setRunning true rt); ret None).

Definition Stop : M (option error) :=
  locking (
    rt ← getRuntime;
    if negb (kubernetes.running rt) then ret None
    else _ ← putRuntime (setRunning false rt); ret None).

(** [NewRuntime(opts...)], without the client it builds. *)
Definition NewRuntime (opts : list (Options.t → Options.t)) : kubernetes.t :=
  kubernetes.mk false
    (applyOptions opts (Options.mk "service" EmptyString EmptyString)) false None.

(** A call of one of the three methods that only touch the runtime. *)
Inductive lifecycle :=
| DoInit (opts : list (Options.t → Options.t))
| DoStart
| DoStop.

Definition runLifecycle (op : lifecycle) : M (option error) :=
  match op with
  | DoInit opts => Init opts
  | DoStart => Start
  | DoStop => Stop
  end.

(** Calls one after the other, as long as they return. *)
Fixpoint sequence (ops : list lifecycle) : M (list (option error)) :=
  match ops with
  | [] => ret []
  | op :: rest =>
    r ← runLifecycle op;
    rs ← sequence rest;
    ret (r :: rs)
  end.

(** ** Notions used to state what a call does *)

(** The calls that a computation adds to the history. *)
Definition newCalls {A} (m : M A) (w : state) : list call :=
  drop (length (calls w)) (calls (snd (m w))).

Definition isNamespaceCall (c : call) : bool :=
  match c with
  | ListNamespaces | ClientCreateNamespace _ _ => true
  | _ => false
  end.

Definition isStart (c : call) : bool :=
  match c with
  | serviceStart _ _ _ => true
  | _ => false
  end.

Definition isSecretCreation (c : call) : bool :=
  match c with
  | ClientCreateSecret _ _ _ => true
  | _ => false
  end.

(** The names in the namespace cache. *)
Definition cachedNames (cache : list client.Namespace.t) : list string :=
  (λ n, client.Metadata.Name (client.Namespace.Metadata n)) <$> cache.

(** What [Delete] makes of the error of [service.Stop]. *)
Definition normalized (err : option error) : option error :=
  match err with
  | Some e => if decide (e = apiErrNotFound) then Some ErrNotFound else Some e
  | None => None
  end.

(** ** More concrete environments and states *)

(** A cluster that refuses to create namespaces. *)
Definition forbidding : Env :=
  {| SerializeResourceName := SerializeResourceName cluster;
     Format := Format cluster;
     NewNetworkPolicy := NewNetworkPolicy cluster;
     unixNow := unixNow cluster;
     listNamespaces := listNamespaces cluster;
     getServices := getServices cluster;
     getDeployments := getDeployments cluster;
     getPods := getPods cluster;
     perform := λ _ c,
       match c with
       | ClientCreateNamespace _ _ => Some (Upstream "namespaces is forbidden")
       | _ => None
       end;
     readLogs := readLogs cluster;
     streamLogs := streamLogs cluster |}.

(** A cluster whose lists all fail and whose other calls succeed. *)
Definition unreachable : Env :=
  {| SerializeResourceName := SerializeResourceName cluster;
     Format := Format cluster;
     NewNetworkPolicy := NewNetworkPolicy cluster;
     unixNow := unixNow cluster;
     listNamespaces := λ _, Fails (Upstream "connection refused");
     getServices := λ _ _ _, Fails (Upstream "connection refused");
     getDeployments := λ _ _ _, Fails (Upstream "connection refused");
     getPods := λ _ _ _, Fails (Upstream "connection refused");
     perform := λ _ _, None;
     readLogs := readLogs cluster;
     streamLogs := streamLogs cluster |}.

(** The cluster, with a [NewNetworkPolicy] that refuses every policy. *)
Definition policyless : Env :=
  {| SerializeResourceName := SerializeResourceName cluster;
     Format := Format cluster;
     NewNetworkPolicy := λ _ _ _, Fails ErrInvalidResource;
     unixNow := unixNow cluster;
     listNamespaces := listNamespaces cluster;
     getServices := getServices cluster;
     getDeployments := getDeployments cluster;
     getPods := getPods cluster;
     perform := perform cluster;
     readLogs := readLogs cluster;
     streamLogs := streamLogs cluster |}.

(** A runtime whose cache holds [default] and [ns1], before any call. *)
Definition warm : state :=
  mkState
    (kubernetes.mk false (Options.mk "service" EmptyString EmptyString) false
       (Some [namespaceNamed "default"; namespaceNamed "ns1"]))
    [].

(** ** The stages of Create on a service *)

(** The block of [Create] that makes sure the namespace exists; its value
    is the error that [Create] returns at once, or nil. *)
Definition ensureNamespace (E : Env) (namespace : string) : M (option error) :=
  if decide (namespace ≠ "default") then
    found ← namespaceExists E namespace;
    match found with
    | (false, None) => autoCreateNamespace E namespace
    | (true, None) => ret None
    | (_, Some e) => ret (Some e)
    end
  else ret None.

(** The end of [Create]: the credentials when secrets are given, then the
    workload. *)
Definition startWorkload (E : Env) (s : runtime.Service.t)
    (options : CreateOptions.t) : M (option error) :=
  created ←
    (if (0 <? size (CreateOptions.Secrets options))%nat
     then createCredentials E s options
     else ret None);
  match created with
  | Some e => ret (Some e)
  | None => invoke E (serviceStart s options (CreateOptions.Namespace options))
  end.

(** The options of a [Create]: those of the call over the defaults, the
    type and the image of the runtime where the call leaves them empty. *)
Definition createOptions (rt : kubernetes.t) (s : runtime.Service.t)
    (opts : list (CreateOptions.t → CreateOptions.t)) : CreateOptions.t :=
  let options := applyOptions opts
    (CreateOptions.mk client.DefaultNamespace
       (Options.Type_ (kubernetes.options rt)) EmptyString ∅) in
  let options :=
    if nonEmpty (CreateOptions.Type_ options) then options
    else CreateOptions.setType (Options.Type_ (kubernetes.options rt)) options in
  CreateOptions.setImage (getImage rt s options) options.

(** The service of a [Create]: its source is that of the runtime when it
    has none. *)
Definition createService (rt : kubernetes.t) (s : runtime.Service.t)
  : runtime.Service.t :=
  if nonEmpty (runtime.Service.Source s) then s
  else runtime.Service.mk (runtime.Service.Name s) (runtime.Service.Version s)
         (Options.Source (kubernetes.options rt))
         (runtime.Service.Metadata s) (runtime.Service.Status s).

(** What a call may do to the runtime: the lock, the options and the
    running flag are as before, the cache is populated or grows at its
    end. *)
Definition keepsRuntime (rt rt' : kubernetes.t) : Prop :=
  kubernetes.locked rt' = kubernetes.locked rt ∧
  kubernetes.options rt' = kubernetes.options rt ∧
  kubernetes.running rt' = kubernetes.running rt ∧
  ∀ cache, kubernetes.namespaces rt = Some cache →
           ∃ extra, kubernetes.namespaces rt' = Some (cache ++ extra).

(** The secret that [createCredentials] builds, and its call. *)
Definition credentialsSecret (E : Env) (s : runtime.Service.t)
    (options : CreateOptions.t) : client.Secret.t :=
  client.Secret.mk "Opaque" (EncodeToString <$> CreateOptions.Secrets options)
    (client.Metadata.mk (credentialsName E s) (CreateOptions.Namespace options) ∅ ∅).

Definition credentialsCall (E : Env) (s : runtime.Service.t)
    (options : CreateOptions.t) : call :=
  ClientCreateSecret (credentialsName E s) (credentialsSecret E s options)
    (CreateOptions.Namespace options).

Definition startCall (s : runtime.Service.t) (options : CreateOptions.t) : call :=
  serviceStart s options (CreateOptions.Namespace options).

(** [k.Unlock()] on a state. *)
Definition unlocked (w : state) : state :=
  mkState (kubernetes.setLocked false (k w)) (calls w).

Definition held (w : state) : state :=
  mkState (kubernetes.setLocked true (k w)) (calls w).

(** The option that gives a [Create] one secret. *)
Definition withToken : CreateOptions.t → CreateOptions.t :=
  λ o, CreateOptions.mk (CreateOptions.Namespace o) (CreateOptions.Type_ o)
         (CreateOptions.Image o) {["token" := "hello"]}.

(** *** The trace of a method *)

(** The error that the cluster gave to call [c] made after the calls [h]:
    [None] when the call succeeded. *)
Definition outcome (E : Env) (h : list call) (c : call) : option error :=
  let failure {A} (a : answer A) : option error :=
    match a with Ok _ => None | Fails e => Some e end in
  match c with
  | ListNamespaces => failure (listNamespaces E h)
  | GetServices namespace labels => failure (getServices E h namespace labels)
  | GetDeployments namespace labels => failure (getDeployments E h namespace labels)
  | GetPods namespace labels => failure (getPods E h namespace labels)
  | logRead name options => failure (readLogs E h name options)
  | logStream name options => failure (streamLogs E h name options)
  | _ => perform E h c
  end.

(** The outcomes of the calls [new] made one after the other after [h]. *)
Fixpoint outcomes (E : Env) (h new : list call) : list (option error) :=
  match new with
  | [] => []
  | c :: rest => outcome E h c :: outcomes E (h ++ [c]) rest
  end.

(** The outcomes of a run that returned [r] having stopped at its first
    failing call: every call succeeded, but for the last when [r] is an
    error, which is then the error of that call. *)
Definition stoppedAtFirstFailure (n : nat) (r : option error)
  : list (option error) :=
  match r with
  | None => replicate n None
  | Some e => replicate (n - 1) None ++ [Some e]
  end.

(** The three lists that [getService] reads. *)
Definition listCalls (namespace : string) (labels : gmap string string)
  : list call :=
  [GetServices namespace labels; GetDeployments namespace labels;
   GetPods namespace labels].

(** What the loop of [Update] guarantees about a call it makes for the
    incoming service [s]: it is an update in the namespace of the options, of
    a logical service whose deployment has the metadata of [s] among its
    annotations and a stamped template. *)
Definition carries (s : runtime.Service.t) (namespace : string) (c : call)
  : Prop :=
  ∃ svc kdeploy,
    c = serviceUpdate svc namespace ∧
    service.kdeploy svc = Some kdeploy ∧
    runtime.Service.Metadata s ⊆
      client.Metadata.Annotations (client.Deployment.Metadata kdeploy) ∧
    is_Some (client.Deployment.TemplateAnnotations kdeploy !! "updated").

(** The cluster with the given workload, where nothing may be updated. *)
Definition frozen (services : list client.Service.t)
    (deployments : list client.Deployment.t) (pods : list client.Pod.t) : Env :=
  let E := clusterOf services deployments pods in
  {| SerializeResourceName := SerializeResourceName E;
     Format := Format E;
     NewNetworkPolicy := NewNetworkPolicy E;
     unixNow := unixNow E;
     listNamespaces := listNamespaces E;
     getServices := getServices E;
     getDeployments := getDeployments E;
     getPods := getPods E;
     perform := λ h c,
       match c with
       | serviceUpdate _ _ => Some (Upstream "deployments is forbidden")
       | _ => perform E h c
       end;
     readLogs := readLogs E;
     streamLogs := streamLogs E |}.

Definition updateNamespace (opts : list (UpdateOptions.t → UpdateOptions.t))
  : string :=
  UpdateOptions.Namespace (applyOptions opts (UpdateOptions.mk client.DefaultNamespace)).

(** *** The lifecycle as folds *)

(** The running flag after the calls [ops]: what the last [Start] or [Stop]
    among them set, the flag before them when there is none. *)
Definition runningAfter (ops : list lifecycle) (running : bool) : bool :=
  foldl (λ b op, match op with
                 | DoInit _ => b
                 | DoStart => true
                 | DoStop => false
                 end) running ops.

(** The options after the calls [ops]: the options of every [Init] among
    them, applied in order. *)
Definition optionsAfter (ops : list lifecycle) (o : Options.t) : Options.t :=
  foldl (λ o op, match op with
                 | DoInit opts => applyOptions opts o
                 | _ => o
                 end) o ops.

Definition readOptions (opts : list (ReadOptions.t → ReadOptions.t))
  : ReadOptions.t :=
  applyOptions opts
    (ReadOptions.mk EmptyString EmptyString EmptyString client.DefaultNamespace).

Definition logsOptions (opts : list (LogsOptions.t → LogsOptions.t))
  : LogsOptions.t :=
  applyOptions opts (LogsOptions.mk 0 false).

(** The call that [Logs] makes for the service named [name]. *)
Definition logsCall (name : string) (klo : LogsOptions.t) : call :=
  if LogsOptions.Stream klo then logStream name klo else logRead name klo.

(** * Properties *)

(** ** The status transformer *)





Lemma ToLower_length s : String.length (ToLower s) = String.length s.
Proof. induction s; simpl; congruence. Qed.




(** ** The log stream *)

Lemma stops_closed n k :
  kubeStream.locked k = false → kubeStream.stop k = ClosedChan →
  kubeStream.stops n k = (repeat (Returns None) n, k, []).
Proof.
  intros Hl Hs. induction n as [|n IH]; simpl; [done|].
  unfold kubeStream.Stop. rewrite Hl, Hs. simpl. by rewrite IH.
Qed.

(** C8: on a stream whose two channels were made and whose mutex is free,
    the first [Stop] closes the stop channel and the stream channel, each
    once, and returns nil; a [Stop] after it returns nil and changes
    nothing, however many follow; any number of [Stop]s in sequence all
    return nil, none panics, and together they close each channel exactly
    once. *)
Theorem Stop_idempotent (k : kubeStream.t) (n : nat) :
  kubeStream.locked k = false →
  kubeStream.stop k = OpenChan →
  kubeStream.stream k = OpenChan →
  let stopped := kubeStream.mk ClosedChan false ClosedChan (kubeStream.err k) in
  kubeStream.Stop k = (Returns None, stopped, [CloseStop; CloseStream]) ∧
  kubeStream.Stop stopped = (Returns None, stopped, []) ∧
  kubeStream.stops n stopped = (repeat (Returns None) n, stopped, []) ∧
  kubeStream.stops (S n) k =
    (repeat (Returns None) (S n), stopped, [CloseStop; CloseStream]).
Proof.
  intros Hl Hs Hc stopped.
  assert (kubeStream.Stop k = (Returns None, stopped, [CloseStop; CloseStream]))
    as H1 by (unfold kubeStream.Stop; rewrite Hl, Hs, Hc; reflexivity).
  split_and!; [done|done|by apply stops_closed|].
  simpl. rewrite H1. by rewrite (stops_closed n stopped).
Qed.

Lemma Stop_idempotent_witness :
  kubeStream.stops 3 kubeStream.make =
    ([Returns None; Returns None; Returns None],
     kubeStream.mk ClosedChan false ClosedChan None, [CloseStop; CloseStream]).
Proof.
  exact (proj2 (proj2 (proj2
    (Stop_idempotent kubeStream.make 2 eq_refl eq_refl eq_refl)))).
Defined.

(** ** Credentials *)

(** The length of a base64 text: four characters for every three bytes,
    the last group padded. *)
Lemma encodeBytes_length src :
  String.length (encodeBytes src) = 4 * ((length src + 2) / 3).
Proof.
  assert (∀ n src, length src < n →
            String.length (encodeBytes src) = 4 * ((length src + 2) / 3)) as H.
  { clear src. induction n as [|n IH]; intros src Hn; [lia|].
    destruct src as [|a [|b [|c rest]]]; try reflexivity.
    change (encodeBytes (a :: b :: c :: rest))
      with (String (sextet (N.shiftr a 2))
        (String (sextet (N.lor (N.shiftl (N.land a 3) 4) (N.shiftr b 4)))
          (String (sextet (N.lor (N.shiftl (N.land b 15) 2) (N.shiftr c 6)))
            (String (sextet (N.land c 63)) (encodeBytes rest))))).
    cbn [String.length length]. rewrite IH by (simpl in Hn; lia).
    replace (S (S (S (length rest))) + 2) with ((length rest + 2) + 1 * 3) by lia.
    rewrite Nat.div_add by lia. lia. }
  apply (H (S (length src))). lia.
Qed.

(** The test vectors of RFC 4648. *)
Example EncodeToString_rfc4648 :
  EncodeToString EmptyString = EmptyString ∧
  EncodeToString "f" = "Zg==" ∧
  EncodeToString "fo" = "Zm8=" ∧
  EncodeToString "foo" = "Zm9v" ∧
  EncodeToString "foob" = "Zm9vYg==" ∧
  EncodeToString "fooba" = "Zm9vYmE=" ∧
  EncodeToString "foobar" = "Zm9vYmFy".
Proof. by vm_compute. Qed.

Lemma EncodeToString_length value :
  String.length (EncodeToString value) = 4 * ((String.length value + 2) / 3).
Proof.
  unfold EncodeToString. rewrite encodeBytes_length. do 3 f_equal.
  induction value; simpl; congruence.
Qed.

(** C7: [createCredentials] makes one call, the creation of a secret in the
    namespace of the options; the secret is of type Opaque, its name and
    the name of the resource are the serialized
    [<name>-<version>-credentials], and its data give for each key of the
    secrets the standard base64 text of the value, and nothing else. The
    error of the call is returned. *)
Theorem createCredentials_secret (E : Env) (service : runtime.Service.t)
    (options : CreateOptions.t) (w : state) :
  ∃ secret : client.Secret.t,
    let name := SerializeResourceName E
      (runtime.Service.Name service +:+ "-" +:+
       runtime.Service.Version service +:+ "-credentials") in
    let c := ClientCreateSecret name secret (CreateOptions.Namespace options) in
    createCredentials E service options w =
      (Returns (perform E (calls w) c), mkState (k w) (calls w ++ [c])) ∧
    credentialsName E service = name ∧
    client.Secret.Type_ secret = "Opaque" ∧
    client.Metadata.Name (client.Secret.Metadata secret) = name ∧
    client.Metadata.Namespace (client.Secret.Metadata secret) =
      CreateOptions.Namespace options ∧
    (∀ key, client.Secret.Data secret !! key =
              EncodeToString <$> CreateOptions.Secrets options !! key) ∧
    size (client.Secret.Data secret) = size (CreateOptions.Secrets options).
Proof.
  eexists. cbv zeta. split_and!; [reflexivity|reflexivity|reflexivity|reflexivity|reflexivity|..].
  - intros key. simpl. apply lookup_fmap.
  - simpl. apply map_size_fmap.
Qed.

(** The secret of service [api], version [v1], with one credential. *)
Example createCredentials_api_v1 :
  createCredentials cluster api_v1
    (CreateOptions.mk "ns1" "service" EmptyString {["token" := "hello"]}) idle =
  (Returns None,
   mkState newRuntime
     [ClientCreateSecret "api-v1-credentials"
        (client.Secret.mk "Opaque" {["token" := "aGVsbG8="]}
           (client.Metadata.mk "api-v1-credentials" "ns1" ∅ ∅))
        "ns1"]).
Proof. by vm_compute. Qed.

(** ** The dispatcher *)

Lemma unlocked_eta (w : state) :
  kubernetes.locked (k w) = false →
  mkState (kubernetes.setLocked false (kubernetes.setLocked true (k w))) (calls w) = w.
Proof. destruct w as [[l o r n] cs]; simpl. by intros ->. Qed.

(** A [Create] on a network policy does not reach [autoCreateNamespace]:
    unfolding the mutual recursion once loses nothing. *)
Lemma Create_network_policy_nested auto E p opts w :
  CreateWith auto E (runtime.OfNetworkPolicy p) opts w =
  Create E (runtime.OfNetworkPolicy p) opts w.
Proof. reflexivity. Qed.

(** A [Create] that is called while the lock is held never returns. *)
Lemma CreateWith_blocks auto E r opts w :
  kubernetes.locked (k w) = true → CreateWith auto E r opts w = (Blocks, w).
Proof. intros H. unfold CreateWith, locking, Lock. by rewrite H. Qed.

(** Unfolds the operations of the state monad. *)
Ltac run_monad :=
  repeat (progress unfold mbind, M_bind, bind, mret, M_ret, ret, invoke, history,
            record, getRuntime, putRuntime, lift, panicWith);
  simpl.

Ltac run_dispatch :=
  unfold Create, CreateWith, Update, Delete, Logs, locking, Lock, Unlock;
  simpl;
  repeat (case_decide; try congruence); simpl.

(** C6, the claim as stated fails: a resource that declares the kind
    Namespace and is not a namespace is accepted by [Update] and by [Logs],
    and one that declares the kind NetworkPolicy and is not a network policy
    is accepted by [Logs]; these branches return nil without the
    assertion. *)
Lemma downcast_not_made_by_noop_branches :
  let r := runtime.Foreign "namespace" in
  let r' := runtime.Foreign "networkpolicy" in
  runtime.Type_ r = runtime.TypeNamespace ∧ runtime.asNamespace r = None ∧
  runtime.Type_ r' = runtime.TypeNetworkPolicy ∧ runtime.asNetworkPolicy r' = None ∧
  Update cluster r [] idle = (Returns None, idle) ∧
  Logs cluster r [] idle = (Returns (None, None), idle) ∧
  Logs cluster r' [] idle = (Returns (None, None), idle).
Proof. by vm_compute. Qed.

(** C6, amended: while the lock is free, a resource whose declared kind is
    not Namespace, NetworkPolicy or Service gets [ErrInvalidResource] from
    [Create], [Update], [Delete] and [Logs], and no call is made. A resource
    of a known kind that is not of the type of its kind gets the same error
    from every branch that makes the assertion: the three of [Create] and of
    [Delete], NetworkPolicy and Service of [Update], Service of [Logs]. The
    branches Namespace of [Update] and Namespace and NetworkPolicy of [Logs]
    make no assertion and return nil. *)
Theorem invalid_resource (E : Env) (r : runtime.Resource) (w : state)
    (copts : list (CreateOptions.t → CreateOptions.t))
    (uopts : list (UpdateOptions.t → UpdateOptions.t))
    (dopts : list (DeleteOptions.t → DeleteOptions.t))
    (lopts : list (LogsOptions.t → LogsOptions.t)) :
  kubernetes.locked (k w) = false →
  (runtime.Type_ r ∉ knownKinds →
     Create E r copts w = (Returns (Some ErrInvalidResource), w) ∧
     Update E r uopts w = (Returns (Some ErrInvalidResource), w) ∧
     Delete E r dopts w = (Returns (Some ErrInvalidResource), w) ∧
     Logs E r lopts w = (Returns (None, Some ErrInvalidResource), w)) ∧
  (runtime.Type_ r = runtime.TypeNamespace → runtime.asNamespace r = None →
     Create E r copts w = (Returns (Some ErrInvalidResource), w) ∧
     Delete E r dopts w = (Returns (Some ErrInvalidResource), w) ∧
     Update E r uopts w = (Returns None, w) ∧
     Logs E r lopts w = (Returns (None, None), w)) ∧
  (runtime.Type_ r = runtime.TypeNetworkPolicy → runtime.asNetworkPolicy r = None →
     Create E r copts w = (Returns (Some ErrInvalidResource), w) ∧
     Update E r uopts w = (Returns (Some ErrInvalidResource), w) ∧
     Delete E r dopts w = (Returns (Some ErrInvalidResource), w) ∧
     Logs E r lopts w = (Returns (None, None), w)) ∧
  (runtime.Type_ r = runtime.TypeService → runtime.asService r = None →
     Create E r copts w = (Returns (Some ErrInvalidResource), w) ∧
     Update E r uopts w = (Returns (Some ErrInvalidResource), w) ∧
     Delete E r dopts w = (Returns (Some ErrInvalidResource), w) ∧
     Logs E r lopts w = (Returns (None, Some ErrInvalidResource), w)).
Proof.
  intros Hfree. pose proof (unlocked_eta w Hfree) as Heta.
  unfold knownKinds. rewrite !not_elem_of_cons.
  split_and!.
  - intros (? & ? & ? & _).
    split_and!; run_dispatch; rewrite ?Hfree; simpl;
      repeat (case_decide; try congruence); simpl; by rewrite ?Heta.
  - intros Hk Hd.
    split_and!; run_dispatch; rewrite ?Hfree; simpl;
      repeat (case_decide; try congruence); rewrite ?Hd; simpl; by rewrite ?Heta.
  - intros Hk Hd.
    assert (runtime.Type_ r ≠ runtime.TypeNamespace) by (by rewrite Hk).
    split_and!; run_dispatch; rewrite ?Hfree; simpl;
      repeat (case_decide; try congruence); rewrite ?Hd; simpl; by rewrite ?Heta.
  - intros Hk Hd.
    assert (runtime.Type_ r ≠ runtime.TypeNamespace) by (by rewrite Hk).
    assert (runtime.Type_ r ≠ runtime.TypeNetworkPolicy) by (by rewrite Hk).
    split_and!; run_dispatch; rewrite ?Hfree; simpl;
      repeat (case_decide; try congruence); rewrite ?Hd; simpl; by rewrite ?Heta.
Qed.

Lemma invalid_resource_witness :
  Create cluster (runtime.Foreign "job") [] idle =
    (Returns (Some ErrInvalidResource), idle) ∧
  Update cluster (runtime.Foreign "job") [] idle =
    (Returns (Some ErrInvalidResource), idle) ∧
  Delete cluster (runtime.Foreign "job") [] idle =
    (Returns (Some ErrInvalidResource), idle) ∧
  Logs cluster (runtime.Foreign "job") [] idle =
    (Returns (None, Some ErrInvalidResource), idle).
Proof.
  apply (proj1 (invalid_resource cluster (runtime.Foreign "job") idle [] [] [] []
                  eq_refl)).
  vm_compute. intros H.
  repeat (apply elem_of_cons in H as [H|H]; [discriminate H|]).
  by apply elem_of_nil in H.
Defined.

(** ** Namespace provisioning *)

(** C5: when the creation of the namespace fails with an error whose text
    contains [already exists], [autoCreateNamespace] goes on exactly as it
    does in the environment where that creation succeeds: same result, same
    cache, same calls; so the second creation of a namespace, which the
    cluster refuses, is not an error of this step. With a cache that is not
    populated the call returns nil after that one call. *)
Theorem autoCreateNamespace_already_exists (E : Env) (namespace : string)
    (w : state) (e : error) :
  perform E (calls w)
    (ClientCreateNamespace (namespaceNamed namespace) namespace) = Some e →
  Contains (Error_ e) "already exists" = true →
  autoCreateNamespace E namespace w =
    autoCreateNamespace (namespaceCreateSucceeds E) namespace w ∧
  (kubernetes.namespaces (k w) = None →
     autoCreateNamespace E namespace w =
       (Returns None,
        mkState (k w)
          (calls w ++ [ClientCreateNamespace (namespaceNamed namespace) namespace]))).
Proof.
  intros Hperf Hexists.
  unfold autoCreateNamespace, autoCreateNamespaceWith, namespaceNamed in *.
  destruct w as [[l o r c] cs]. simpl in *.
  unfold finishAutoCreate. run_monad.
  rewrite Hperf, Hexists. simpl.
  split; [|by intros ->].
  by destruct c.
Qed.

Lemma autoCreateNamespace_already_exists_witness :
  let w := snd (autoCreateNamespace cluster "ns1" idle) in
  autoCreateNamespace cluster "ns1" w =
    (Returns None,
     mkState newRuntime
       [ClientCreateNamespace (namespaceNamed "ns1") "ns1";
        ClientCreateNamespace (namespaceNamed "ns1") "ns1"]).
Proof.
  exact (proj2 (autoCreateNamespace_already_exists cluster "ns1"
                  (snd (autoCreateNamespace cluster "ns1" idle))
                  (Upstream "namespaces ns1 already exists")
                  eq_refl eq_refl) eq_refl).
Defined.

(** C2, what the code does instead: on a runtime whose cache is not yet
    populated, a [Create] of a service into a namespace other than
    [default] that the cluster does not list creates the namespace, and
    then never returns: [autoCreateNamespace] calls [Create] for the
    ingress policy while [Create] holds the lock of the runtime. The only
    calls made are the list and the creation of the namespace: no network
    policy is created and the workload is never started. *)
Theorem Create_service_blocks_on_policy (E : Env) (s : runtime.Service.t)
    (opts : list (CreateOptions.t → CreateOptions.t)) (w : state)
    (items : list client.Namespace.t) (networkPolicy : runtime.NetworkPolicy.t) :
  let rt := k w in
  let options := applyOptions opts
    (CreateOptions.mk client.DefaultNamespace
       (Options.Type_ (kubernetes.options rt)) EmptyString ∅) in
  let namespace := SerializeResourceName E (CreateOptions.Namespace options) in
  let ns := namespaceNamed namespace in
  kubernetes.locked rt = false →
  kubernetes.namespaces rt = None →
  namespace ≠ "default" →
  listNamespaces E (calls w) = Ok (Some items) →
  Forall (λ n, client.Metadata.Name (client.Namespace.Metadata n) ≠ namespace) items →
  perform E (calls w ++ [ListNamespaces]) (ClientCreateNamespace ns namespace) = None →
  NewNetworkPolicy E "ingress" namespace {["owner" := "micro"]} = Ok networkPolicy →
  Create E (runtime.OfService s) opts w =
    (Blocks,
     mkState
       (kubernetes.mk true (kubernetes.options rt) (kubernetes.running rt)
          (Some (items ++ [ns])))
       (calls w ++ [ListNamespaces; ClientCreateNamespace ns namespace])).
Proof.
  intros rt options namespace ns Hfree Hcache Hns Hlist Habsent Hcreate Hpolicy.
  assert (existsb
            (λ n, bool_decide
               (client.Metadata.Name (client.Namespace.Metadata n) = namespace))
            items = false) as Hex.
  { clear -Habsent. induction Habsent as [|n l Hn _ IH]; simpl; [done|].
    rewrite IH. by rewrite bool_decide_eq_false_2. }
  subst rt. destruct w as [[l o r c] cs]. simpl in *. subst l c.
  unfold Create, CreateWith, locking, Lock. simpl.
  unfold mbind, M_bind, bind. simpl.
  fold options.
  assert (CreateOptions.Namespace
            (if nonEmpty (CreateOptions.Type_ options) then options
             else CreateOptions.setType (Options.Type_ o) options)
          = CreateOptions.Namespace options) as ->
    by (by destruct (nonEmpty _)).
  fold namespace.
  destruct (decide (namespace ≠ "default")) as [_|]; [|done].
  unfold namespaceExists. simpl.
  unfold mbind, M_bind, bind. simpl.
  rewrite Hlist. simpl. rewrite Hex. simpl.
  unfold autoCreateNamespace, autoCreateNamespaceWith, invoke. simpl.
  unfold mbind, M_bind, bind. simpl.
  fold (namespaceNamed namespace). fold ns. rewrite Hcreate.
  unfold finishAutoCreate. simpl. unfold mbind, M_bind, bind. simpl.
  rewrite Hpolicy. unfold CreateNested. rewrite CreateWith_blocks by done.
  by rewrite <- app_assoc.
Qed.

Lemma Create_service_blocks_on_policy_witness :
  Create cluster (runtime.OfService api_v1) [inNamespace "ns1"] idle =
    (Blocks,
     mkState
       (kubernetes.mk true (Options.mk "service" EmptyString EmptyString) false
          (Some [namespaceNamed "default"; namespaceNamed "ns1"]))
       [ListNamespaces; ClientCreateNamespace (namespaceNamed "ns1") "ns1"]).
Proof.
  refine (Create_service_blocks_on_policy cluster api_v1 [inNamespace "ns1"] idle
            [namespaceNamed "default"]
            (runtime.NetworkPolicy.mk "ingress" "ns1" {["owner" := "micro"]})
            eq_refl eq_refl _ eq_refl _ eq_refl eq_refl).
  - vm_compute. discriminate.
  - repeat constructor. vm_compute. discriminate.
Defined.

(** Whatever the cluster answers, a [Create] of a service never makes the
    call that creates a network policy: where [autoCreateNamespace] gets to
    the policy, the inner [Create] waits for the lock that the outer one
    holds. *)
Lemma Create_service_never_creates_policy (E : Env) (s : runtime.Service.t)
    (opts : list (CreateOptions.t → CreateOptions.t)) (w : state) :
  kubernetes.locked (k w) = false →
  ∃ new, calls (snd (Create E (runtime.OfService s) opts w)) = calls w ++ new ∧
         Forall (λ c, ∀ p, c ≠ createNetworkPolicy p) new.
Proof.
  intros Hfree. destruct w as [[l o r c] cs]. simpl in *. subst l.
  unfold Create, CreateWith, locking, Lock. simpl.
  unfold namespaceExists, autoCreateNamespace, autoCreateNamespaceWith,
    finishAutoCreate, createCredentials, CreateNested, CreateWith, locking, Lock.
  run_monad.
  repeat (first [case_decide | case_match]; simpl in *; simplify_eq); simpl.
  all: rewrite <- ?app_assoc.
  all: try (exists []; split; [by rewrite app_nil_r|constructor]).
  all: eexists; split; [reflexivity|]; by repeat constructor.
Qed.

(** When the list of the namespaces comes back without items the cache
    stays nil, [autoCreateNamespace] skips the policy, and the workload is
    started in a namespace that has none. *)
Lemma Create_service_skips_policy :
  Create bare (runtime.OfService api_v1) [inNamespace "ns1"] idle =
    (Returns None,
     mkState newRuntime
       [ListNamespaces; ClientCreateNamespace (namespaceNamed "ns1") "ns1";
        serviceStart api_v1
          (CreateOptions.mk "ns1" "service" EmptyString ∅) "ns1"]).
Proof. reflexivity. Qed.

(** ** The correlation: the loop over the services *)

Lemma collectService_no_port m s :
  ¬ hasPort s → collectService m s = Panics IndexOutOfRange.
Proof.
  unfold hasPort, collectService. intros H.
  destruct (client.ServiceSpec.Ports (client.Service.Spec s)); [done|].
  exfalso. apply H. done.
Qed.

Lemma collectService_port s :
  hasPort s →
  ∃ srv, service.kdeploy srv = None ∧
         ∀ m, collectService m s = Returns (<[serviceKey s := srv]> m).
Proof.
  unfold hasPort, collectService, serviceKey, mapKey. intros H.
  destruct (client.ServiceSpec.Ports (client.Service.Spec s)) as [|port ?];
    [done|].
  eexists. split; [|intros m; reflexivity]. reflexivity.
Qed.

Lemma placed_port s :
  hasPort s →
  ∃ srv, service.kdeploy srv = None ∧ ∀ m, placed m s = <[serviceKey s := srv]> m.
Proof.
  intros H. destruct (collectService_port s H) as (srv & Hk & Hm).
  exists srv. split; [done|]. intros m. unfold placed. by rewrite Hm.
Qed.

Lemma rangeOver_collectService_returns l m :
  Forall hasPort l → rangeOver collectService l m = Returns (foldl placed m l).
Proof.
  intros H. revert m. induction H as [|s l Hs _ IH]; intros m; simpl; [done|].
  destruct (collectService_port s Hs) as (srv & _ & Hm).
  unfold placed at 2. rewrite Hm. simpl. apply IH.
Qed.

Lemma rangeOver_collectService_panics l m :
  Exists (λ s, ¬ hasPort s) l →
  rangeOver collectService l m = Panics IndexOutOfRange.
Proof.
  intros H. revert m. induction H as [s l Hs|s l _ IH]; intros m; simpl.
  - by rewrite collectService_no_port.
  - destruct (decide (hasPort s)) as [Hs|Hs].
    + destruct (collectService_port s Hs) as (srv & _ & Hm).
      rewrite Hm. simpl. apply IH.
    + by rewrite collectService_no_port.
Qed.

(** The loop over the services either returns or panics on an index. *)
Lemma rangeOver_collectService_cases l m :
  (Forall hasPort l ∧ rangeOver collectService l m = Returns (foldl placed m l)) ∨
  (Exists (λ s, ¬ hasPort s) l ∧
   rangeOver collectService l m = Panics IndexOutOfRange).
Proof.
  destruct (decide (Forall hasPort l)) as [H|H].
  - left. split; [done|]. by apply rangeOver_collectService_returns.
  - right. apply not_Forall_Exists in H; [|apply _].
    split; [done|]. by apply rangeOver_collectService_panics.
Qed.

Lemma foldl_placed_kdeploy l m :
  Forall hasPort l →
  (∀ k svc, m !! k = Some svc → service.kdeploy svc = None) →
  ∀ k svc, foldl placed m l !! k = Some svc → service.kdeploy svc = None.
Proof.
  intros H. revert m. induction H as [|s l Hs _ IH]; intros m Hm; simpl; [done|].
  apply IH. intros k svc.
  destruct (placed_port s Hs) as (srv & Hk & ->).
  rewrite lookup_insert. case_decide; [|by apply Hm]. by intros [= <-].
Qed.

(** ** The correlation: the loop over the deployments *)

Lemma collectDeployment_unmanaged pods m d :
  ¬ managed d → collectDeployment pods m d = m.
Proof.
  unfold managed, collectDeployment. cbv zeta. intros H.
  destruct (m !! _); [|done].
  destruct (client.Metadata.Annotations _ !! "name") eqn:Hn; [|done].
  exfalso. apply H. rewrite ?Hn. by eexists.
Qed.

Lemma collectDeployment_missing pods m d :
  m !! deploymentKey d = None → collectDeployment pods m d = m.
Proof. unfold deploymentKey, collectDeployment. cbv zeta. by intros ->. Qed.

Lemma collectDeployment_managed pods m d svc :
  managed d → m !! deploymentKey d = Some svc →
  collectDeployment pods m d = <[deploymentKey d := applyDeployment pods d svc]> m.
Proof.
  unfold managed, deploymentKey, collectDeployment. cbv zeta.
  intros [v Hv] ->. by rewrite Hv.
Qed.

Lemma collectDeployment_other pods m d key :
  ¬ managedFor key d → collectDeployment pods m d !! key = m !! key.
Proof.
  intros H. destruct (decide (managed d)) as [Hm|Hm];
    [|by rewrite collectDeployment_unmanaged].
  destruct (m !! deploymentKey d) as [svc|] eqn:Hl;
    [|by rewrite collectDeployment_missing].
  rewrite (collectDeployment_managed pods m d svc) by done.
  apply lookup_insert_ne. intros Hk. apply H. by split.
Qed.

Lemma collectDeployment_for pods m d key svc :
  managedFor key d → m !! key = Some svc →
  collectDeployment pods m d !! key = Some (applyDeployment pods d svc).
Proof.
  intros [<- Hm] Hl. fold (deploymentKey d) in *.
  rewrite (collectDeployment_managed pods m d svc) by done.
  apply lookup_insert_eq.
Qed.

Lemma foldl_collectDeployment_untouched pods l m key :
  Forall (λ d, ¬ managedFor key d) l →
  foldl (collectDeployment pods) m l !! key = m !! key.
Proof.
  intros H. revert m. induction H as [|d l Hd _ IH]; intros m; simpl; [done|].
  rewrite IH. by apply collectDeployment_other.
Qed.

Lemma foldl_collectDeployment_is_Some pods l m key :
  is_Some (m !! key) → is_Some (foldl (collectDeployment pods) m l !! key).
Proof.
  revert m. induction l as [|d l IH]; intros m Hm; simpl; [done|].
  apply IH. destruct (decide (managedFor key d)) as [Hd|Hd].
  - destruct Hm as [svc Hsvc]. by rewrite (collectDeployment_for pods m d key svc).
  - by rewrite collectDeployment_other.
Qed.

Lemma foldl_collectDeployment_None pods l m key :
  m !! key = None → foldl (collectDeployment pods) m l !! key = None.
Proof.
  revert m. induction l as [|d l IH]; intros m Hm; simpl; [done|].
  apply IH. destruct (decide (managedFor key d)) as [[<- ?]|?].
  - by rewrite collectDeployment_missing.
  - by rewrite collectDeployment_other.
Qed.

(** An entry of the result was an entry before the loop. *)
Lemma foldl_collectDeployment_was_Some pods l m key svc :
  foldl (collectDeployment pods) m l !! key = Some svc → is_Some (m !! key).
Proof.
  intros H. destruct (m !! key) eqn:Hm; [by eexists|].
  by rewrite (foldl_collectDeployment_None pods l m key Hm) in H.
Qed.

(** The entry of a key is what the last deployment managed for that key
    made of it. *)
Lemma foldl_collectDeployment_last pods l1 d l2 m key :
  managedFor key d → Forall (λ d', ¬ managedFor key d') l2 →
  is_Some (m !! key) →
  ∃ svc, foldl (collectDeployment pods) m (l1 ++ d :: l2) !! key =
           Some (applyDeployment pods d svc).
Proof.
  intros Hd Hl2 Hm. rewrite foldl_app. simpl.
  rewrite foldl_collectDeployment_untouched by done.
  destruct (foldl_collectDeployment_is_Some pods l1 m key Hm) as [svc Hsvc].
  exists svc. by apply collectDeployment_for.
Qed.

Lemma applyDeployment_kdeploy pods d svc :
  service.kdeploy (applyDeployment pods d svc) = Some (dropProvenance d).
Proof. reflexivity. Qed.

(** The back-reference to the deployment is nil exactly when no deployment
    was managed for the key. *)
Lemma foldl_collectDeployment_kdeploy pods l m key svc0 svc :
  m !! key = Some svc0 →
  foldl (collectDeployment pods) m l !! key = Some svc →
  service.kdeploy svc = None ↔
  service.kdeploy svc0 = None ∧ Forall (λ d, ¬ managedFor key d) l.
Proof.
  revert m svc0. induction l as [|d l IH]; intros m svc0 Hm Hsvc; simpl in *.
  - rewrite Hm in Hsvc. injection Hsvc as ->. split; [by intros ->|by intros [-> _]].
  - destruct (decide (managedFor key d)) as [Hd|Hd].
    + rewrite (IH _ _ (collectDeployment_for pods m d key svc0 Hd Hm) Hsvc).
      rewrite applyDeployment_kdeploy. split; [by intros [? _]|].
      intros [_ H]. by inversion H.
    + assert (collectDeployment pods m d !! key = Some svc0) as Hm'
        by (by rewrite collectDeployment_other).
      rewrite (IH _ _ Hm' Hsvc). rewrite Forall_cons. tauto.
Qed.

(** ** The correlation: the loop over the pods *)

Lemma refineStatus_skip d svc item :
  ¬ matchingPod d item →
  refineStatus (labelOf (client.Deployment.Metadata d) "name")
    (labelOf (client.Deployment.Metadata d) "version") svc item = svc.
Proof.
  unfold matchingPod, hasContainers, refineStatus. intros H.
  repeat case_decide; try done.
  destruct (client.Pod.Containers item); [done|].
  exfalso. apply H. split_and!; try done; by apply dec_stable.
Qed.

Lemma refineStatus_status d svc item :
  matchingPod d item →
  runtime.Service.Status
    (service.Service
       (refineStatus (labelOf (client.Deployment.Metadata d) "name")
          (labelOf (client.Deployment.Metadata d) "version") svc item)) =
  Some (podStatus item).
Proof.
  unfold matchingPod, hasContainers, refineStatus, podStatus.
  intros (Hn & Hv & Hc). repeat case_decide; try done.
  destruct (client.Pod.Containers item) as [|container rest]; [done|].
  by destruct (client.ContainerState.Waiting _).
Qed.

Lemma foldl_refineStatus_skip d svc l :
  Forall (λ item, ¬ matchingPod d item) l →
  foldl (refineStatus (labelOf (client.Deployment.Metadata d) "name")
           (labelOf (client.Deployment.Metadata d) "version")) svc l = svc.
Proof.
  intros H. revert svc. induction H as [|item l Hi _ IH]; intros svc; simpl; [done|].
  by rewrite refineStatus_skip.
Qed.

(** The status that a deployment leaves is that of the last pod that
    matches it and has a container status. *)
Lemma applyDeployment_status_pod pods1 item pods2 d svc :
  matchingPod d item → Forall (λ p, ¬ matchingPod d p) pods2 →
  runtime.Service.Status
    (service.Service (applyDeployment (pods1 ++ item :: pods2) d svc)) =
  Some (podStatus item).
Proof.
  intros Hi H2. unfold applyDeployment. cbv zeta.
  rewrite foldl_app. simpl foldl.
  rewrite foldl_refineStatus_skip by done.
  unfold service.setKdeploy. simpl. by apply refineStatus_status.
Qed.

(** Without such a pod it is the status of the deployment. *)
Lemma applyDeployment_status_deployment pods d svc :
  Forall (λ p, ¬ matchingPod d p) pods →
  runtime.Service.Status (service.Service (applyDeployment pods d svc)) =
  Some (deploymentStatus d).
Proof.
  intros H. unfold applyDeployment. cbv zeta.
  rewrite foldl_refineStatus_skip by done.
  unfold deploymentStatus, dropProvenance. simpl.
  by destruct (client.Deployment.Conditions d).
Qed.

(** ** getService *)

Lemma correlateMap_cases services deployments pods :
  (Forall hasPort services ∧
   correlateMap services deployments pods =
     Returns (foldl (collectDeployment pods) (foldl placed ∅ services) deployments)) ∨
  (Exists (λ s, ¬ hasPort s) services ∧
   correlateMap services deployments pods = Panics IndexOutOfRange).
Proof.
  unfold correlateMap.
  destruct (rangeOver_collectService_cases services ∅) as [[H ->]|[H ->]];
    [left|right]; by split.
Qed.

Lemma correlateMap_returns services deployments pods svcMap :
  correlateMap services deployments pods = Returns svcMap →
  Forall hasPort services ∧
  svcMap = foldl (collectDeployment pods) (foldl placed ∅ services) deployments.
Proof.
  destruct (correlateMap_cases services deployments pods) as [[H ->]|[H ->]];
    [|done].
  intros [= <-]. by split.
Qed.

(** What [getService] does once the three lists are fetched. *)
Lemma getService_fetched E labels namespace w serviceList depList podList :
  getServices E (calls w) namespace labels = Ok serviceList →
  getDeployments E (calls w ++ [GetServices namespace labels]) namespace labels =
    Ok depList →
  getPods E
    (calls w ++ [GetServices namespace labels; GetDeployments namespace labels])
    namespace labels = Ok podList →
  getService E labels namespace w =
    (andThen (correlate serviceList depList podList) (λ l, Returns (Ok l)),
     mkState (k w)
       (calls w ++ [GetServices namespace labels; GetDeployments namespace labels;
                    GetPods namespace labels])).
Proof.
  intros Hs Hd Hp. unfold getService. run_monad.
  rewrite Hs. simpl. rewrite Hd. simpl.
  rewrite <- ?(assoc_L (++)). simpl. rewrite Hp. simpl.
  rewrite <- ?(assoc_L (++)). simpl.
  by destruct (correlate serviceList depList podList).
Qed.

(** C10: once its three lists are fetched, [getService] returns when every
    listed service declares a port, whatever the conditions of the
    deployments and the container statuses of the pods are, empty or not;
    and it panics with an index out of range as soon as one listed service
    declares no port. *)
Theorem getService_needs_ports (E : Env) (labels : gmap string string)
    (namespace : string) (w : state) (serviceList : list client.Service.t)
    (depList : list client.Deployment.t) (podList : list client.Pod.t) :
  getServices E (calls w) namespace labels = Ok serviceList →
  getDeployments E (calls w ++ [GetServices namespace labels]) namespace labels =
    Ok depList →
  getPods E
    (calls w ++ [GetServices namespace labels; GetDeployments namespace labels])
    namespace labels = Ok podList →
  (Forall hasPort serviceList ↔
     ∃ services, fst (getService E labels namespace w) = Returns (Ok services)) ∧
  (Exists (λ kservice,
             client.ServiceSpec.Ports (client.Service.Spec kservice) = [])
     serviceList ↔
     fst (getService E labels namespace w) = Panics IndexOutOfRange).
Proof.
  intros Hs Hd Hp.
  rewrite (getService_fetched E labels namespace w _ _ _ Hs Hd Hp). simpl.
  assert (Exists (λ kservice,
             client.ServiceSpec.Ports (client.Service.Spec kservice) = [])
            serviceList ↔ Exists (λ s, ¬ hasPort s) serviceList) as ->.
  { split; intros H; (eapply Exists_impl; [exact H|]); intros s; unfold hasPort;
      simpl; destruct (client.ServiceSpec.Ports _); simpl; intros Hx; try done.
    - by intros ?.
    - exfalso. by apply Hx. }
  unfold correlate.
  destruct (correlateMap_cases serviceList depList podList) as [[H ->]|[H ->]];
    simpl.
  - split; split; try done.
    + intros _. by eexists.
    + intros H'. apply Exists_not_Forall in H'. done.
  - split; split; try done.
    + intros H'. by apply Exists_not_Forall in H.
    + by intros [? ?].
Qed.

Lemma getService_needs_ports_witness :
  fst (getService (clusterOf [nativeService "web" "v1"; portless "api" "v1"] [] [])
         ∅ "default" idle) = Panics IndexOutOfRange.
Proof.
  apply (proj1 (proj2 (getService_needs_ports
    (clusterOf [nativeService "web" "v1"; portless "api" "v1"] [] [])
    ∅ "default" idle [nativeService "web" "v1"; portless "api" "v1"] [] []
    eq_refl eq_refl eq_refl))).
  apply Exists_cons_tl, Exists_cons_hd. reflexivity.
Defined.

(** ** The status of a logical service *)

(** C1: take the entry of a key in the service map that [getService]
    built, the last deployment that was applied to it, and the last pod of
    the list that has the name and version labels of that deployment and a
    container status: the status of the logical service is the status
    derived from that pod, whatever the conditions of the deployment say.
    So when the first container of that pod reports a waiting state the
    status is [Starting], also when the deployment reports Running. *)
Theorem pod_status_supersedes
    (services : list client.Service.t) (deployments : list client.Deployment.t)
    (pods : list client.Pod.t) (svcMap : gmap string service.t)
    (key : string) (svc : service.t)
    (deps1 : list client.Deployment.t) (d : client.Deployment.t)
    (deps2 : list client.Deployment.t)
    (pods1 : list client.Pod.t) (item : client.Pod.t) (pods2 : list client.Pod.t) :
  correlateMap services deployments pods = Returns svcMap →
  svcMap !! key = Some svc →
  deployments = deps1 ++ d :: deps2 →
  managedFor key d →
  Forall (λ d', ¬ managedFor key d') deps2 →
  pods = pods1 ++ item :: pods2 →
  matchingPod d item →
  Forall (λ p, ¬ matchingPod d p) pods2 →
  runtime.Service.Status (service.Service svc) = Some (podStatus item) ∧
  (∀ container rest,
     client.Pod.Containers item = container :: rest →
     is_Some (client.ContainerState.Waiting (client.ContainerStatus.State container)) →
     runtime.Service.Status (service.Service svc) = Some Starting).
Proof.
  intros Hmap Hsvc -> Hd Hdeps2 -> Hitem Hpods2.
  apply correlateMap_returns in Hmap as [_ ->].
  pose proof (foldl_collectDeployment_was_Some _ _ _ _ _ Hsvc) as Hkey.
  destruct (foldl_collectDeployment_last (pods1 ++ item :: pods2)
              deps1 d deps2 _ key Hd Hdeps2 Hkey) as [svc1 Hlast].
  rewrite Hlast in Hsvc. injection Hsvc as <-.
  assert (runtime.Service.Status
            (service.Service (applyDeployment (pods1 ++ item :: pods2) d svc1)) =
          Some (podStatus item)) as Hstatus
    by (by apply applyDeployment_status_pod).
  split; [done|].
  intros container rest Hc [waiting Hw]. rewrite Hstatus.
  unfold podStatus. by rewrite Hc, Hw.
Qed.

Lemma pod_status_supersedes_witness :
  (λ svc, runtime.Service.Status (service.Service svc)) <$>
    (joined [nativeService "api" "v1"]
       [deploymentOf "api" "v1" "v1" "Running"] [waitingPod "api" "v1"]
     !! "apiv1") = Some (Some Starting).
Proof.
  destruct (joined [nativeService "api" "v1"]
              [deploymentOf "api" "v1" "v1" "Running"] [waitingPod "api" "v1"]
            !! "apiv1") as [svc|] eqn:Hsvc; [|vm_compute in Hsvc; discriminate].
  simpl. f_equal.
  refine (proj2 (pod_status_supersedes
    [nativeService "api" "v1"] [deploymentOf "api" "v1" "v1" "Running"]
    [waitingPod "api" "v1"] _ "apiv1" svc
    [] (deploymentOf "api" "v1" "v1" "Running") []
    [] (waitingPod "api" "v1") []
    _ Hsvc eq_refl _ _ eq_refl _ _) _ _ eq_refl _).
  - by vm_compute.
  - split; [by vm_compute|]. vm_compute. by eexists.
  - constructor.
  - split_and!; [by vm_compute|by vm_compute|]. vm_compute. discriminate.
  - constructor.
  - simpl. by eexists.
Defined.

(** A list with an element that satisfies [P] has a last such element. *)
Lemma last_such {A} (P : A → Prop) `{∀ x, Decision (P x)} (l : list A) :
  Exists P l → ∃ l1 x l2, l = l1 ++ x :: l2 ∧ P x ∧ Forall (λ y, ¬ P y) l2.
Proof.
  induction l as [|a l IH]; intros Hex; [by inversion Hex|].
  destruct (decide (Exists P l)) as [Hl|Hl].
  - destruct (IH Hl) as (l1 & x & l2 & -> & Hx & Hl2).
    by exists (a :: l1), x, l2.
  - exists [], a, l. split_and!; [done| |by apply not_Exists_Forall].
    by inversion Hex.
Qed.

(** In the words of the claim: a logical service to which a deployment was
    applied, and for which every deployment that could have been applied
    has a pod with its labels and a container status, ends with the status
    derived from one of these pods. *)
Lemma pod_status_wins
    (services : list client.Service.t) (deployments : list client.Deployment.t)
    (pods : list client.Pod.t) (svcMap : gmap string service.t)
    (key : string) (svc : service.t) :
  correlateMap services deployments pods = Returns svcMap →
  svcMap !! key = Some svc →
  Exists (managedFor key) deployments →
  (∀ d, d ∈ deployments → managedFor key d → Exists (matchingPod d) pods) →
  ∃ d item, d ∈ deployments ∧ managedFor key d ∧ item ∈ pods ∧
            matchingPod d item ∧
            runtime.Service.Status (service.Service svc) = Some (podStatus item).
Proof.
  intros Hmap Hsvc Hd Hpods.
  destruct (last_such _ _ Hd) as (deps1 & d & deps2 & -> & Hmd & Hdeps2).
  assert (d ∈ deps1 ++ d :: deps2) as Hin by (rewrite elem_of_app, elem_of_cons; auto).
  destruct (last_such _ _ (Hpods d Hin Hmd)) as (pods1 & item & pods2 & -> & Hmi & Hpods2).
  exists d, item. split_and!; try done.
  - rewrite elem_of_app, elem_of_cons; auto.
  - apply correlateMap_returns in Hmap as [_ ->].
    destruct (foldl_collectDeployment_last (pods1 ++ item :: pods2) deps1 d deps2 _
                key Hmd Hdeps2 (foldl_collectDeployment_was_Some _ _ _ _ _ Hsvc))
      as [svc1 Hlast].
    rewrite Hlast in Hsvc. injection Hsvc as <-.
    by apply applyDeployment_status_pod.
Qed.

(** The other side of the precedence: when no pod matches the last
    deployment applied to an entry, or the matching pods have no container
    status, the status stays the one derived from the deployment. *)
Lemma deployment_status_kept
    (services : list client.Service.t) (pods : list client.Pod.t)
    (svcMap : gmap string service.t) (key : string) (svc : service.t)
    (deps1 : list client.Deployment.t) (d : client.Deployment.t)
    (deps2 : list client.Deployment.t) :
  correlateMap services (deps1 ++ d :: deps2) pods = Returns svcMap →
  svcMap !! key = Some svc →
  managedFor key d →
  Forall (λ d', ¬ managedFor key d') deps2 →
  Forall (λ p, ¬ matchingPod d p) pods →
  runtime.Service.Status (service.Service svc) = Some (deploymentStatus d).
Proof.
  intros Hmap Hsvc Hd Hdeps2 Hpods.
  apply correlateMap_returns in Hmap as [_ ->].
  destruct (foldl_collectDeployment_last pods deps1 d deps2 _ key Hd Hdeps2
              (foldl_collectDeployment_was_Some _ _ _ _ _ Hsvc)) as [svc1 Hlast].
  rewrite Hlast in Hsvc. injection Hsvc as <-.
  by apply applyDeployment_status_deployment.
Qed.

(** ** Update and the back-reference to the deployment *)

Lemma elem_of_servicesOf svcMap svc :
  svc ∈ servicesOf svcMap ↔ ∃ key, svcMap !! key = Some svc.
Proof.
  unfold servicesOf. rewrite list_elem_of_fmap. split.
  - intros ([key svc'] & -> & H). exists key. by apply elem_of_map_to_list in H.
  - intros [key H]. exists (key, svc). split; [done|]. by apply elem_of_map_to_list.
Qed.

Lemma updateServices_deployed E s namespace l w :
  Forall (λ svc, service.kdeploy svc ≠ None) l →
  ∃ r, fst (updateServices E s namespace l w) = Returns r.
Proof.
  intros H. revert w. induction H as [|svc l Hsvc _ IH]; intros w; simpl.
  - by eexists.
  - destruct (service.kdeploy svc) as [kdeploy|]; [|done].
    run_monad.
    destruct (perform E _ _); [by eexists|]. apply IH.
Qed.

Lemma updateServices_undeployed E s namespace l w :
  Exists (λ svc, service.kdeploy svc = None) l →
  fst (updateServices E s namespace l w) = Panics NilPointerDereference ∨
  ∃ e, fst (updateServices E s namespace l w) = Returns (Some e).
Proof.
  intros H. revert w. induction l as [|svc l IH]; intros w; [by inversion H|].
  simpl. destruct (service.kdeploy svc) as [kdeploy|] eqn:Hk; [|by left].
  run_monad.
  destruct (perform E _ _); [right; by eexists|].
  apply IH. inversion H; simplify_eq; done.
Qed.

Lemma updateServices_undeployed_panics E s namespace l w :
  (∀ h svc, perform E h (serviceUpdate svc namespace) = None) →
  Exists (λ svc, service.kdeploy svc = None) l →
  fst (updateServices E s namespace l w) = Panics NilPointerDereference.
Proof.
  intros Hquiet H. revert w. induction l as [|svc l IH]; intros w; [by inversion H|].
  simpl. destruct (service.kdeploy svc) as [kdeploy|] eqn:Hk; [|done].
  run_monad.
  rewrite Hquiet. apply IH. inversion H; simplify_eq; done.
Qed.

(** The entries that the loop over the services leaves have no deployment,
    and the loop over the deployments gives one to those it manages. *)
Lemma correlateMap_kdeploy services deployments pods svcMap key svc :
  correlateMap services deployments pods = Returns svcMap →
  svcMap !! key = Some svc →
  service.kdeploy svc = None ↔ Forall (λ d, ¬ managedFor key d) deployments.
Proof.
  intros Hmap Hsvc. apply correlateMap_returns in Hmap as [Hports ->].
  destruct (foldl_collectDeployment_was_Some _ _ _ _ _ Hsvc) as [svc0 Hk].
  rewrite (foldl_collectDeployment_kdeploy pods deployments _ key svc0 svc Hk Hsvc).
  assert (service.kdeploy svc0 = None) as H0.
  { eapply (foldl_placed_kdeploy services ∅); [done| |done].
    intros ??; by rewrite lookup_empty. }
  tauto.
Qed.

(** C9: [getService] leaves the back-reference of a logical service nil
    exactly when no listed deployment with a [name] annotation has the key
    of the service. [Update] of a service reads through that
    back-reference for each logical service it visits: when every one has
    its deployment the call returns; when one has none, [Update] never
    returns nil: it panics with a nil dereference, unless an update of a
    service visited before fails, and it does panic when the updates
    succeed. *)
Theorem Update_needs_deployments (E : Env) (s : runtime.Service.t)
    (opts : list (UpdateOptions.t → UpdateOptions.t)) (w : state)
    (serviceList : list client.Service.t) (depList : list client.Deployment.t)
    (podList : list client.Pod.t) (svcMap : gmap string service.t) :
  let namespace :=
    UpdateOptions.Namespace
      (applyOptions opts (UpdateOptions.mk client.DefaultNamespace)) in
  let labels := updateLabels E s in
  getServices E (calls w) namespace labels = Ok serviceList →
  getDeployments E (calls w ++ [GetServices namespace labels]) namespace labels =
    Ok depList →
  getPods E
    (calls w ++ [GetServices namespace labels; GetDeployments namespace labels])
    namespace labels = Ok podList →
  correlateMap serviceList depList podList = Returns svcMap →
  (∀ key svc, svcMap !! key = Some svc →
     (service.kdeploy svc = None ↔ Forall (λ d, ¬ managedFor key d) depList)) ∧
  ((∀ key, is_Some (svcMap !! key) → Exists (managedFor key) depList) →
     ∃ r, fst (Update E (runtime.OfService s) opts w) = Returns r) ∧
  ((∃ key, is_Some (svcMap !! key) ∧ Forall (λ d, ¬ managedFor key d) depList) →
     (fst (Update E (runtime.OfService s) opts w) = Panics NilPointerDereference ∨
      ∃ e, fst (Update E (runtime.OfService s) opts w) = Returns (Some e)) ∧
     ((∀ h svc, perform E h (serviceUpdate svc namespace) = None) →
      fst (Update E (runtime.OfService s) opts w) = Panics NilPointerDereference)).
Proof.
  intros namespace labels Hs Hd Hp Hmap.
  assert (Update E (runtime.OfService s) opts w =
          updateServices E s namespace (servicesOf svcMap)
            (mkState (k w)
               (calls w ++ [GetServices namespace labels;
                            GetDeployments namespace labels;
                            GetPods namespace labels]))) as ->.
  { unfold Update. simpl. unfold mbind, M_bind, bind.
    fold namespace. fold labels.
    rewrite (getService_fetched E labels namespace w _ _ _ Hs Hd Hp).
    unfold correlate. by rewrite Hmap. }
  split_and!.
  - intros key svc Hsvc. by apply (correlateMap_kdeploy serviceList depList podList svcMap).
  - intros Hall. apply updateServices_deployed.
    apply Forall_forall. intros svc [key Hsvc]%elem_of_servicesOf.
    rewrite (correlateMap_kdeploy _ _ _ _ _ _ Hmap Hsvc).
    intros Hnone. specialize (Hall key (ex_intro _ svc Hsvc)).
    apply Exists_exists in Hall as (d & Hin & Hm).
    rewrite Forall_forall in Hnone. by apply (Hnone d).
  - intros (key & [svc Hsvc] & Hnone).
    assert (Exists (λ svc, service.kdeploy svc = None) (servicesOf svcMap)) as Hex.
    { apply Exists_exists. exists svc. split.
      - apply elem_of_servicesOf. by exists key.
      - by apply (correlateMap_kdeploy _ _ _ _ _ _ Hmap Hsvc). }
    split.
    + by apply updateServices_undeployed.
    + intros Hquiet. by apply updateServices_undeployed_panics.
Qed.

Lemma Update_needs_deployments_witness :
  fst (Update
         (clusterOf [nativeService "api" "v1"] [foreignDeployment "api" "v1"]
            [runningPod "api" "v1"])
         (runtime.OfService api_v1) [] idle) = Panics NilPointerDereference.
Proof.
  refine (proj2 (proj2 (proj2 (Update_needs_deployments
    (clusterOf [nativeService "api" "v1"] [foreignDeployment "api" "v1"]
       [runningPod "api" "v1"])
    api_v1 [] idle
    [nativeService "api" "v1"] [foreignDeployment "api" "v1"] [runningPod "api" "v1"]
    (joined [nativeService "api" "v1"] [foreignDeployment "api" "v1"]
       [runningPod "api" "v1"])
    eq_refl eq_refl eq_refl _)) _) _).
  - by vm_compute.
  - exists "apiv1". split; [vm_compute; by eexists|].
    repeat constructor. intros [_ [v Hv]]. vm_compute in Hv. discriminate.
  - reflexivity.
Defined.

(** ** The order of the lists *)

(** A left fold does not depend on the order of a list whose elements
    commute with one another. *)
Lemma foldl_permutation_commute {A B} (f : B → A → B) (l l' : list A) :
  l ≡ₚ l' →
  (∀ x y b, x ∈ l → y ∈ l → f (f b x) y = f (f b y) x) →
  ∀ b, foldl f b l = foldl f b l'.
Proof.
  induction 1 as [|x l l' Hl IH|x y l|l1 l2 l3 H12 IH12 H23 IH23];
    intros Hcomm b; simpl.
  - done.
  - apply IH. intros ?????. apply Hcomm; apply elem_of_cons; by right.
  - f_equal. apply Hcomm; rewrite !elem_of_cons; auto.
  - rewrite IH12 by done. apply IH23.
    intros ?????. apply Hcomm; by rewrite H12.
Qed.

Lemma foldl_pointwise {A B} (f g : B → A → B) (l : list A) (b : B) :
  (∀ b x, x ∈ l → f b x = g b x) → foldl f b l = foldl g b l.
Proof.
  revert b. induction l as [|x l IH]; intros b H; simpl; [done|].
  rewrite (H b x) by (apply elem_of_cons; by left).
  apply IH. intros ???. apply H. apply elem_of_cons. by right.
Qed.

Lemma NoDup_fmap_eq {A K} (f : A → K) (l : list A) x y :
  NoDup (f <$> l) → x ∈ l → y ∈ l → f x = f y → x = y.
Proof.
  induction l as [|z l IH]; simpl; intros Hnd Hx Hy Hf; [by inversion Hx|].
  apply NoDup_cons in Hnd as [Hz Hnd].
  apply elem_of_cons in Hx as [->|Hx]; apply elem_of_cons in Hy as [->|Hy].
  - done.
  - exfalso. apply Hz. rewrite Hf. by apply list_elem_of_fmap_2.
  - exfalso. apply Hz. rewrite <- Hf. by apply list_elem_of_fmap_2.
  - by apply IH.
Qed.

Lemma NoDup_fmap_filter_eq {A K} (f : A → K) (P : A → Prop)
    `{∀ x, Decision (P x)} (l : list A) x y :
  NoDup (f <$> filter P l) → x ∈ l → y ∈ l → P x → P y → f x = f y → x = y.
Proof.
  intros Hnd Hx Hy Px Py. apply (NoDup_fmap_eq f (filter P l)); [done|..];
    by apply list_elem_of_filter.
Qed.

Lemma placed_commute services x y m :
  Forall hasPort services → NoDup (serviceKey <$> services) →
  x ∈ services → y ∈ services →
  placed (placed m x) y = placed (placed m y) x.
Proof.
  intros Hports Hnd Hx Hy. rewrite Forall_forall in Hports.
  destruct (placed_port x (Hports x Hx)) as (sx & _ & Hpx).
  destruct (placed_port y (Hports y Hy)) as (sy & _ & Hpy).
  destruct (decide (serviceKey x = serviceKey y)) as [Heq|Hne].
  - by rewrite (NoDup_fmap_eq serviceKey services x y Hnd Hx Hy Heq).
  - rewrite !Hpx, !Hpy. by apply insert_insert_ne.
Qed.

Lemma refineStatus_commute pods d x y svc :
  NoDup (podKey <$> filter hasContainers pods) → x ∈ pods → y ∈ pods →
  let step := refineStatus (labelOf (client.Deployment.Metadata d) "name")
                (labelOf (client.Deployment.Metadata d) "version") in
  step (step svc x) y = step (step svc y) x.
Proof.
  intros Hnd Hx Hy step. subst step.
  destruct (decide (matchingPod d x)) as [Mx|Mx];
    [|by rewrite !(refineStatus_skip d _ x)].
  destruct (decide (matchingPod d y)) as [My|My];
    [|by rewrite !(refineStatus_skip d _ y)].
  destruct Mx as (Hxn & Hxv & Hxc), My as (Hyn & Hyv & Hyc).
  assert (x = y) as ->; [|done].
  apply (NoDup_fmap_filter_eq podKey hasContainers pods); try done.
  unfold podKey. by rewrite Hxn, Hxv, Hyn, Hyv.
Qed.

Lemma applyDeployment_pods_permutation pods pods' d svc :
  pods ≡ₚ pods' → NoDup (podKey <$> filter hasContainers pods) →
  applyDeployment pods d svc = applyDeployment pods' d svc.
Proof.
  intros Hp Hnd. unfold applyDeployment. cbv zeta. f_equal.
  apply foldl_permutation_commute; [done|].
  intros x y b Hx Hy. by apply (refineStatus_commute pods).
Qed.

Lemma collectDeployment_pods_permutation pods pods' m d :
  pods ≡ₚ pods' → NoDup (podKey <$> filter hasContainers pods) →
  collectDeployment pods m d = collectDeployment pods' m d.
Proof.
  intros Hp Hnd. unfold collectDeployment. cbv zeta.
  destruct (m !! _); [|done]. destruct (_ !! "name"); [|done].
  by rewrite (applyDeployment_pods_permutation pods pods').
Qed.

Lemma collectDeployment_commute pods deployments x y m :
  NoDup (deploymentKey <$> filter managed deployments) →
  x ∈ deployments → y ∈ deployments →
  collectDeployment pods (collectDeployment pods m x) y =
  collectDeployment pods (collectDeployment pods m y) x.
Proof.
  intros Hnd Hx Hy.
  destruct (decide (managed x)) as [Mx|Mx];
    [|by rewrite !(collectDeployment_unmanaged pods _ x)].
  destruct (decide (managed y)) as [My|My];
    [|by rewrite !(collectDeployment_unmanaged pods _ y)].
  destruct (decide (deploymentKey x = deploymentKey y)) as [Heq|Hne].
  { by rewrite (NoDup_fmap_filter_eq deploymentKey managed deployments x y). }
  assert (¬ managedFor (deploymentKey y) x) as Hxy by (by intros [? _]).
  assert (¬ managedFor (deploymentKey x) y) as Hyx by (by intros [? _]).
  destruct (m !! deploymentKey x) as [sx|] eqn:Hlx;
    destruct (m !! deploymentKey y) as [sy|] eqn:Hly.
  - rewrite (collectDeployment_managed pods m x sx) by done.
    rewrite (collectDeployment_managed pods m y sy) by done.
    rewrite (collectDeployment_managed pods _ y sy)
      by (by rewrite ?lookup_insert_ne).
    rewrite (collectDeployment_managed pods _ x sx)
      by (by rewrite ?lookup_insert_ne).
    by apply insert_insert_ne.
  - rewrite (collectDeployment_missing pods m y) by done.
    rewrite (collectDeployment_managed pods m x sx) by done.
    by rewrite collectDeployment_missing by (by rewrite lookup_insert_ne).
  - rewrite (collectDeployment_missing pods m x) by done.
    rewrite (collectDeployment_managed pods m y sy) by done.
    by rewrite (collectDeployment_missing pods _ x) by (by rewrite lookup_insert_ne).
  - rewrite (collectDeployment_missing pods m x) by done.
    rewrite (collectDeployment_missing pods m y) by done.
    by rewrite (collectDeployment_missing pods m x) by done.
Qed.

(** When no two listed objects compete for an entry (the services have
    pairwise distinct keys, the deployments with a [name] annotation too,
    and the pods with a container status have pairwise distinct pairs of
    name and version labels), permuting the lists changes nothing at all:
    the service maps are equal, with the metadata and the back-references
    of every logical service. *)
Lemma correlateMap_permutation
    (services services' : list client.Service.t)
    (deployments deployments' : list client.Deployment.t)
    (pods pods' : list client.Pod.t) :
  services ≡ₚ services' → deployments ≡ₚ deployments' → pods ≡ₚ pods' →
  NoDup (serviceKey <$> services) →
  NoDup (deploymentKey <$> filter managed deployments) →
  NoDup (podKey <$> filter hasContainers pods) →
  correlateMap services' deployments' pods' =
    correlateMap services deployments pods ∧
  views (correlate services' deployments' pods') ≡ₚ
    views (correlate services deployments pods).
Proof.
  intros Hs Hd Hp Hns Hnd Hnp.
  assert (correlateMap services' deployments' pods' =
          correlateMap services deployments pods) as Hmap.
  { destruct (correlateMap_cases services deployments pods) as [[H ->]|[H ->]].
    - assert (Forall hasPort services') as H' by (by rewrite <- Hs).
      destruct (correlateMap_cases services' deployments' pods')
        as [[_ ->]|[Hex _]]; [|by apply Exists_not_Forall in Hex].
      f_equal.
      rewrite <- (foldl_permutation_commute placed services services' Hs)
        by (intros; by apply (placed_commute services)).
      rewrite <- (foldl_permutation_commute (collectDeployment pods')
                    deployments deployments' Hd).
      + apply foldl_pointwise. intros m d _. symmetry.
        by apply collectDeployment_pods_permutation.
      + intros x y m Hx Hy. by apply (collectDeployment_commute pods' deployments).
    - assert (Exists (λ s, ¬ hasPort s) services') as H' by (by rewrite <- Hs).
      destruct (correlateMap_cases services' deployments' pods')
        as [[Hall _]|[_ ->]]; [by apply Exists_not_Forall in H'|done]. }
  split; [done|]. unfold correlate. by rewrite Hmap.
Qed.


(** ** The order of the lists, through name, version and status *)

Lemma view_refineStatus d svc item :
  view (refineStatus (labelOf (client.Deployment.Metadata d) "name")
          (labelOf (client.Deployment.Metadata d) "version") svc item) =
  refineView d (view svc) item.
Proof.
  unfold refineView. destruct (decide (matchingPod d item)) as [M|M];
    [|by rewrite refineStatus_skip].
  pose proof (refineStatus_status d svc item M) as Hst.
  destruct M as (Hn & Hv & Hc).
  unfold view. rewrite Hst. simpl. unfold refineStatus.
  repeat case_decide; try done.
  destruct (client.Pod.Containers item); [done|].
  by destruct (client.ContainerState.Running _).
Qed.

Lemma view_foldl_refineStatus d svc pods :
  view (foldl (refineStatus (labelOf (client.Deployment.Metadata d) "name")
                 (labelOf (client.Deployment.Metadata d) "version")) svc pods) =
  foldl (refineView d) (view svc) pods.
Proof.
  revert svc. induction pods as [|item pods IH]; intros svc; simpl; [done|].
  by rewrite IH, view_refineStatus.
Qed.

(** The view after a deployment does not depend on the service before. *)
Lemma view_applyDeployment pods d svc :
  view (applyDeployment pods d svc) = deploymentView pods d.
Proof.
  unfold applyDeployment, deploymentView. cbv zeta.
  change (view (service.setKdeploy ?k ?s)) with (view s).
  rewrite view_foldl_refineStatus. f_equal.
  unfold deploymentStatus, dropProvenance. simpl.
  by destruct (client.Deployment.Conditions d).
Qed.

Lemma view_collectDeployment pods m d :
  view <$> collectDeployment pods m d = collectView pods (view <$> m) d.
Proof.
  unfold collectView. rewrite lookup_fmap.
  destruct (m !! deploymentKey d) as [svc|] eqn:Hl; simpl.
  - destruct (decide (managed d)) as [M|M].
    + rewrite (collectDeployment_managed pods m d svc) by done.
      by rewrite fmap_insert, view_applyDeployment.
    + by rewrite collectDeployment_unmanaged.
  - by rewrite collectDeployment_missing.
Qed.

Lemma view_foldl_collectDeployment pods m deployments :
  view <$> foldl (collectDeployment pods) m deployments =
  foldl (collectView pods) (view <$> m) deployments.
Proof.
  revert m. induction deployments as [|d l IH]; intros m; simpl; [done|].
  by rewrite IH, view_collectDeployment.
Qed.

Lemma view_placed m s :
  hasPort s → view <$> placed m s = placeView (view <$> m) s.
Proof.
  unfold hasPort, placed, collectService, placeView, serviceKey, mapKey, serviceView.
  intros H.
  destruct (client.ServiceSpec.Ports (client.Service.Spec s)); [done|].
  by rewrite fmap_insert.
Qed.

Lemma view_foldl_placed m services :
  Forall hasPort services →
  view <$> foldl placed m services = foldl placeView (view <$> m) services.
Proof.
  intros H. revert m. induction H as [|s l Hs _ IH]; intros m; simpl; [done|].
  by rewrite IH, view_placed.
Qed.

Lemma placeView_commute services x y vm :
  servicesAgree services → x ∈ services → y ∈ services →
  placeView (placeView vm x) y = placeView (placeView vm y) x.
Proof.
  unfold servicesAgree. rewrite Forall_forall. intros Hag Hx Hy.
  specialize (Hag x Hx). rewrite Forall_forall in Hag. specialize (Hag y Hy).
  unfold placeView.
  destruct (decide (serviceKey x = serviceKey y)) as [Heq|Hne].
  - by rewrite (Hag Heq), Heq.
  - by apply insert_insert_ne.
Qed.

Lemma refineView_commute pods d x y v :
  podsAgree pods → x ∈ pods → y ∈ pods →
  refineView d (refineView d v x) y = refineView d (refineView d v y) x.
Proof.
  unfold podsAgree. rewrite Forall_forall. intros Hag Hx Hy.
  specialize (Hag x Hx). rewrite Forall_forall in Hag. specialize (Hag y Hy).
  unfold refineView.
  destruct (decide (matchingPod d x)) as [(Hxn & Hxv & Hxc)|Mx];
    destruct (decide (matchingPod d y)) as [(Hyn & Hyv & Hyc)|My]; try done.
  simpl. rewrite Hag; try done. unfold podKey. by rewrite Hxn, Hxv, Hyn, Hyv.
Qed.

Lemma deploymentView_pods_permutation pods pods' d :
  pods ≡ₚ pods' → podsAgree pods → deploymentView pods d = deploymentView pods' d.
Proof.
  intros Hp Hag. unfold deploymentView.
  apply foldl_permutation_commute; [done|].
  intros x y v Hx Hy. by apply (refineView_commute pods).
Qed.

Lemma deploymentView_sameOutcome pods d1 d2 :
  sameOutcome d1 d2 → deploymentView pods d1 = deploymentView pods d2.
Proof.
  intros (Hn & Hv & Han & Hav & Hst). unfold deploymentView.
  rewrite Han, Hav, Hst. apply foldl_pointwise. intros v item _.
  unfold refineView.
  destruct (decide (matchingPod d1 item)) as [M1|M1];
    destruct (decide (matchingPod d2 item)) as [M2|M2]; try done;
    exfalso; unfold matchingPod in *; rewrite Hn, Hv in *; tauto.
Qed.

Lemma collectView_unmanaged pods vm d :
  ¬ managed d → collectView pods vm d = vm.
Proof. intros M. unfold collectView. destruct (vm !! _); [|done]. by case_decide. Qed.

Lemma collectView_missing pods vm d :
  vm !! deploymentKey d = None → collectView pods vm d = vm.
Proof. intros H. unfold collectView. by rewrite H. Qed.

Lemma collectView_managed pods vm d v :
  managed d → vm !! deploymentKey d = Some v →
  collectView pods vm d = <[deploymentKey d := deploymentView pods d]> vm.
Proof. intros M H. unfold collectView. rewrite H. by case_decide. Qed.

Lemma collectView_commute pods deployments x y vm :
  deploymentsAgree deployments → x ∈ deployments → y ∈ deployments →
  collectView pods (collectView pods vm x) y =
  collectView pods (collectView pods vm y) x.
Proof.
  unfold deploymentsAgree. rewrite Forall_forall. intros Hag Hx Hy.
  specialize (Hag x Hx). rewrite Forall_forall in Hag. specialize (Hag y Hy).
  destruct (decide (managed x)) as [Mx|Mx];
    [|by rewrite !(collectView_unmanaged pods _ x)].
  destruct (decide (managed y)) as [My|My];
    [|by rewrite !(collectView_unmanaged pods _ y)].
  destruct (decide (deploymentKey x = deploymentKey y)) as [Heq|Hne].
  - pose proof (deploymentView_sameOutcome pods x y (Hag Mx My Heq)) as Hv.
    destruct (vm !! deploymentKey x) as [vx|] eqn:Hlx.
    + assert (vm !! deploymentKey y = Some vx) as Hly by (by rewrite <- Heq).
      rewrite (collectView_managed pods vm x vx) by done.
      rewrite (collectView_managed pods vm y vx) by done.
      rewrite (collectView_managed pods _ y (deploymentView pods x))
        by (by rewrite ?Heq, ?lookup_insert_eq).
      rewrite (collectView_managed pods _ x (deploymentView pods y))
        by (by rewrite <- ?Heq, ?lookup_insert_eq).
      by rewrite Hv, Heq.
    + assert (vm !! deploymentKey y = None) as Hly by (by rewrite <- Heq).
      rewrite (collectView_missing pods vm x) by done.
      rewrite (collectView_missing pods vm y) by done.
      by rewrite (collectView_missing pods vm x) by done.
  - destruct (vm !! deploymentKey x) as [vx|] eqn:Hlx;
      destruct (vm !! deploymentKey y) as [vy|] eqn:Hly.
    + rewrite (collectView_managed pods vm x vx) by done.
      rewrite (collectView_managed pods vm y vy) by done.
      rewrite (collectView_managed pods _ y vy) by (by rewrite ?lookup_insert_ne).
      rewrite (collectView_managed pods _ x vx) by (by rewrite ?lookup_insert_ne).
      by apply insert_insert_ne.
    + rewrite (collectView_missing pods vm y) by done.
      rewrite (collectView_managed pods vm x vx) by done.
      by rewrite collectView_missing by (by rewrite ?lookup_insert_ne).
    + rewrite (collectView_missing pods vm x) by done.
      rewrite (collectView_managed pods vm y vy) by done.
      by rewrite (collectView_missing pods _ x) by (by rewrite ?lookup_insert_ne).
    + rewrite (collectView_missing pods vm x) by done.
      rewrite (collectView_missing pods vm y) by done.
      by rewrite (collectView_missing pods vm x) by done.
Qed.

Lemma views_servicesOf svcMap :
  view <$> servicesOf svcMap ≡ₚ (map_to_list (view <$> svcMap)).*2.
Proof.
  unfold servicesOf. rewrite map_to_list_fmap.
  rewrite <- !list_fmap_compose.
  assert (∀ l : list (string * service.t),
            view ∘ snd <$> l = snd ∘ prod_map id view <$> l) as ->; [|done].
  intros l. apply list_fmap_ext. by intros ? [??].
Qed.

(** ** The order of the lists: the claim and its amendment *)

(** C4, the claim as stated fails: the last pod of the list decides the
    status, the last deployment of the list decides name, version and
    status, and of two services with the same [name+version] text the last
    one stays. *)
Lemma correlate_depends_on_order :
  [waitingPod "api" "v1"; runningPod "api" "v1"] ≡ₚ
    [runningPod "api" "v1"; waitingPod "api" "v1"] ∧
  views (correlate [nativeService "api" "v1"]
           [deploymentOf "api" "v1" "v1" "Available"]
           [waitingPod "api" "v1"; runningPod "api" "v1"]) =
    [("api", "v1", Some Running)] ∧
  views (correlate [nativeService "api" "v1"]
           [deploymentOf "api" "v1" "v1" "Available"]
           [runningPod "api" "v1"; waitingPod "api" "v1"]) =
    [("api", "v1", Some Starting)] ∧
  views (correlate [nativeService "api" "v1"]
           [deploymentOf "api" "v1" "v1" "Available";
            deploymentOf "api" "v1" "v2" "Failed"] []) =
    [("api", "v2", Some Error)] ∧
  views (correlate [nativeService "api" "v1"]
           [deploymentOf "api" "v1" "v2" "Failed";
            deploymentOf "api" "v1" "v1" "Available"] []) =
    [("api", "v1", Some Running)] ∧
  views (correlate [nativeService "a" "bc"; nativeService "ab" "c"] [] []) =
    [("ab", "c", None)] ∧
  views (correlate [nativeService "ab" "c"; nativeService "a" "bc"] [] []) =
    [("a", "bc", None)].
Proof. split; [apply perm_swap|]. by vm_compute. Qed.

(** C4, amended: the correlation gives the same logical services by name,
    version and status for every order of the three lists, or panics for
    every order, provided that the listed objects that compete for the same
    entry agree: two services with the same [name+version] key have the
    same name and version labels; two deployments with a [name] annotation
    and the same key have the same name and version labels, the same name
    and version annotations and the same status of the first condition;
    two pods with a container status and the same name and version labels
    have the same derived status. *)
Theorem correlate_order_independent
    (services services' : list client.Service.t)
    (deployments deployments' : list client.Deployment.t)
    (pods pods' : list client.Pod.t) :
  services ≡ₚ services' → deployments ≡ₚ deployments' → pods ≡ₚ pods' →
  servicesAgree services → deploymentsAgree deployments → podsAgree pods →
  mapResult (fmap view) (correlateMap services' deployments' pods') =
    mapResult (fmap view) (correlateMap services deployments pods) ∧
  views (correlate services' deployments' pods') ≡ₚ
    views (correlate services deployments pods).
Proof.
  intros Hs Hd Hp Has Had Hap.
  assert (mapResult (fmap view) (correlateMap services' deployments' pods') =
          mapResult (fmap view) (correlateMap services deployments pods)) as Hmap.
  { destruct (correlateMap_cases services deployments pods) as [[H ->]|[H ->]].
    - assert (Forall hasPort services') as H' by (by rewrite <- Hs).
      destruct (correlateMap_cases services' deployments' pods')
        as [[_ ->]|[Hex _]]; [|by apply Exists_not_Forall in Hex].
      simpl. f_equal.
      rewrite !view_foldl_collectDeployment, !view_foldl_placed by done.
      rewrite <- (foldl_permutation_commute placeView services services' Hs)
        by (intros; by apply (placeView_commute services)).
      rewrite <- (foldl_permutation_commute (collectView pods')
                    deployments deployments' Hd)
        by (intros; by apply (collectView_commute pods' deployments)).
      apply foldl_pointwise. intros vm d _. unfold collectView.
      by rewrite (deploymentView_pods_permutation pods pods').
    - assert (Exists (λ s, ¬ hasPort s) services') as H' by (by rewrite <- Hs).
      destruct (correlateMap_cases services' deployments' pods')
        as [[Hall _]|[_ ->]]; [by apply Exists_not_Forall in H'|done]. }
  split; [done|]. unfold correlate.
  destruct (correlateMap services deployments pods) as [m| |],
    (correlateMap services' deployments' pods') as [m'| |];
    simpl in *; try done.
  injection Hmap as Hmap. by rewrite !views_servicesOf, Hmap.
Qed.

Lemma correlate_order_independent_witness :
  views (correlate [nativeService "web" "v1"; nativeService "api" "v1"]
           [deploymentOf "api" "v1" "v1" "Available"; foreignDeployment "api" "v1"]
           [runningPod "api" "v1"; replicaPod "api" "v1"; waitingPod "web" "v1"]) ≡ₚ
  views (correlate [nativeService "api" "v1"; nativeService "web" "v1"]
           [foreignDeployment "api" "v1"; deploymentOf "api" "v1" "v1" "Available"]
           [replicaPod "api" "v1"; runningPod "api" "v1"; waitingPod "web" "v1"]).
Proof.
  refine (proj2 (correlate_order_independent _ _ _ _ _ _
    (perm_swap _ _ []) (perm_swap _ _ []) (perm_swap _ _ _) _ _ _)).
  - apply (bool_decide_unpack _). by vm_compute.
  - apply (bool_decide_unpack _). by vm_compute.
  - apply (bool_decide_unpack _). by vm_compute.
Defined.

(** * Further properties *)

(** ** The namespace cache *)

Lemma existsb_cachedNames name cache :
  existsb
    (λ n, bool_decide (client.Metadata.Name (client.Namespace.Metadata n) = name))
    cache = bool_decide (name ∈ cachedNames cache).
Proof.
  unfold cachedNames. induction cache as [|n cache IH]; simpl; [done|].
  rewrite IH, <- bool_decide_or. apply bool_decide_ext.
  rewrite elem_of_cons. split; (intros [Hn|Hn]; [by left|by right]).
Qed.

Lemma namespaceExists_from_cache E name rt cs cache :
  kubernetes.namespaces rt = Some cache →
  namespaceExists E name (mkState rt cs) =
    (Returns (bool_decide (name ∈ cachedNames cache), None), mkState rt cs).
Proof.
  intros H. destruct rt as [l o r c]. simpl in H. subst c.
  unfold namespaceExists. run_monad. by rewrite existsb_cachedNames.
Qed.

(** X1: once the cache is populated, [namespaceExists] asks the cluster
    nothing: it answers from the cache, without an error, and changes
    neither the runtime nor the history; a namespace created or deleted
    behind the back of the runtime is not seen. *)
Theorem namespaceExists_cached (E : Env) (name : string) (w : state)
    (cache : list client.Namespace.t) :
  kubernetes.namespaces (k w) = Some cache →
  namespaceExists E name w =
    (Returns (bool_decide (name ∈ cachedNames cache), None), w).
Proof.
  intros H. destruct w as [rt cs]. by apply namespaceExists_from_cache.
Qed.

Lemma namespaceExists_cached_witness :
  namespaceExists unreachable "ns1" warm = (Returns (true, None), warm) ∧
  namespaceExists unreachable "ns2" warm = (Returns (false, None), warm).
Proof.
  split.
  - exact (namespaceExists_cached unreachable "ns1" warm _ eq_refl).
  - exact (namespaceExists_cached unreachable "ns2" warm _ eq_refl).
Defined.

(** X2: on a cache that is not populated, a list that succeeds with items
    is made once: the check answers from the items, the items become the
    cache, and every later check is answered from them without a call. *)
Theorem namespaceExists_populates_once (E : Env) (name : string) (w : state)
    (items : list client.Namespace.t) :
  kubernetes.namespaces (k w) = None →
  listNamespaces E (calls w) = Ok (Some items) →
  let w1 := mkState (kubernetes.setNamespaces (Some items) (k w))
              (calls w ++ [ListNamespaces]) in
  namespaceExists E name w =
    (Returns (bool_decide (name ∈ cachedNames items), None), w1) ∧
  ∀ name', namespaceExists E name' w1 =
             (Returns (bool_decide (name' ∈ cachedNames items), None), w1).
Proof.
  intros Hc Hl w1. split.
  - destruct w as [[l o r c] cs]. simpl in *. subst c.
    unfold namespaceExists. run_monad. rewrite Hl. simpl.
    by rewrite existsb_cachedNames.
  - intros name'. by apply namespaceExists_from_cache.
Qed.

Lemma namespaceExists_populates_once_witness :
  namespaceExists cluster "ns1" idle =
    (Returns (false, None),
     mkState
       (kubernetes.mk false (Options.mk "service" EmptyString EmptyString) false
          (Some [namespaceNamed "default"]))
       [ListNamespaces]).
Proof.
  exact (proj1 (namespaceExists_populates_once cluster "ns1" idle
                  [namespaceNamed "default"] eq_refl eq_refl)).
Defined.

Lemma namespaceExists_lists_when_nil E name w :
  kubernetes.namespaces (k w) = None →
  newCalls (namespaceExists E name) w = [ListNamespaces].
Proof.
  intros Hc. destruct w as [[l o r c] cs]. simpl in *. subst c.
  unfold newCalls, namespaceExists. run_monad.
  destruct (listNamespaces E cs) as [items|e]; simpl;
    by rewrite drop_app_length.
Qed.

(** X3: a list that fails, or that comes back without items, leaves the
    cache nil: the check answers false (with the error of the list when it
    failed), and every later check lists again. *)
Theorem namespaceExists_retries (E : Env) (name : string) (w : state) :
  kubernetes.namespaces (k w) = None →
  (∀ items, listNamespaces E (calls w) ≠ Ok (Some items)) →
  let w1 := mkState (k w) (calls w ++ [ListNamespaces]) in
  namespaceExists E name w =
    (Returns (false,
              match listNamespaces E (calls w) with
              | Fails e => Some e
              | Ok _ => None
              end), w1) ∧
  ∀ name', newCalls (namespaceExists E name') w1 = [ListNamespaces].
Proof.
  intros Hc Hl w1. split.
  - destruct w as [[l o r c] cs]. simpl in *. subst c.
    unfold namespaceExists. run_monad.
    destruct (listNamespaces E cs) as [[items|]|e]; simpl; try done.
    by destruct (Hl items).
  - intros name'. by apply namespaceExists_lists_when_nil.
Qed.

Lemma namespaceExists_retries_witness :
  namespaceExists unreachable "ns1" idle =
    (Returns (false, Some (Upstream "connection refused")),
     mkState newRuntime [ListNamespaces]) ∧
  namespaceExists bare "ns1" idle =
    (Returns (false, None), mkState newRuntime [ListNamespaces]).
Proof.
  split.
  - refine (proj1 (namespaceExists_retries unreachable "ns1" idle eq_refl _)).
    intros items. discriminate.
  - refine (proj1 (namespaceExists_retries bare "ns1" idle eq_refl _)).
    intros items. discriminate.
Defined.

(** ** autoCreateNamespace *)

(** X4: an error of the namespace creation whose text does not contain
    [already exists] is returned as it is, after that one call; the cache
    is not touched and no policy is built. *)
Theorem autoCreateNamespace_other_error (E : Env) (namespace : string)
    (w : state) (e : error) :
  perform E (calls w)
    (ClientCreateNamespace (namespaceNamed namespace) namespace) = Some e →
  Contains (Error_ e) "already exists" = false →
  autoCreateNamespace E namespace w =
    (Returns (Some e),
     mkState (k w)
       (calls w ++ [ClientCreateNamespace (namespaceNamed namespace) namespace])).
Proof.
  intros Hperf Hother.
  unfold autoCreateNamespace, autoCreateNamespaceWith, finishAutoCreate.
  destruct w as [[l o r c] cs]. simpl in *. run_monad.
  rewrite Hperf, Hother. simpl. by destruct c.
Qed.

Lemma autoCreateNamespace_other_error_witness :
  autoCreateNamespace forbidding "ns2" warm =
    (Returns (Some (Upstream "namespaces is forbidden")),
     mkState (k warm) [ClientCreateNamespace (namespaceNamed "ns2") "ns2"]).
Proof.
  exact (autoCreateNamespace_other_error forbidding "ns2" warm
           (Upstream "namespaces is forbidden") eq_refl eq_refl).
Defined.

(** X5: with a populated cache, the namespace is appended to the cache as
    soon as its creation succeeded or was already done, before the policy
    is built; when [NewNetworkPolicy] fails, its error is returned and the
    namespace stays in the cache, so that later checks find it although it
    has no policy. *)
Theorem autoCreateNamespace_caches_before_policy (E : Env) (namespace : string)
    (w : state) (cache : list client.Namespace.t) (e : error) :
  kubernetes.namespaces (k w) = Some cache →
  match perform E (calls w)
          (ClientCreateNamespace (namespaceNamed namespace) namespace) with
  | Some e' => Contains (Error_ e') "already exists" = true
  | None => True
  end →
  NewNetworkPolicy E "ingress" namespace {["owner" := "micro"]} = Fails e →
  let w1 := snd (autoCreateNamespace E namespace w) in
  fst (autoCreateNamespace E namespace w) = Returns (Some e) ∧
  kubernetes.namespaces (k w1) = Some (cache ++ [namespaceNamed namespace]) ∧
  calls w1 =
    calls w ++ [ClientCreateNamespace (namespaceNamed namespace) namespace] ∧
  ∀ E', namespaceExists E' namespace w1 = (Returns (true, None), w1).
Proof.
  intros Hc Hperf Hpol w1.
  assert (autoCreateNamespace E namespace w =
          (Returns (Some e),
           mkState (kubernetes.setNamespaces
                      (Some (cache ++ [namespaceNamed namespace])) (k w))
             (calls w ++
              [ClientCreateNamespace (namespaceNamed namespace) namespace])))
    as Hrun.
  { unfold autoCreateNamespace, autoCreateNamespaceWith, finishAutoCreate.
    destruct w as [[l o r c] cs]. simpl in *. subst c. run_monad.
    destruct (perform E cs _) as [e'|]; simpl in *;
      rewrite ?Hperf; simpl; by rewrite Hpol. }
  subst w1. rewrite Hrun. simpl. split_and!; try done.
  intros E'.
  rewrite (namespaceExists_from_cache E' namespace _ _
             (cache ++ [namespaceNamed namespace])) by done.
  do 2 f_equal. f_equal. apply bool_decide_eq_true.
  unfold cachedNames. rewrite fmap_app, elem_of_app. right.
  simpl. apply elem_of_cons. by left.
Qed.

Lemma autoCreateNamespace_caches_before_policy_witness :
  fst (autoCreateNamespace policyless "ns2" warm) =
    Returns (Some ErrInvalidResource) ∧
  kubernetes.namespaces (k (snd (autoCreateNamespace policyless "ns2" warm))) =
    Some [namespaceNamed "default"; namespaceNamed "ns1"; namespaceNamed "ns2"].
Proof.
  pose proof (autoCreateNamespace_caches_before_policy policyless "ns2" warm
                [namespaceNamed "default"; namespaceNamed "ns1"]
                ErrInvalidResource eq_refl I eq_refl) as (H1 & H2 & _).
  by split.
Defined.

(** ** Create of a service, stage by stage *)

Lemma getImage_source rt s s' options :
  getImage rt s options = getImage rt s' options.
Proof. reflexivity. Qed.

Lemma createOptions_Namespace rt s opts :
  CreateOptions.Namespace (createOptions rt s opts) =
  CreateOptions.Namespace
    (applyOptions opts
       (CreateOptions.mk client.DefaultNamespace
          (Options.Type_ (kubernetes.options rt)) EmptyString ∅)).
Proof. unfold createOptions. simpl. by destruct (nonEmpty _). Qed.

Lemma createOptions_Secrets rt s opts :
  CreateOptions.Secrets (createOptions rt s opts) =
  CreateOptions.Secrets
    (applyOptions opts
       (CreateOptions.mk client.DefaultNamespace
          (Options.Type_ (kubernetes.options rt)) EmptyString ∅)).
Proof. unfold createOptions. simpl. by destruct (nonEmpty _). Qed.

(** [Create] on a service is its two stages under the lock. *)
Lemma Create_service_stages E s opts :
  Create E (runtime.OfService s) opts =
  locking (
    rt ← getRuntime;
    ensured ← ensureNamespace E
      (SerializeResourceName E
         (CreateOptions.Namespace (createOptions rt s opts)));
    match ensured with
    | Some e => ret (Some e)
    | None => startWorkload E (createService rt s) (createOptions rt s opts)
    end).
Proof.
  unfold Create, CreateWith. simpl. f_equal.
Qed.

Lemma locking_free {A} (body : M A) (w : state) :
  kubernetes.locked (k w) = false →
  locking body w =
    match body (mkState (kubernetes.setLocked true (k w)) (calls w)) with
    | (Blocks, w2) => (Blocks, w2)
    | (r, w2) => (r, mkState (kubernetes.setLocked false (k w2)) (calls w2))
    end.
Proof.
  intros H. unfold locking, Lock, Unlock. rewrite H. simpl.
  by destruct (body _) as [[] ?].
Qed.

Lemma ensureNamespace_spec E namespace w :
  kubernetes.locked (k w) = true →
  ∃ new,
    calls (snd (ensureNamespace E namespace w)) = calls w ++ new ∧
    forallb isNamespaceCall new = true ∧
    keepsRuntime (k w) (k (snd (ensureNamespace E namespace w))) ∧
    (fst (ensureNamespace E namespace w) = Blocks ∨
     ∃ r, fst (ensureNamespace E namespace w) = Returns r).
Proof.
  intros Hl. destruct w as [[l o r c] cs]. simpl in *. subst l.
  unfold ensureNamespace, namespaceExists, autoCreateNamespace,
    autoCreateNamespaceWith, finishAutoCreate, CreateNested, CreateWith,
    locking, Lock, keepsRuntime.
  run_monad.
  repeat (first [case_decide | case_match]; simpl in *; simplify_eq); simpl.
  all: rewrite <- ?app_assoc; simpl.
  all: first [exists []; rewrite app_nil_r; split; [reflexivity|]
             |eexists; split; [reflexivity|]].
  all: split_and!; try reflexivity; eauto.
  all: intros ? Hc; simplify_eq;
    first [by eexists|exists []; by rewrite app_nil_r].
Qed.

Lemma startWorkload_run E s o w :
  startWorkload E s o w =
    if (0 <? size (CreateOptions.Secrets o))%nat then
      match perform E (calls w) (credentialsCall E s o) with
      | Some e => (Returns (Some e), mkState (k w) (calls w ++ [credentialsCall E s o]))
      | None =>
        (Returns (perform E (calls w ++ [credentialsCall E s o]) (startCall s o)),
         mkState (k w) (calls w ++ [credentialsCall E s o; startCall s o]))
      end
    else
      (Returns (perform E (calls w) (startCall s o)),
       mkState (k w) (calls w ++ [startCall s o])).
Proof.
  unfold startWorkload, createCredentials, credentialsCall, credentialsSecret,
    startCall.
  destruct w as [rt cs]. run_monad.
  destruct (0 <? size (CreateOptions.Secrets o))%nat; simpl; [|done].
  destruct (perform E cs _); simpl; [done|]. by rewrite <- app_assoc.
Qed.

Lemma unlocked_held w : kubernetes.locked (k w) = false → unlocked (held w) = w.
Proof. destruct w as [[l o r c] cs]. simpl. by intros ->. Qed.

Lemma createOptions_held w s opts :
  createOptions (k (held w)) s opts = createOptions (k w) s opts.
Proof. reflexivity. Qed.

(** A [Create] of a service, in terms of its stages. *)
Lemma Create_service_run E s opts w :
  kubernetes.locked (k w) = false →
  let o := createOptions (k w) s opts in
  let s' := createService (k w) s in
  Create E (runtime.OfService s) opts w =
    match ensureNamespace E (SerializeResourceName E (CreateOptions.Namespace o))
            (held w) with
    | (Returns None, w1) =>
      (fst (startWorkload E s' o w1), unlocked (snd (startWorkload E s' o w1)))
    | (Returns (Some e), w1) => (Returns (Some e), unlocked w1)
    | (Panics p, w1) => (Panics p, unlocked w1)
    | (Blocks, w1) => (Blocks, w1)
    end.
Proof.
  intros Hfree o s'. rewrite Create_service_stages, locking_free by done.
  fold (held w). unfold mbind at 1, M_bind at 1, bind at 1, getRuntime at 1.
  unfold mbind, M_bind, bind.
  change (createOptions (k (held w)) s opts) with o.
  change (createService (k (held w)) s) with s'.
  destruct (ensureNamespace E _ (held w)) as [[[e|]|p|] w1]; try done.
  rewrite startWorkload_run.
  destruct (0 <? size _)%nat; [|done]. by destruct (perform E _ _).
Qed.

Lemma ensureNamespace_default E w :
  ensureNamespace E "default" w = (Returns None, w).
Proof. unfold ensureNamespace. by case_decide. Qed.

Lemma ensureNamespace_cached E namespace w cache :
  kubernetes.namespaces (k w) = Some cache →
  namespace ∈ cachedNames cache →
  ensureNamespace E namespace w = (Returns None, w).
Proof.
  intros Hc Hin. unfold ensureNamespace. case_decide; [|done].
  unfold mbind, M_bind, bind. destruct w as [rt cs].
  rewrite (namespaceExists_from_cache E namespace rt cs cache) by done.
  by rewrite bool_decide_eq_true_2.
Qed.

Lemma startWorkload_unlocked E s o w :
  kubernetes.locked (k w) = false →
  (fst (startWorkload E s o (held w)), unlocked (snd (startWorkload E s o (held w)))) =
  startWorkload E s o w.
Proof.
  intros Hfree. destruct w as [[l o' r c] cs]. simpl in Hfree. subst l.
  rewrite !startWorkload_run. simpl.
  by destruct (0 <? size _)%nat; [destruct (perform E _ _)|].
Qed.

(** X6: a [Create] of a service whose serialized namespace is [default]
    never lists or creates a namespace, whatever the cache holds, and
    leaves the runtime as it was. When secrets are given it creates the
    credentials secret first, and returns the error of that creation
    without starting the workload; otherwise, and after the secret, it
    starts the workload and returns what the start returns. *)
Theorem Create_default_namespace (E : Env) (s : runtime.Service.t)
    (opts : list (CreateOptions.t → CreateOptions.t)) (w : state) :
  let o := createOptions (k w) s opts in
  let s' := createService (k w) s in
  kubernetes.locked (k w) = false →
  SerializeResourceName E (CreateOptions.Namespace o) = "default" →
  Create E (runtime.OfService s) opts w =
    if (0 <? size (CreateOptions.Secrets o))%nat then
      match perform E (calls w) (credentialsCall E s' o) with
      | Some e =>
        (Returns (Some e), mkState (k w) (calls w ++ [credentialsCall E s' o]))
      | None =>
        (Returns (perform E (calls w ++ [credentialsCall E s' o]) (startCall s' o)),
         mkState (k w) (calls w ++ [credentialsCall E s' o; startCall s' o]))
      end
    else
      (Returns (perform E (calls w) (startCall s' o)),
       mkState (k w) (calls w ++ [startCall s' o])).
Proof.
  intros o s' Hfree Hdefault.
  rewrite Create_service_run by done. fold o s'. rewrite Hdefault.
  rewrite ensureNamespace_default, startWorkload_unlocked by done.
  apply startWorkload_run.
Qed.

Lemma Create_default_namespace_witness :
  Create cluster (runtime.OfService api_v1) [withToken] warm =
    (Returns None,
     mkState (k warm)
       [ClientCreateSecret "api-v1-credentials"
          (client.Secret.mk "Opaque" {["token" := "aGVsbG8="]}
             (client.Metadata.mk "api-v1-credentials" "default" ∅ ∅)) "default";
        serviceStart api_v1
          (CreateOptions.mk "default" "service" EmptyString {["token" := "hello"]})
          "default"]).
Proof.
  exact (Create_default_namespace cluster api_v1 [withToken] warm eq_refl eq_refl).
Defined.

(** X7: a [Create] of a service into a namespace that the cache lists makes
    no call about namespaces either: it goes straight to the credentials
    and the workload, as in the default namespace. *)
Theorem Create_cached_namespace (E : Env) (s : runtime.Service.t)
    (opts : list (CreateOptions.t → CreateOptions.t)) (w : state)
    (cache : list client.Namespace.t) :
  let o := createOptions (k w) s opts in
  let s' := createService (k w) s in
  kubernetes.locked (k w) = false →
  kubernetes.namespaces (k w) = Some cache →
  SerializeResourceName E (CreateOptions.Namespace o) ∈ cachedNames cache →
  Create E (runtime.OfService s) opts w = startWorkload E s' o w ∧
  k (snd (Create E (runtime.OfService s) opts w)) = k w ∧
  forallb (λ c, negb (isNamespaceCall c))
    (newCalls (Create E (runtime.OfService s) opts) w) = true.
Proof.
  intros o s' Hfree Hc Hin.
  assert (Create E (runtime.OfService s) opts w = startWorkload E s' o w) as Hrun.
  { rewrite Create_service_run by done. fold o s'.
    rewrite (ensureNamespace_cached E _ (held w) cache) by done.
    by apply startWorkload_unlocked. }
  split; [done|]. unfold newCalls. rewrite Hrun, startWorkload_run.
  destruct (0 <? size _)%nat; [destruct (perform E _ _)|]; simpl;
    by rewrite drop_app_length.
Qed.

Lemma Create_cached_namespace_witness :
  Create unreachable (runtime.OfService api_v1) [inNamespace "ns1"] warm =
    (Returns None,
     mkState (k warm)
       [serviceStart api_v1 (CreateOptions.mk "ns1" "service" EmptyString ∅) "ns1"]).
Proof.
  refine (proj1 (Create_cached_namespace unreachable api_v1 [inNamespace "ns1"] warm
                   [namespaceNamed "default"; namespaceNamed "ns1"]
                   eq_refl eq_refl _)).
  apply (bool_decide_unpack _). by vm_compute.
Defined.

(** The three ways a [Create] of a service can go: the namespace stage
    blocks, it ends with an error, or the workload stage runs. *)
Lemma Create_service_shape E s opts w :
  kubernetes.locked (k w) = false →
  let o := createOptions (k w) s opts in
  let s' := createService (k w) s in
  ∃ nsnew w1,
    forallb isNamespaceCall nsnew = true ∧
    calls w1 = calls w ++ nsnew ∧
    keepsRuntime (k (held w)) (k w1) ∧
    (Create E (runtime.OfService s) opts w = (Blocks, w1) ∨
     (∃ e, Create E (runtime.OfService s) opts w = (Returns (Some e), unlocked w1)) ∨
     Create E (runtime.OfService s) opts w =
       (fst (startWorkload E s' o w1), unlocked (snd (startWorkload E s' o w1)))).
Proof.
  intros Hfree o s'. rewrite Create_service_run by done. fold o s'.
  destruct (ensureNamespace_spec E
              (SerializeResourceName E (CreateOptions.Namespace o)) (held w) eq_refl)
    as (nsnew & Hcalls & Hns & Hkeep & Hres).
  destruct (ensureNamespace E _ (held w)) as [res w1]. simpl in *.
  exists nsnew, w1. split_and!; try done.
  destruct Hres as [->|[[e|] ->]]; [by left|right; left; by eexists|by right; right].
Qed.

Lemma forallb_not_start_namespace l :
  forallb isNamespaceCall l = true → forallb (λ c, negb (isStart c)) l = true.
Proof.
  induction l as [|c l IH]; simpl; [done|].
  intros [Hc Hl]%andb_prop. rewrite IH by done. by destruct c.
Qed.

Lemma forallb_not_secret_namespace l :
  forallb isNamespaceCall l = true →
  forallb (λ c, negb (isSecretCreation c)) l = true.
Proof.
  induction l as [|c l IH]; simpl; [done|].
  intros [Hc Hl]%andb_prop. rewrite IH by done. by destruct c.
Qed.

Lemma newCalls_extends {A} (m : M A) w new :
  calls (snd (m w)) = calls w ++ new → newCalls m w = new.
Proof. intros H. unfold newCalls. by rewrite H, drop_app_length. Qed.

(** X8: in every run of a [Create] of a service the workload is started at
    most once and nothing is called after it; [Create] returns what the
    start returns when it gets there, and never returns nil otherwise; when
    secrets are given, the secret is created before the workload is
    started. *)
Theorem Create_service_start_last (E : Env) (s : runtime.Service.t)
    (opts : list (CreateOptions.t → CreateOptions.t)) (w : state) :
  let o := createOptions (k w) s opts in
  let s' := createService (k w) s in
  let run := Create E (runtime.OfService s) opts in
  kubernetes.locked (k w) = false →
  ∃ pre,
    forallb (λ c, negb (isStart c)) pre = true ∧
    ((newCalls run w = pre ∧ fst (run w) ≠ Returns None) ∨
     (newCalls run w = pre ++ [startCall s' o] ∧
      fst (run w) = Returns (perform E (calls w ++ pre) (startCall s' o)) ∧
      ((0 < size (CreateOptions.Secrets o))%nat → credentialsCall E s' o ∈ pre))).
Proof.
  intros o s' run Hfree.
  destruct (Create_service_shape E s opts w Hfree)
    as (nsnew & w1 & Hns & Hcalls & _ & Hrun).
  fold o s' in Hrun. subst run.
  pose proof (forallb_not_start_namespace _ Hns) as Hnostart.
  destruct Hrun as [Hrun|[[e Hrun]|Hrun]].
  - exists nsnew. split; [done|]. left.
    rewrite (newCalls_extends _ w nsnew) by (by rewrite Hrun).
    by rewrite Hrun.
  - exists nsnew. split; [done|]. left.
    rewrite (newCalls_extends _ w nsnew) by (by rewrite Hrun).
    by rewrite Hrun.
  - rewrite startWorkload_run in Hrun. rewrite Hcalls in Hrun.
    destruct (0 <? size (CreateOptions.Secrets o))%nat eqn:Hsecrets;
      [destruct (perform E (calls w ++ nsnew) (credentialsCall E s' o))
         as [e|] eqn:Hcred|]; simpl in Hrun.
    + exists (nsnew ++ [credentialsCall E s' o]). split.
      * rewrite forallb_app, Hnostart. reflexivity.
      * left. rewrite (newCalls_extends _ w (nsnew ++ [credentialsCall E s' o]))
          by (by rewrite Hrun, <- app_assoc).
        by rewrite Hrun.
    + exists (nsnew ++ [credentialsCall E s' o]). split.
      * rewrite forallb_app, Hnostart. reflexivity.
      * right. rewrite (newCalls_extends _ w
                          ((nsnew ++ [credentialsCall E s' o]) ++ [startCall s' o]))
          by (rewrite Hrun; simpl; by rewrite <- !app_assoc).
        rewrite Hrun. simpl. rewrite <- !app_assoc. split_and!; try done.
        intros _. rewrite elem_of_app, elem_of_cons. auto.
    + exists nsnew. split; [done|]. right.
      rewrite (newCalls_extends _ w (nsnew ++ [startCall s' o]))
        by (rewrite Hrun; simpl; by rewrite <- !app_assoc).
      rewrite Hrun. simpl. split_and!; try done.
      intros Hpos. change (0 < size (CreateOptions.Secrets o)) in Hpos.
      apply Nat.ltb_lt in Hpos. congruence.
Qed.

Lemma Create_service_start_last_witness :
  ∃ pre,
    forallb (λ c, negb (isStart c)) pre = true ∧
    ((newCalls (Create cluster (runtime.OfService api_v1) [withToken]) idle = pre ∧
      fst (Create cluster (runtime.OfService api_v1) [withToken] idle) ≠ Returns None) ∨
     (newCalls (Create cluster (runtime.OfService api_v1) [withToken]) idle =
        pre ++ [startCall (createService (k idle) api_v1)
                  (createOptions (k idle) api_v1 [withToken])] ∧
      fst (Create cluster (runtime.OfService api_v1) [withToken] idle) =
        Returns (perform cluster (calls idle ++ pre)
                   (startCall (createService (k idle) api_v1)
                      (createOptions (k idle) api_v1 [withToken]))) ∧
      ((0 < size (CreateOptions.Secrets (createOptions (k idle) api_v1 [withToken])))%nat →
       credentialsCall cluster (createService (k idle) api_v1)
         (createOptions (k idle) api_v1 [withToken]) ∈ pre))).
Proof.
  exact (Create_service_start_last cluster api_v1 [withToken] idle eq_refl).
Defined.

Lemma Create_service_calls E s opts w :
  kubernetes.locked (k w) = false →
  let o := createOptions (k w) s opts in
  let s' := createService (k w) s in
  ∃ pre,
    forallb (λ c, negb (isStart c)) pre = true ∧
    (newCalls (Create E (runtime.OfService s) opts) w = pre ∨
     newCalls (Create E (runtime.OfService s) opts) w = pre ++ [startCall s' o]).
Proof.
  intros Hfree o s'.
  destruct (Create_service_shape E s opts w Hfree)
    as (nsnew & w1 & Hns & Hcalls & _ & Hrun).
  fold o s' in Hrun.
  pose proof (forallb_not_start_namespace _ Hns) as Hnostart.
  destruct Hrun as [Hrun|[[e Hrun]|Hrun]].
  - exists nsnew. split; [done|]. left.
    apply newCalls_extends. by rewrite Hrun.
  - exists nsnew. split; [done|]. left.
    apply newCalls_extends. by rewrite Hrun.
  - rewrite startWorkload_run, Hcalls in Hrun.
    destruct (0 <? size (CreateOptions.Secrets o))%nat;
      [destruct (perform E (calls w ++ nsnew) (credentialsCall E s' o))|];
      simpl in Hrun.
    + exists (nsnew ++ [credentialsCall E s' o]). split.
      * rewrite forallb_app, Hnostart. reflexivity.
      * left. apply newCalls_extends. by rewrite Hrun, <- app_assoc.
    + exists (nsnew ++ [credentialsCall E s' o]). split.
      * rewrite forallb_app, Hnostart. reflexivity.
      * right. apply newCalls_extends. rewrite Hrun. simpl.
        by rewrite <- !app_assoc.
    + exists nsnew. split; [done|]. right.
      apply newCalls_extends. rewrite Hrun. simpl. by rewrite <- !app_assoc.
Qed.

Lemma nonEmpty_false s : nonEmpty s = false → s = EmptyString.
Proof. by destruct s. Qed.

(** X9: the workload that a [Create] starts is the service it was given,
    with the source of the runtime when it has none, in the namespace of
    the call; the options of the start are those of the call, with the type
    and the image of the runtime where the call leaves them empty. What the
    call gives is never replaced. *)
Theorem Create_start_defaults (E : Env) (s : runtime.Service.t)
    (opts : list (CreateOptions.t → CreateOptions.t)) (w : state)
    (s' : runtime.Service.t) (o' : CreateOptions.t) (namespace : string) :
  let defaults := kubernetes.options (k w) in
  let given := applyOptions opts
    (CreateOptions.mk client.DefaultNamespace (Options.Type_ defaults)
       EmptyString ∅) in
  kubernetes.locked (k w) = false →
  serviceStart s' o' namespace ∈ newCalls (Create E (runtime.OfService s) opts) w →
  runtime.Service.Name s' = runtime.Service.Name s ∧
  runtime.Service.Version s' = runtime.Service.Version s ∧
  runtime.Service.Metadata s' = runtime.Service.Metadata s ∧
  runtime.Service.Source s' =
    (if nonEmpty (runtime.Service.Source s) then runtime.Service.Source s
     else Options.Source defaults) ∧
  namespace = CreateOptions.Namespace given ∧
  CreateOptions.Namespace o' = CreateOptions.Namespace given ∧
  CreateOptions.Secrets o' = CreateOptions.Secrets given ∧
  CreateOptions.Type_ o' =
    (if nonEmpty (CreateOptions.Type_ given) then CreateOptions.Type_ given
     else Options.Type_ defaults) ∧
  CreateOptions.Image o' =
    (if nonEmpty (CreateOptions.Image given) then CreateOptions.Image given
     else Options.Image defaults).
Proof.
  intros defaults given Hfree Hin.
  destruct (Create_service_calls E s opts w Hfree) as (pre & Hpre & Hnew).
  assert (serviceStart s' o' namespace =
          startCall (createService (k w) s) (createOptions (k w) s opts)) as Heq.
  { assert (serviceStart s' o' namespace ∉ pre) as Hnotin.
    { intros Hp. rewrite forallb_forall in Hpre.
      by specialize (Hpre _ (proj1 (list_elem_of_In _ _) Hp)). }
    destruct Hnew as [Hnew|Hnew]; rewrite Hnew in Hin; [done|].
    apply elem_of_app in Hin as [Hin|Hin]; [done|].
    apply elem_of_cons in Hin as [Hin|Hin]; [done|by apply elem_of_nil in Hin]. }
  unfold startCall in Heq. injection Heq as -> -> ->.
  unfold createService, createOptions. fold defaults given.
  split_and!.
  - by destruct (nonEmpty (runtime.Service.Source s)).
  - by destruct (nonEmpty (runtime.Service.Source s)).
  - by destruct (nonEmpty (runtime.Service.Source s)).
  - by destruct (nonEmpty (runtime.Service.Source s)).
  - simpl. by destruct (nonEmpty (CreateOptions.Type_ given)).
  - simpl. by destruct (nonEmpty (CreateOptions.Type_ given)).
  - simpl. by destruct (nonEmpty (CreateOptions.Type_ given)).
  - simpl. by destruct (nonEmpty (CreateOptions.Type_ given)).
  - unfold getImage. fold defaults.
    destruct (nonEmpty (CreateOptions.Type_ given)); simpl;
      fold (nonEmpty (CreateOptions.Image given));
      (destruct (nonEmpty (CreateOptions.Image given)); [done|]);
      fold (nonEmpty (Options.Image defaults));
      (destruct (nonEmpty (Options.Image defaults)) eqn:Hi; [done|]);
      by rewrite (nonEmpty_false _ Hi).
Qed.

Lemma Create_start_defaults_witness :
  CreateOptions.Type_ (CreateOptions.mk "default" "service" EmptyString ∅) = "service".
Proof.
  assert (serviceStart api_v1 (CreateOptions.mk "default" "service" EmptyString ∅)
            "default" ∈
          newCalls (Create cluster (runtime.OfService api_v1) []) idle) as Hin
    by (vm_compute; constructor).
  pose proof (Create_start_defaults cluster api_v1 [] idle api_v1
                (CreateOptions.mk "default" "service" EmptyString ∅) "default"
                eq_refl Hin) as (_ & _ & _ & _ & _ & _ & _ & H & _).
  exact H.
Defined.

(** ** The lock and the runtime *)

Lemma keepsRuntime_unlocked w w1 :
  kubernetes.locked (k w) = false →
  keepsRuntime (k (held w)) (k w1) →
  kubernetes.options (k (unlocked w1)) = kubernetes.options (k w) ∧
  kubernetes.running (k (unlocked w1)) = kubernetes.running (k w) ∧
  kubernetes.locked (k (unlocked w1)) = false ∧
  kubernetes.locked (k w1) = true ∧
  ∀ cache, kubernetes.namespaces (k w) = Some cache →
           ∃ extra, kubernetes.namespaces (k w1) = Some (cache ++ extra).
Proof.
  intros Hfree (Hl & Ho & Hr & Hc). destruct w as [[l o r c] cs], w1 as [[l1 o1 r1 c1] cs1].
  simpl in *. by subst.
Qed.

(** X10: a [Create], of any resource, never panics. When it returns, the
    lock is free again; when it does not return, the lock stays held. In
    both cases the options and the running flag of the runtime are as
    before, the history only grows, and the cache loses nothing: a cache
    that was populated is extended at its end. *)
Theorem Create_keeps_runtime (E : Env) (r : runtime.Resource)
    (opts : list (CreateOptions.t → CreateOptions.t)) (w : state) :
  kubernetes.locked (k w) = false →
  let w' := snd (Create E r opts w) in
  kubernetes.options (k w') = kubernetes.options (k w) ∧
  kubernetes.running (k w') = kubernetes.running (k w) ∧
  (∀ cache, kubernetes.namespaces (k w) = Some cache →
            ∃ extra, kubernetes.namespaces (k w') = Some (cache ++ extra)) ∧
  (∃ new, calls w' = calls w ++ new) ∧
  ((fst (Create E r opts w) = Blocks ∧ kubernetes.locked (k w') = true) ∨
   (∃ x, fst (Create E r opts w) = Returns x ∧ kubernetes.locked (k w') = false)).
Proof.
  intros Hfree w'. subst w'.
  destruct r as [n|p|s|declared].
  - destruct w as [[l o r c] cs]. simpl in Hfree. subst l.
    unfold Create, CreateWith, locking, Lock. run_monad.
    split_and!; try done; [intros ? ?; exists []; by rewrite app_nil_r|by eexists|].
    right. by eexists.
  - destruct w as [[l o r c] cs]. simpl in Hfree. subst l.
    unfold Create, CreateWith, locking, Lock. run_monad.
    split_and!; try done; [intros ? ?; exists []; by rewrite app_nil_r|by eexists|].
    right. by eexists.
  - destruct (Create_service_shape E s opts w Hfree)
      as (nsnew & w1 & Hns & Hcalls & Hkeep & Hrun).
    destruct (keepsRuntime_unlocked w w1 Hfree Hkeep) as (Ho & Hr & Hl & Hl1 & Hc).
    destruct Hrun as [Hrun|[[e Hrun]|Hrun]]; rewrite Hrun; simpl.
    + destruct Hkeep as (_ & Ho1 & Hr1 & _). split_and!; try done; [by eexists|by left].
    + split_and!; try done; [by eexists|]. right. by eexists.
    + rewrite startWorkload_run, Hcalls.
      destruct (0 <? size _)%nat; [destruct (perform E _ _)|]; simpl;
        (split_and!; try done;
         [rewrite <- ?app_assoc; by eexists|right; by eexists]).
  - destruct w as [[l o r c] cs]. simpl in Hfree. subst l.
    unfold Create, CreateWith, locking, Lock. run_monad.
    repeat case_decide; simpl;
      (split_and!; try done;
       [intros ? ?; exists []; by rewrite app_nil_r
       |first [by eexists|exists []; by rewrite app_nil_r]
       |right; by eexists]).
Qed.

Lemma Create_keeps_runtime_witness :
  ∃ extra,
    kubernetes.namespaces
      (k (snd (Create cluster (runtime.OfService api_v1) [inNamespace "ns2"] warm))) =
    Some ([namespaceNamed "default"; namespaceNamed "ns1"] ++ extra).
Proof.
  destruct (Create_keeps_runtime cluster (runtime.OfService api_v1)
              [inNamespace "ns2"] warm eq_refl) as (_ & _ & Hc & _).
  exact (Hc [namespaceNamed "default"; namespaceNamed "ns1"] eq_refl).
Defined.

(** X11: on a runtime whose lock is held, every method that takes the lock
    waits for ever, without a call and without a change: [Create],
    [Delete], [Read], [Init], [Start] and [Stop]. So after a [Create] that
    blocked on its own lock, none of them returns any more. *)
Theorem held_lock_blocks (E : Env) (w : state) (r : runtime.Resource)
    (copts : list (CreateOptions.t → CreateOptions.t))
    (dopts : list (DeleteOptions.t → DeleteOptions.t))
    (ropts : list (ReadOptions.t → ReadOptions.t))
    (iopts : list (Options.t → Options.t)) :
  kubernetes.locked (k w) = true →
  Create E r copts w = (Blocks, w) ∧
  Delete E r dopts w = (Blocks, w) ∧
  Read E ropts w = (Blocks, w) ∧
  Init iopts w = (Blocks, w) ∧
  Start w = (Blocks, w) ∧
  Stop w = (Blocks, w).
Proof.
  intros H. unfold Create, CreateWith, Delete, Read, Init, Start, Stop, locking, Lock.
  by rewrite !H.
Qed.

Lemma held_lock_blocks_witness :
  let w := snd (Create cluster (runtime.OfService api_v1) [inNamespace "ns1"] idle) in
  Read cluster [] w = (Blocks, w) ∧
  Delete cluster (runtime.OfService api_v1) [] w = (Blocks, w).
Proof.
  destruct (held_lock_blocks cluster
              (snd (Create cluster (runtime.OfService api_v1) [inNamespace "ns1"] idle))
              (runtime.OfService api_v1) [] [] [] [] eq_refl)
    as (_ & Hd & Hr & _).
  by split.
Defined.

(** ** Where Create stops *)

(** X12: when the list of the namespaces fails, a [Create] of a service
    into a namespace other than [default] returns that error after the one
    call; the cache stays nil, the lock is released, and neither a
    namespace, nor a secret, nor the workload is created. *)
Theorem Create_list_failure (E : Env) (s : runtime.Service.t)
    (opts : list (CreateOptions.t → CreateOptions.t)) (w : state) (e : error) :
  kubernetes.locked (k w) = false →
  kubernetes.namespaces (k w) = None →
  SerializeResourceName E
    (CreateOptions.Namespace (createOptions (k w) s opts)) ≠ "default" →
  listNamespaces E (calls w) = Fails e →
  Create E (runtime.OfService s) opts w =
    (Returns (Some e), mkState (k w) (calls w ++ [ListNamespaces])).
Proof.
  intros Hfree Hc Hns Hl. rewrite Create_service_run by done.
  unfold ensureNamespace. case_decide; [|done].
  destruct w as [[l o r c] cs]. simpl in *. subst l c.
  unfold namespaceExists. run_monad. by rewrite Hl.
Qed.

Lemma Create_list_failure_witness :
  Create unreachable (runtime.OfService api_v1) [inNamespace "ns1"; withToken] idle =
    (Returns (Some (Upstream "connection refused")),
     mkState newRuntime [ListNamespaces]).
Proof.
  refine (Create_list_failure unreachable api_v1 [inNamespace "ns1"; withToken] idle
            (Upstream "connection refused") eq_refl eq_refl _ eq_refl).
  vm_compute. discriminate.
Defined.

(** X13: when the namespace is missing from the cache and its creation
    fails with an error other than [already exists], a [Create] of a
    service returns that error; the namespace is not added to the cache and
    neither a policy, nor a secret, nor the workload is created. *)
Theorem Create_namespace_failure (E : Env) (s : runtime.Service.t)
    (opts : list (CreateOptions.t → CreateOptions.t)) (w : state)
    (cache : list client.Namespace.t) (e : error) :
  let namespace :=
    SerializeResourceName E
      (CreateOptions.Namespace (createOptions (k w) s opts)) in
  kubernetes.locked (k w) = false →
  kubernetes.namespaces (k w) = Some cache →
  namespace ≠ "default" →
  namespace ∉ cachedNames cache →
  perform E (calls w)
    (ClientCreateNamespace (namespaceNamed namespace) namespace) = Some e →
  Contains (Error_ e) "already exists" = false →
  Create E (runtime.OfService s) opts w =
    (Returns (Some e),
     mkState (k w)
       (calls w ++ [ClientCreateNamespace (namespaceNamed namespace) namespace])).
Proof.
  intros namespace Hfree Hc Hns Hout Hperf Hother.
  rewrite Create_service_run by done. fold namespace.
  unfold ensureNamespace. case_decide; [|done].
  unfold mbind, M_bind, bind, held.
  rewrite (namespaceExists_from_cache E namespace _ _ cache) by done.
  rewrite bool_decide_eq_false_2 by done.
  unfold autoCreateNamespace, autoCreateNamespaceWith, finishAutoCreate.
  destruct w as [[l o r c] cs]. simpl in *. subst l c. run_monad.
  by rewrite Hperf, Hother.
Qed.

Lemma Create_namespace_failure_witness :
  Create forbidding (runtime.OfService api_v1) [inNamespace "ns2"] warm =
    (Returns (Some (Upstream "namespaces is forbidden")),
     mkState (k warm) [ClientCreateNamespace (namespaceNamed "ns2") "ns2"]).
Proof.
  refine (Create_namespace_failure forbidding api_v1 [inNamespace "ns2"] warm
            [namespaceNamed "default"; namespaceNamed "ns1"]
            (Upstream "namespaces is forbidden") eq_refl eq_refl _ _ eq_refl eq_refl).
  - vm_compute. discriminate.
  - apply (bool_decide_unpack _). by vm_compute.
Defined.

(** ** Delete *)

Lemma Delete_service_run E s opts w :
  let ns := DeleteOptions.Namespace
              (applyOptions opts (DeleteOptions.mk client.DefaultNamespace)) in
  let del := ClientDeleteSecret (credentialsName E s) ns in
  let stop := serviceStop s
    (CreateOptions.mk ns (Options.Type_ (kubernetes.options (k w))) EmptyString ∅)
    ns in
  kubernetes.locked (k w) = false →
  Delete E (runtime.OfService s) opts w =
    (Returns (normalized (perform E (calls w ++ [del]) stop)),
     mkState (k w) (calls w ++ [del; stop])).
Proof.
  intros ns del stop Hfree.
  destruct w as [[l o r c] cs]. simpl in *. subst l.
  unfold Delete, locking, Lock. run_monad. fold ns. fold del. fold stop.
  rewrite <- app_assoc. simpl.
  unfold normalized. destruct (perform E (cs ++ [del]) stop) as [e|]; [|done].
  by case_decide.
Qed.

(** X14: a [Delete] of a service always makes two calls, in this order:
    the deletion of the credentials secret, whose answer is ignored, and
    the stop of the workload, in the namespace of the call. It returns nil
    when the stop succeeds, [ErrNotFound] when the stop answers
    [api.ErrNotFound], and any other error of the stop as it is; it never
    returns [api.ErrNotFound] itself, and it leaves the runtime as it
    was. *)
Theorem Delete_service (E : Env) (s : runtime.Service.t)
    (opts : list (DeleteOptions.t → DeleteOptions.t)) (w : state) :
  let ns := DeleteOptions.Namespace
              (applyOptions opts (DeleteOptions.mk client.DefaultNamespace)) in
  let del := ClientDeleteSecret (credentialsName E s) ns in
  let stop := serviceStop s
    (CreateOptions.mk ns (Options.Type_ (kubernetes.options (k w))) EmptyString ∅)
    ns in
  kubernetes.locked (k w) = false →
  Delete E (runtime.OfService s) opts w =
    (Returns (normalized (perform E (calls w ++ [del]) stop)),
     mkState (k w) (calls w ++ [del; stop])) ∧
  fst (Delete E (runtime.OfService s) opts w) ≠ Returns (Some apiErrNotFound) ∧
  (fst (Delete E (runtime.OfService s) opts w) = Returns None ↔
   perform E (calls w ++ [del]) stop = None).
Proof.
  intros ns del stop Hfree.
  pose proof (Delete_service_run E s opts w Hfree) as Hrun.
  fold ns del stop in Hrun.
  rewrite Hrun. simpl. split_and!; [done|..].
  - unfold normalized. destruct (perform E _ stop) as [e|]; [|done].
    case_decide; congruence.
  - unfold normalized. destruct (perform E _ stop) as [e|]; [|done].
    case_decide; split; congruence.
Qed.

Lemma Delete_service_witness :
  Delete cluster (runtime.OfService api_v1) [] idle =
    (Returns None,
     mkState newRuntime
       [ClientDeleteSecret "api-v1-credentials" "default";
        serviceStop api_v1 (CreateOptions.mk "default" "service" EmptyString ∅)
          "default"]).
Proof. exact (proj1 (Delete_service cluster api_v1 [] idle eq_refl)). Defined.

Lemma Create_service_secret_calls E s opts w name secret ns :
  kubernetes.locked (k w) = false →
  ClientCreateSecret name secret ns ∈
    newCalls (Create E (runtime.OfService s) opts) w →
  ClientCreateSecret name secret ns =
    credentialsCall E (createService (k w) s) (createOptions (k w) s opts).
Proof.
  intros Hfree Hin.
  destruct (Create_service_shape E s opts w Hfree)
    as (nsnew & w1 & Hns & Hcalls & _ & Hrun).
  pose proof (forallb_not_secret_namespace _ Hns) as Hnosec.
  assert (ClientCreateSecret name secret ns ∉ nsnew) as Hnotin.
  { intros Hp. rewrite forallb_forall in Hnosec.
    by specialize (Hnosec _ (proj1 (list_elem_of_In _ _) Hp)). }
  destruct Hrun as [Hrun|[[e Hrun]|Hrun]].
  - rewrite (newCalls_extends _ w nsnew) in Hin by (by rewrite Hrun). done.
  - rewrite (newCalls_extends _ w nsnew) in Hin by (by rewrite Hrun). done.
  - rewrite startWorkload_run, Hcalls in Hrun.
    destruct (0 <? size _)%nat; [destruct (perform E _ _)|]; simpl in Hrun.
    + rewrite (newCalls_extends _ w (nsnew ++ [credentialsCall E _ _])) in Hin
        by (by rewrite Hrun, <- app_assoc).
      apply elem_of_app in Hin as [Hin|Hin]; [done|].
      by apply list_elem_of_singleton in Hin.
    + rewrite (newCalls_extends _ w
                 (nsnew ++ [credentialsCall E _ _; startCall _ _])) in Hin
        by (rewrite Hrun; simpl; by rewrite <- !app_assoc).
      apply elem_of_app in Hin as [Hin|Hin]; [done|].
      apply elem_of_cons in Hin as [Hin|Hin]; [done|].
      by apply list_elem_of_singleton in Hin.
    + rewrite (newCalls_extends _ w (nsnew ++ [startCall _ _])) in Hin
        by (rewrite Hrun; simpl; by rewrite <- !app_assoc).
      apply elem_of_app in Hin as [Hin|Hin]; [done|].
      by apply list_elem_of_singleton in Hin.
Qed.

(** X15: the secret that a [Delete] of a service removes is the one that a
    [Create] of the same service made: when the two calls are given the
    same namespace, the secret deletion names the secret, and the
    namespace, of the secret creation. *)
Theorem Delete_removes_created_secret (E : Env) (s : runtime.Service.t)
    (copts : list (CreateOptions.t → CreateOptions.t))
    (dopts : list (DeleteOptions.t → DeleteOptions.t)) (w w' : state)
    (name name' ns ns' : string) (secret : client.Secret.t) :
  kubernetes.locked (k w) = false →
  kubernetes.locked (k w') = false →
  CreateOptions.Namespace (createOptions (k w) s copts) =
    DeleteOptions.Namespace
      (applyOptions dopts (DeleteOptions.mk client.DefaultNamespace)) →
  ClientCreateSecret name secret ns ∈
    newCalls (Create E (runtime.OfService s) copts) w →
  ClientDeleteSecret name' ns' ∈
    newCalls (Delete E (runtime.OfService s) dopts) w' →
  name' = name ∧ ns' = ns.
Proof.
  intros Hfree Hfree' Hsame Hc Hd.
  apply (Create_service_secret_calls E s copts w) in Hc; [|done].
  unfold credentialsCall in Hc. injection Hc as -> _ ->.
  assert (credentialsName E (createService (k w) s) = credentialsName E s) as ->.
  { unfold credentialsName, createService.
    by destruct (nonEmpty (runtime.Service.Source s)). }
  rewrite (newCalls_extends _ w' _
             (f_equal (λ x, calls (snd x)) (Delete_service_run E s dopts w' Hfree')))
    in Hd.
  rewrite !elem_of_cons, elem_of_nil in Hd. destruct Hd as [Hd|[Hd|[]]]; [|done].
  injection Hd as -> ->. split; [done|]. symmetry. exact Hsame.
Qed.

Lemma Delete_removes_created_secret_witness :
  "api-v1-credentials" = "api-v1-credentials" ∧ "default" = "default".
Proof.
  refine (Delete_removes_created_secret cluster api_v1 [withToken] [] idle idle
            "api-v1-credentials" "api-v1-credentials" "default" "default"
            (credentialsSecret cluster api_v1
               (createOptions (k idle) api_v1 [withToken]))
            eq_refl eq_refl eq_refl _ _).
  - vm_compute. constructor.
  - vm_compute. constructor.
Defined.

(** ** getService and the client *)

(** X16: [getService] asks for the services, the deployments and the
    pods, in this order, with the same namespace and labels, and stops at
    the first list that fails: it returns the error of that list, the lists
    after it are not fetched, and nothing is correlated. *)
Theorem getService_stops_at_first_error (E : Env) (labels : gmap string string)
    (namespace : string) (w : state) (e : error) :
  (getServices E (calls w) namespace labels = Fails e →
   getService E labels namespace w =
     (Returns (Fails e), mkState (k w) (calls w ++ [GetServices namespace labels]))) ∧
  (∀ serviceList,
     getServices E (calls w) namespace labels = Ok serviceList →
     getDeployments E (calls w ++ [GetServices namespace labels]) namespace labels =
       Fails e →
     getService E labels namespace w =
       (Returns (Fails e),
        mkState (k w)
          (calls w ++ [GetServices namespace labels;
                       GetDeployments namespace labels]))) ∧
  (∀ serviceList depList,
     getServices E (calls w) namespace labels = Ok serviceList →
     getDeployments E (calls w ++ [GetServices namespace labels]) namespace labels =
       Ok depList →
     getPods E
       (calls w ++ [GetServices namespace labels; GetDeployments namespace labels])
       namespace labels = Fails e →
     getService E labels namespace w =
       (Returns (Fails e),
        mkState (k w)
          (calls w ++ [GetServices namespace labels;
                       GetDeployments namespace labels;
                       GetPods namespace labels]))).
Proof.
  destruct w as [rt cs]. simpl. split_and!.
  - intros Hs. unfold getService. run_monad. by rewrite Hs.
  - intros sl Hs Hd. unfold getService. run_monad. rewrite Hs. simpl.
    rewrite Hd. simpl. by rewrite <- ?app_assoc.
  - intros sl dl Hs Hd Hp. unfold getService. run_monad. rewrite Hs. simpl.
    rewrite Hd. simpl. rewrite <- ?app_assoc. simpl. rewrite Hp. simpl.
    by rewrite <- ?app_assoc.
Qed.

Lemma getService_stops_at_first_error_witness :
  getService unreachable ∅ "default" idle =
    (Returns (Fails (Upstream "connection refused")),
     mkState newRuntime [GetServices "default" ∅]).
Proof.
  exact (proj1 (getService_stops_at_first_error unreachable ∅ "default" idle
                  (Upstream "connection refused")) eq_refl).
Defined.

(** ** Update and Logs do not take the lock *)

Lemma getService_runtime E labels namespace rt rt' cs :
  getService E labels namespace (mkState rt cs) =
    (fst (getService E labels namespace (mkState rt' cs)),
     mkState rt (calls (snd (getService E labels namespace (mkState rt' cs))))).
Proof.
  unfold getService. run_monad.
  destruct (getServices E cs namespace labels); simpl; [|done].
  destruct (getDeployments E _ namespace labels); simpl; [|done].
  destruct (getPods E _ namespace labels); simpl; [|done].
  by destruct (correlate _ _ _).
Qed.

Lemma getService_never_blocks E labels namespace w :
  fst (getService E labels namespace w) ≠ Blocks.
Proof.
  unfold getService. destruct w as [rt cs]. run_monad.
  destruct (getServices E cs namespace labels) as [serviceList|]; simpl; [|done].
  destruct (getDeployments E _ namespace labels) as [depList|]; simpl; [|done].
  destruct (getPods E _ namespace labels) as [podList|]; simpl; [|done].
  unfold correlate.
  by destruct (correlateMap_cases serviceList depList podList) as [[_ ->]|[_ ->]].
Qed.

Lemma updateServices_runtime E s namespace l rt rt' cs :
  updateServices E s namespace l (mkState rt cs) =
    (fst (updateServices E s namespace l (mkState rt' cs)),
     mkState rt (calls (snd (updateServices E s namespace l (mkState rt' cs))))).
Proof.
  revert cs. induction l as [|svc l IH]; intros cs; simpl; [done|].
  destruct (service.kdeploy svc); [|done]. run_monad.
  destruct (perform E cs _); [done|]. apply IH.
Qed.

Lemma updateServices_never_blocks E s namespace l w :
  fst (updateServices E s namespace l w) ≠ Blocks.
Proof.
  revert w. induction l as [|svc l IH]; intros [rt cs]; simpl; [done|].
  destruct (service.kdeploy svc); [|done]. run_monad.
  destruct (perform E cs _); [done|]. apply IH.
Qed.

(** X17: [Update] and [Logs] neither take the lock nor look at the runtime:
    on two runtimes that differ in anything (lock held or free, cache,
    running flag) they make the same calls and give the same result, they
    never wait, and they leave the runtime as they found it. A held lock,
    which stops [Create], [Read] and [Delete], does not stop them. *)
Theorem Update_and_Logs_ignore_runtime (E : Env) (r : runtime.Resource)
    (uopts : list (UpdateOptions.t → UpdateOptions.t))
    (lopts : list (LogsOptions.t → LogsOptions.t))
    (rt rt' : kubernetes.t) (cs : list call) :
  Update E r uopts (mkState rt cs) =
    (fst (Update E r uopts (mkState rt' cs)),
     mkState rt (calls (snd (Update E r uopts (mkState rt' cs))))) ∧
  Logs E r lopts (mkState rt cs) =
    (fst (Logs E r lopts (mkState rt' cs)),
     mkState rt (calls (snd (Logs E r lopts (mkState rt' cs))))) ∧
  fst (Update E r uopts (mkState rt cs)) ≠ Blocks ∧
  fst (Logs E r lopts (mkState rt cs)) ≠ Blocks.
Proof.
  split_and!.
  - unfold Update. repeat case_decide; try done.
    + by destruct (runtime.asNetworkPolicy r).
    + destruct (runtime.asService r) as [s|]; [|done].
      unfold mbind, M_bind, bind.
      rewrite (getService_runtime E _ _ rt rt' cs).
      destruct (getService E _ _ (mkState rt' cs)) as [[[l|e]|p|] [rt1 cs1]];
        simpl; try done.
      apply updateServices_runtime.
  - unfold Logs. repeat case_decide; try done.
    destruct (runtime.asService r) as [s|]; [|done]. run_monad.
    destruct (negb _); simpl.
    + by destruct (readLogs E cs _ _).
    + by destruct (streamLogs E cs _ _).
  - unfold Update. repeat case_decide; try done.
    + by destruct (runtime.asNetworkPolicy r).
    + destruct (runtime.asService r) as [s|]; [|done].
      unfold mbind, M_bind, bind.
      pose proof (getService_never_blocks E (updateLabels E s)
                    (UpdateOptions.Namespace
                       (applyOptions uopts (UpdateOptions.mk client.DefaultNamespace)))
                    (mkState rt cs)) as Hg.
      destruct (getService E _ _ (mkState rt cs)) as [[[l|e]|p|] w1];
        simpl in *; try done.
      apply updateServices_never_blocks.
  - unfold Logs. repeat case_decide; try done.
    destruct (runtime.asService r) as [s|]; [|done]. run_monad.
    destruct (negb _); simpl.
    + by destruct (readLogs E cs _ _).
    + by destruct (streamLogs E cs _ _).
Qed.

(** ** The calls of Update *)

Lemma outcomes_app E h a b :
  outcomes E h (a ++ b) = outcomes E h a ++ outcomes E (h ++ a) b.
Proof.
  revert h. induction a as [|c a IH]; intros h; simpl.
  - by rewrite app_nil_r.
  - rewrite IH. by rewrite <- app_assoc.
Qed.

Lemma length_outcomes E h new : length (outcomes E h new) = length new.
Proof. revert h. induction new as [|c new IH]; intros h; simpl; [done|]. by rewrite IH. Qed.

Lemma stoppedAtFirstFailure_cons n r :
  (r = None ∨ (0 < n)%nat) →
  None :: stoppedAtFirstFailure n r = stoppedAtFirstFailure (S n) r.
Proof.
  destruct r as [e|]; simpl; [|done].
  intros [|Hn]; [done|]. rewrite Nat.sub_0_r.
  destruct n as [|n]; [lia|]. simpl. by rewrite Nat.sub_0_r.
Qed.

(** The loop of [Update], as a trace. *)
Lemma updateServices_trace E s namespace l w :
  ∃ ups,
    calls (snd (updateServices E s namespace l w)) = calls w ++ ups ∧
    k (snd (updateServices E s namespace l w)) = k w ∧
    Forall (carries s namespace) ups ∧
    (length ups ≤ length l)%nat ∧
    ∀ r, fst (updateServices E s namespace l w) = Returns r →
      outcomes E (calls w) ups = stoppedAtFirstFailure (length ups) r ∧
      (r = None → length ups = length l) ∧
      (r ≠ None → (0 < length ups)%nat).
Proof.
  revert w. induction l as [|svc l IH]; intros [rt cs]; simpl.
  { exists []. rewrite app_nil_r. split_and!; try done.
    intros r [= <-]. by split_and!. }
  destruct (service.kdeploy svc) as [kdeploy|] eqn:Hk; simpl.
  2:{ exists []. rewrite app_nil_r. split_and!; try done. simpl. lia. }
  run_monad.
  set (c := serviceUpdate _ namespace).
  assert (carries s namespace c) as Hc.
  { eexists _, _. split_and!; [done|done|..]; simpl.
    - unfold copyInto. apply map_union_subseteq_l.
    - rewrite lookup_insert_eq. by eexists. }
  destruct (perform E cs c) as [e|] eqn:Hp; simpl.
  { exists [c]. split_and!; try done; [by constructor|simpl; lia|].
    intros r [= <-]. simpl. rewrite Hp. split_and!; [done|done|lia]. }
  destruct (IH (mkState rt (cs ++ [c]))) as (ups & Hcalls & Hrt & Hall & Hlen & Hout).
  simpl in *. exists (c :: ups). split_and!.
  - rewrite Hcalls. by rewrite <- app_assoc.
  - done.
  - by constructor.
  - simpl. lia.
  - intros r Hr. destruct (Hout r Hr) as (Ho & Hnone & Hsome).
    simpl. rewrite Hp, Ho. split_and!.
    + apply stoppedAtFirstFailure_cons.
      destruct r; [right; by apply Hsome|by left].
    + intros Hn. by rewrite Hnone.
    + lia.
Qed.

(** [getService], as a trace: a prefix of the three lists. *)
Lemma getService_trace E labels namespace w :
  ∃ gets,
    calls (snd (getService E labels namespace w)) = calls w ++ gets ∧
    k (snd (getService E labels namespace w)) = k w ∧
    gets `prefix_of` listCalls namespace labels ∧
    (0 < length gets)%nat ∧
    (∀ e, fst (getService E labels namespace w) = Returns (Fails e) →
       outcomes E (calls w) gets = stoppedAtFirstFailure (length gets) (Some e)) ∧
    (∀ l, fst (getService E labels namespace w) = Returns (Ok l) →
       gets = listCalls namespace labels ∧
       outcomes E (calls w) gets = replicate 3 None).
Proof.
  destruct w as [rt cs]. unfold getService. run_monad.
  destruct (getServices E cs namespace labels) as [serviceList|e1] eqn:Hs; simpl.
  2:{ exists [GetServices namespace labels]. split_and!; try done.
      - by eexists.
      - simpl. lia.
      - intros e [= <-]. simpl. by rewrite Hs. }
  destruct (getDeployments E _ namespace labels) as [depList|e2] eqn:Hd; simpl.
  2:{ exists [GetServices namespace labels; GetDeployments namespace labels].
      split_and!; try done.
      - by rewrite <- app_assoc.
      - by eexists.
      - simpl. lia.
      - intros e [= <-]. simpl. by rewrite Hs, Hd. }
  destruct (getPods E _ namespace labels) as [podList|e3] eqn:Hp; simpl.
  2:{ exists (listCalls namespace labels). split_and!; try done.
      - by rewrite <- !app_assoc.
      - simpl. lia.
      - intros e [= <-]. simpl. by rewrite Hs, Hd, Hp. }
  exists (listCalls namespace labels).
  assert (outcomes E cs (listCalls namespace labels) = replicate 3 None) as Ho.
  { simpl. by rewrite Hs, Hd, Hp. }
  destruct (correlate serviceList depList podList); simpl;
    (split_and!; [by rewrite <- !app_assoc|done|done|simpl; lia|done|]);
    done.
Qed.

(** X18: the calls of [Update] on a service. It first reads lists, in the
    order services, deployments, pods, with the labels built from the name
    and the version of the service and in the namespace of the options;
    every call after them is the update, in the same namespace, of a
    logical service whose deployment has the metadata of the incoming
    service among its annotations and an [updated] stamp on its template.
    It makes no other call, at most one update for each service that
    [getService] returned, and exactly one for each when it returns nil.
    The annotation map of the template is taken to be there, as in a
    deployment that the adapter wrote. *)
Theorem Update_service_calls (E : Env) (s : runtime.Service.t)
    (opts : list (UpdateOptions.t → UpdateOptions.t)) (w : state) :
  ∃ gets ups,
    newCalls (Update E (runtime.OfService s) opts) w = gets ++ ups ∧
    gets `prefix_of` listCalls (updateNamespace opts) (updateLabels E s) ∧
    Forall (carries s (updateNamespace opts)) ups ∧
    (fst (Update E (runtime.OfService s) opts w) = Returns None →
     gets = listCalls (updateNamespace opts) (updateLabels E s)) ∧
    ∀ l, fst (getService E (updateLabels E s) (updateNamespace opts) w) =
           Returns (Ok l) →
      (length ups ≤ length l)%nat ∧
      (fst (Update E (runtime.OfService s) opts w) = Returns None →
       length ups = length l).
Proof.
  unfold newCalls, Update, updateNamespace. simpl.
  unfold mbind, M_bind, bind.
  destruct (getService_trace E (updateLabels E s)
              (UpdateOptions.Namespace
                 (applyOptions opts (UpdateOptions.mk client.DefaultNamespace))) w)
    as (gets & Hcalls & Hrt & Hpre & Hpos & Hfail & Hok).
  destruct (getService E _ _ w) as [[[l|e]|p|] w1] eqn:Hg; simpl in *.
  - destruct (updateServices_trace E s
                (UpdateOptions.Namespace
                   (applyOptions opts (UpdateOptions.mk client.DefaultNamespace)))
                l w1) as (ups & Hcalls' & _ & Hall & Hlen & Hout).
    exists gets, ups. rewrite Hcalls', Hcalls, <- app_assoc, drop_app_length.
    split_and!; try done.
    + intros _. by apply (Hok l).
    + intros l' [= <-]. split; [done|].
      intros Hr. by apply (Hout None Hr).
  - exists gets, []. rewrite Hcalls, drop_app_length, app_nil_r.
    split_and!; try done.
  - exists gets, []. rewrite Hcalls, drop_app_length, app_nil_r.
    split_and!; try done.
  - exists gets, []. rewrite Hcalls, drop_app_length, app_nil_r.
    split_and!; try done.
Qed.

Lemma Update_service_calls_witness :
  ∃ gets ups,
    newCalls (Update (clusterOf [nativeService "api" "v1"]
                        [deploymentOf "api" "v1" "v1" "Available"]
                        [runningPod "api" "v1"])
                (runtime.OfService api_v1) []) idle = gets ++ ups ∧
    gets = listCalls "default" (<["version" := "v1"]> (<["name" := "api"]> ∅)) ∧
    length ups = 1 ∧
    Forall (carries api_v1 "default") ups.
Proof.
  destruct (Update_service_calls
              (clusterOf [nativeService "api" "v1"]
                 [deploymentOf "api" "v1" "v1" "Available"] [runningPod "api" "v1"])
              api_v1 [] idle) as (gets & ups & Hnew & _ & Hall & Hgets & Hlen).
  exists gets, ups. split_and!; [done|by apply Hgets| |done].
  by apply (Hlen _ eq_refl).
Defined.

(** X19: [Update] on a service stops at the first call that fails and
    returns the error of that call. When it returns an error, the last call
    it made, a list or an update, was answered with this error and every
    call before it had succeeded; it neither goes on to the services that
    are left nor undoes the updates already made. When it returns nil,
    every call it made succeeded. *)
Theorem Update_stops_at_first_failure (E : Env) (s : runtime.Service.t)
    (opts : list (UpdateOptions.t → UpdateOptions.t)) (w : state)
    (r : option error) :
  fst (Update E (runtime.OfService s) opts w) = Returns r →
  outcomes E (calls w) (newCalls (Update E (runtime.OfService s) opts) w) =
    stoppedAtFirstFailure
      (length (newCalls (Update E (runtime.OfService s) opts) w)) r.
Proof.
  unfold newCalls, Update. simpl. unfold mbind, M_bind, bind.
  destruct (getService_trace E (updateLabels E s)
              (UpdateOptions.Namespace
                 (applyOptions opts (UpdateOptions.mk client.DefaultNamespace))) w)
    as (gets & Hcalls & Hrt & Hpre & Hpos & Hfail & Hok).
  destruct (getService E _ _ w) as [[[l|e]|p|] w1] eqn:Hg; simpl in *; try done.
  - destruct (updateServices_trace E s
                (UpdateOptions.Namespace
                   (applyOptions opts (UpdateOptions.mk client.DefaultNamespace)))
                l w1) as (ups & Hcalls' & _ & Hall & Hlen & Hout).
    intros Hr. destruct (Hout r Hr) as (Ho & Hnone & Hsome).
    destruct (Hok l eq_refl) as [-> Hgets].
    rewrite Hcalls', Hcalls, <- app_assoc, drop_app_length.
    rewrite outcomes_app, Hgets, <- Hcalls, Ho.
    rewrite length_app. simpl.
    destruct r as [e|]; simpl.
    + specialize (Hsome ltac:(done)).
      destruct (length ups) as [|n]; [lia|]. simpl. by rewrite Nat.sub_0_r.
    + done.
  - intros [= <-]. rewrite Hcalls, drop_app_length. by apply Hfail.
Qed.

Lemma Update_stops_at_first_failure_witness :
  outcomes (frozen [nativeService "api" "v1"]
              [deploymentOf "api" "v1" "v1" "Available"] [runningPod "api" "v1"])
    [] (newCalls (Update (frozen [nativeService "api" "v1"]
              [deploymentOf "api" "v1" "v1" "Available"] [runningPod "api" "v1"])
           (runtime.OfService api_v1) []) idle) =
    [None; None; None; Some (Upstream "deployments is forbidden")].
Proof.
  exact (Update_stops_at_first_failure
    (frozen [nativeService "api" "v1"]
       [deploymentOf "api" "v1" "v1" "Available"] [runningPod "api" "v1"])
    api_v1 [] idle (Some (Upstream "deployments is forbidden")) eq_refl).
Defined.

(** ** What the correlation keeps of the native objects *)

Lemma placed_lookup_ne m s key :
  serviceKey s ≠ key → placed m s !! key = m !! key.
Proof.
  intros Hne. destruct (decide (hasPort s)) as [Hs|Hs].
  - destruct (placed_port s Hs) as (srv & _ & ->). by rewrite lookup_insert_ne.
  - unfold placed. by rewrite collectService_no_port.
Qed.

Lemma foldl_placed_lookup_ne l m key :
  Forall (λ s, serviceKey s ≠ key) l → foldl placed m l !! key = m !! key.
Proof.
  intros H. revert m. induction H as [|s l Hs _ IH]; intros m; simpl; [done|].
  rewrite IH. by apply placed_lookup_ne.
Qed.

Lemma dom_placed m s :
  hasPort s → dom (placed m s) = {[serviceKey s]} ∪ dom m.
Proof.
  intros Hs. destruct (placed_port s Hs) as (srv & _ & ->).
  apply dom_insert_L.
Qed.

Lemma dom_foldl_placed l m :
  Forall hasPort l →
  dom (foldl placed m l) = dom m ∪ list_to_set (serviceKey <$> l).
Proof.
  intros H. revert m. induction H as [|s l Hs _ IH]; intros m; simpl.
  - symmetry. apply (right_id_L ∅ (∪)).
  - rewrite IH, dom_placed by done.
    rewrite (comm_L (∪) {[serviceKey s]} (dom m)).
    by rewrite <- (assoc_L (∪)).
Qed.

Lemma dom_collectDeployment pods m d :
  dom (collectDeployment pods m d) = dom m.
Proof.
  unfold collectDeployment. cbv zeta.
  destruct (m !! _) as [svc|] eqn:Hm; [|done].
  destruct (_ !! "name"); [|done].
  apply dom_insert_lookup_L. by eexists.
Qed.

Lemma dom_foldl_collectDeployment pods l m :
  dom (foldl (collectDeployment pods) m l) = dom m.
Proof.
  revert m. induction l as [|d l IH]; intros m; simpl; [done|].
  by rewrite IH, dom_collectDeployment.
Qed.

Lemma size_list_to_set_le (l : list string) :
  (size (list_to_set l : gset string) ≤ length l)%nat.
Proof.
  induction l as [|x l IH].
  - change (size (∅ : gset string) ≤ 0)%nat. by rewrite size_empty.
  - change (size ({[x]} ∪ list_to_set l : gset string) ≤ S (length l))%nat.
    rewrite (size_union_alt (C := gset string)), size_singleton.
    pose proof (subseteq_size (list_to_set l ∖ {[x]}) (list_to_set l : gset string)
                  (subseteq_difference_l _ _ _ (reflexivity _))).
    lia.
Qed.

(** X20: the logical services that [getService] returns are keyed by the
    services alone: there is one for each name+version among the labels of
    the kubernetes services and no other, so that a deployment or a pod
    without a service is never reported, and there are at most as many as
    there are services, exactly as many when their keys are distinct. *)
Theorem correlate_keys (services : list client.Service.t)
    (deployments : list client.Deployment.t) (pods : list client.Pod.t)
    (svcMap : gmap string service.t) :
  correlateMap services deployments pods = Returns svcMap →
  dom svcMap = list_to_set (serviceKey <$> services) ∧
  (length (servicesOf svcMap) ≤ length services)%nat ∧
  (NoDup (serviceKey <$> services) →
   length (servicesOf svcMap) = length services).
Proof.
  intros [Hports ->]%correlateMap_returns.
  assert (dom (foldl (collectDeployment pods) (foldl placed ∅ services) deployments)
          = list_to_set (serviceKey <$> services)) as Hdom.
  { rewrite dom_foldl_collectDeployment, dom_foldl_placed by done.
    rewrite dom_empty_L. apply (left_id_L ∅ (∪)). }
  split; [done|].
  unfold servicesOf. rewrite length_fmap, length_map_to_list.
  rewrite <- size_dom, Hdom.
  split.
  - etrans; [apply size_list_to_set_le|]. by rewrite length_fmap.
  - intros Hnd. rewrite size_list_to_set by done. by rewrite length_fmap.
Qed.

Lemma correlate_keys_witness :
  dom (joined [nativeService "api" "v1"]
         [deploymentOf "api" "v1" "v1" "Available";
          deploymentOf "web" "v1" "v1" "Available"]
         [runningPod "web" "v1"]) =
    list_to_set (serviceKey <$> [nativeService "api" "v1"]).
Proof.
  exact (proj1 (correlate_keys [nativeService "api" "v1"]
    [deploymentOf "api" "v1" "v1" "Available";
     deploymentOf "web" "v1" "v1" "Available"]
    [runningPod "web" "v1"] _ eq_refl)).
Defined.

(** X21: a service that no deployment is applied to is reported as the
    loop over the services left it. Its name and version are the [name]
    and [version] labels of the last kubernetes service with its key, it
    has no source, no status and no deployment, and its metadata are the
    annotations of that service over the [address], made of the cluster IP
    and the first port, and the [type], the [micro] label: an annotation
    named [address] or [type] replaces the computed one. *)
Theorem correlate_service_only (services1 services2 : list client.Service.t)
    (kservice : client.Service.t) (deployments : list client.Deployment.t)
    (pods : list client.Pod.t) (svcMap : gmap string service.t)
    (port : client.ServicePort.t) (ports : list client.ServicePort.t) :
  correlateMap (services1 ++ kservice :: services2) deployments pods =
    Returns svcMap →
  Forall (λ s, serviceKey s ≠ serviceKey kservice) services2 →
  Forall (λ d, ¬ managedFor (serviceKey kservice) d) deployments →
  client.ServiceSpec.Ports (client.Service.Spec kservice) = port :: ports →
  svcMap !! serviceKey kservice =
    Some (service.mk
      (runtime.Service.mk
         (labelOf (client.Service.Metadata kservice) "name")
         (labelOf (client.Service.Metadata kservice) "version")
         EmptyString
         (client.Metadata.Annotations (client.Service.Metadata kservice) ∪
          <["type" := labelOf (client.Service.Metadata kservice) "micro"]>
            (<["address" :=
                 client.ServiceSpec.ClusterIP (client.Service.Spec kservice)
                 +:+ ":" +:+ pretty (client.ServicePort.Port port)]> ∅))
         None)
      (Some kservice) None).
Proof.
  intros [Hports ->]%correlateMap_returns Hlast Hunmanaged Hport.
  rewrite foldl_collectDeployment_untouched by done.
  rewrite foldl_app. simpl.
  apply Forall_app in Hports as [_ [_ Hports2]%Forall_cons].
  rewrite foldl_placed_lookup_ne by done.
  unfold placed at 1, collectService. rewrite Hport. cbv zeta.
  unfold serviceKey, mapKey. by rewrite lookup_insert_eq.
Qed.

Lemma correlate_service_only_witness :
  joined [nativeService "api" "v1"] [foreignDeployment "api" "v1"]
    [runningPod "api" "v1"] !! "apiv1" =
    Some (service.mk
      (runtime.Service.mk "api" "v1" EmptyString
         (∅ ∪ <["type" := EmptyString]> (<["address" := "10.0.0.1:8080"]> ∅)) None)
      (Some (nativeService "api" "v1")) None).
Proof.
  refine (correlate_service_only [] [] (nativeService "api" "v1")
    [foreignDeployment "api" "v1"] [runningPod "api" "v1"] _
    (client.ServicePort.mk 8080) [] eq_refl _ _ eq_refl).
  - constructor.
  - apply (bool_decide_unpack _). by vm_compute.
Defined.

Lemma refineStatus_identity name version svc item :
  let svc' := refineStatus name version svc item in
  runtime.Service.Name (service.Service svc') =
    runtime.Service.Name (service.Service svc) ∧
  runtime.Service.Version (service.Service svc') =
    runtime.Service.Version (service.Service svc) ∧
  runtime.Service.Source (service.Service svc') =
    runtime.Service.Source (service.Service svc) ∧
  ∀ key, key ≠ "started" → service.Metadata svc' !! key = service.Metadata svc !! key.
Proof.
  unfold refineStatus. cbv zeta.
  repeat case_decide; try done.
  destruct (client.Pod.Containers item) as [|container ?]; [done|].
  destruct (client.ContainerState.Running _); simpl; split_and!; try done.
  intros key Hkey. unfold service.Metadata. simpl. by rewrite lookup_insert_ne.
Qed.

Lemma foldl_refineStatus_identity name version svc pods :
  let svc' := foldl (refineStatus name version) svc pods in
  runtime.Service.Name (service.Service svc') =
    runtime.Service.Name (service.Service svc) ∧
  runtime.Service.Version (service.Service svc') =
    runtime.Service.Version (service.Service svc) ∧
  runtime.Service.Source (service.Service svc') =
    runtime.Service.Source (service.Service svc) ∧
  ∀ key, key ≠ "started" → service.Metadata svc' !! key = service.Metadata svc !! key.
Proof.
  revert svc. induction pods as [|item pods IH]; intros svc; simpl; [done|].
  destruct (IH (refineStatus name version svc item)) as (H1 & H2 & H3 & H4).
  destruct (refineStatus_identity name version svc item) as (G1 & G2 & G3 & G4).
  simpl in *. split_and!; try congruence.
  intros key Hkey. by rewrite H4, G4.
Qed.

(** X22: a logical service that a deployment was applied to is named after
    the annotations of the last such deployment, not after its labels: its
    name, version and source are the [name], [version] and [source]
    annotations, the empty string when one is missing, and every other
    annotation of that deployment is among its metadata, [started] apart,
    which the status of the deployment and of the pods overwrite. *)
Theorem correlate_managed_identity (services : list client.Service.t)
    (deployments1 deployments2 : list client.Deployment.t)
    (kdep : client.Deployment.t) (pods : list client.Pod.t)
    (svcMap : gmap string service.t) (svc : service.t) :
  correlateMap services (deployments1 ++ kdep :: deployments2) pods =
    Returns svcMap →
  managed kdep →
  Forall (λ d, ¬ managedFor (deploymentKey kdep) d) deployments2 →
  svcMap !! deploymentKey kdep = Some svc →
  runtime.Service.Name (service.Service svc) =
    annotationOf (client.Deployment.Metadata kdep) "name" ∧
  runtime.Service.Version (service.Service svc) =
    annotationOf (client.Deployment.Metadata kdep) "version" ∧
  runtime.Service.Source (service.Service svc) =
    annotationOf (client.Deployment.Metadata kdep) "source" ∧
  ∀ key v,
    key ∉ ["name"; "version"; "source"; "started"] →
    client.Metadata.Annotations (client.Deployment.Metadata kdep) !! key = Some v →
    service.Metadata svc !! key = Some v.
Proof.
  intros [Hports ->]%correlateMap_returns Hmanaged Hlast Hsvc.
  assert (managedFor (deploymentKey kdep) kdep) as Hfor by (by split).
  pose proof (foldl_collectDeployment_was_Some _ _ _ _ _ Hsvc) as Hsome.
  destruct (foldl_collectDeployment_last pods deployments1 kdep deployments2
              _ _ Hfor Hlast Hsome) as [svc0 Hlookup].
  rewrite Hlookup in Hsvc. injection Hsvc as <-.
  unfold applyDeployment. cbv zeta.
  match goal with
  | |- context [foldl (refineStatus ?n ?v) ?s pods] =>
    destruct (foldl_refineStatus_identity n v s pods) as (H1 & H2 & H3 & H4)
  end.
  unfold service.setKdeploy, service.Metadata in *. cbn [service.Service].
  rewrite H1, H2, H3.
  split_and!.
  - by destruct (client.Deployment.Conditions _).
  - by destruct (client.Deployment.Conditions _).
  - by destruct (client.Deployment.Conditions _).
  - intros key v Hkey Hv.
    assert (key ≠ "name" ∧ key ≠ "version" ∧ key ≠ "source" ∧ key ≠ "started")
      as (Hn & Hve & Hso & Hst).
    { rewrite !not_elem_of_cons in Hkey. tauto. }
    rewrite H4 by done.
    assert (copyInto
              (client.Metadata.Annotations
                 (client.Deployment.Metadata (dropProvenance kdep)))
              (runtime.Service.Metadata (service.Service svc0)) !! key = Some v)
      as Hcopy.
    { unfold copyInto. apply lookup_union_Some_l. simpl.
      by rewrite !lookup_delete_ne. }
    destruct (client.Deployment.Conditions (dropProvenance kdep)); simpl.
    + done.
    + by rewrite lookup_insert_ne.
Qed.

Lemma correlate_managed_identity_witness :
  ∃ svc,
    joined [nativeService "api" "v1"] [deploymentOf "api" "v1" "latest" "Available"]
      [runningPod "api" "v1"] !! "apiv1" = Some svc ∧
    runtime.Service.Version (service.Service svc) = "latest".
Proof.
  destruct (joined [nativeService "api" "v1"]
              [deploymentOf "api" "v1" "latest" "Available"]
              [runningPod "api" "v1"] !! "apiv1") as [svc|] eqn:Hsvc;
    [|by vm_compute in Hsvc].
  exists svc. split; [done|].
  exact (proj1 (proj2 (correlate_managed_identity [nativeService "api" "v1"] []
    [] (deploymentOf "api" "v1" "latest" "Available") [runningPod "api" "v1"]
    _ svc eq_refl
    ltac:(apply (bool_decide_unpack _); by vm_compute)
    ltac:(constructor) Hsvc))).
Defined.

(** ** Read *)

(** X23: with the lock free, [Read] returns, in the order of [getService],
    the runtime service of every logical service that [getService]
    correlates for the labels and the namespace of its options; it hands on
    the error of a list that failed, makes no call but the lists, and leaves
    the runtime as it found it, the lock released, also when the correlation
    panics. *)
Theorem Read_returns_correlation (E : Env)
    (opts : list (ReadOptions.t → ReadOptions.t)) (w : state) :
  kubernetes.locked (k w) = false →
  let labels := readLabels E (readOptions opts) in
  let namespace := ReadOptions.Namespace (readOptions opts) in
  k (snd (Read E opts w)) = k w ∧
  newCalls (Read E opts) w `prefix_of` listCalls namespace labels ∧
  fst (Read E opts w) =
    match fst (getService E labels namespace w) with
    | Returns (Ok srvs) => Returns (Ok (service.Service <$> srvs))
    | Returns (Fails e) => Returns (Fails e)
    | Panics p => Panics p
    | Blocks => Blocks
    end.
Proof.
  intros Hfree labels namespace. unfold newCalls, Read.
  rewrite locking_free by done. fold (readOptions opts). fold labels namespace.
  unfold mbind, M_bind, bind.
  destruct w as [rt cs]. simpl in *.
  rewrite (getService_runtime E labels namespace _ rt cs).
  destruct (getService_trace E labels namespace (mkState rt cs))
    as (gets & Hcalls & _ & Hpre & _).
  pose proof (getService_never_blocks E labels namespace (mkState rt cs)) as Hnb.
  destruct (getService E labels namespace (mkState rt cs))
    as [[[srvs|e]|p|] [rt1 cs1]]; simpl in *; try done;
    subst cs1; rewrite drop_app_length;
    (split_and!;
       [exact (f_equal k (unlocked_eta (mkState rt cs) Hfree))|done|done]).
Qed.

Lemma Read_returns_correlation_witness :
  fst (Read (clusterOf [nativeService "api" "v1"]
               [deploymentOf "api" "v1" "latest" "Available"] [runningPod "api" "v1"])
         [] idle) =
    Returns (Ok [runtime.Service.mk "api" "latest" EmptyString
                   (<["address" := "10.0.0.1:8080"]>
                      (<["started" := "2020-01-01T00:00:05Z"]>
                         (<["type" := EmptyString]> ∅)))
                   (Some Running)]).
Proof.
  exact (proj2 (proj2 (Read_returns_correlation
    (clusterOf [nativeService "api" "v1"]
       [deploymentOf "api" "v1" "latest" "Available"] [runningPod "api" "v1"])
    [] idle eq_refl))).
Defined.

(** ** Init, Start and Stop *)

(** X24: with the lock free, any sequence of [Init], [Start] and [Stop]
    returns nil at every call, makes no call to the cluster, leaves the
    namespace cache as it was and the lock free; the runtime is running
    afterwards exactly when the last of the [Start] and [Stop] among them is
    a [Start], and its options are those that the [Init] among them built
    one on the other. Starting a running runtime and stopping a stopped one
    change nothing. *)
Theorem lifecycle_sequence (ops : list lifecycle) (w : state) :
  kubernetes.locked (k w) = false →
  sequence ops w =
    (Returns (replicate (length ops) None),
     mkState
       (kubernetes.mk false
          (optionsAfter ops (kubernetes.options (k w)))
          (runningAfter ops (kubernetes.running (k w)))
          (kubernetes.namespaces (k w)))
       (calls w)).
Proof.
  revert w. induction ops as [|op ops IH]; intros [[l o r c] cs] Hfree;
    simpl in *; subst l; [done|].
  unfold mbind, M_bind, bind.
  assert (runLifecycle op (mkState (kubernetes.mk false o r c) cs) =
          (Returns None,
           mkState (kubernetes.mk false (optionsAfter [op] o) (runningAfter [op] r) c)
             cs)) as ->.
  { destruct op as [opts| |]; simpl.
    - reflexivity.
    - by destruct r.
    - by destruct r. }
  rewrite IH by done. reflexivity.
Qed.

Lemma lifecycle_sequence_witness :
  sequence [DoStart; DoStart; DoStop; DoInit []; DoStop; DoStart] idle =
    (Returns [None; None; None; None; None; None],
     mkState (setRunning true newRuntime) []).
Proof.
  exact (lifecycle_sequence [DoStart; DoStart; DoStop; DoInit []; DoStop; DoStart]
           idle eq_refl).
Defined.

(** ** Logs *)

(** X25: [Logs] on a service makes one call, given the name of the service
    as it is, not formatted, and the options: a read of the records when
    streaming was not asked for, the opening of a stream when it was. It
    returns either a stream or the error of that call, never both and never
    neither: on a read, a new stream with both channels open together with
    the records to replay; on a stream, the stream of the log accessor. *)
Theorem Logs_service (E : Env) (s : runtime.Service.t)
    (opts : list (LogsOptions.t → LogsOptions.t)) (w : state) :
  let name := runtime.Service.Name s in
  let klo := logsOptions opts in
  snd (Logs E (runtime.OfService s) opts w) =
    mkState (k w) (calls w ++ [logsCall name klo]) ∧
  match fst (Logs E (runtime.OfService s) opts w) with
  | Returns (Some (Replay kstream records), None) =>
    LogsOptions.Stream klo = false ∧
    readLogs E (calls w) name klo = Ok records ∧
    kstream = kubeStream.make
  | Returns (Some (Live stream), None) =>
    LogsOptions.Stream klo = true ∧
    streamLogs E (calls w) name klo = Ok stream
  | Returns (None, Some e) => outcome E (calls w) (logsCall name klo) = Some e
  | _ => False
  end.
Proof.
  intros name klo. unfold Logs, logsCall. simpl. fold (logsOptions opts). fold klo name.
  destruct w as [rt cs]. run_monad.
  destruct (LogsOptions.Stream klo) eqn:Hs; simpl.
  - destruct (streamLogs E cs name klo) eqn:Hl; simpl; by rewrite ?Hl.
  - destruct (readLogs E cs name klo) eqn:Hl; simpl; by rewrite ?Hl.
Qed.

(** ** Stop on a stream that is half closed *)

(** X26: [Stop] closes the stop channel before the log channel. On a
    stream whose stop channel is open and whose log channel is not, it
    panics after it has closed the stop channel; the deferred unlock runs,
    and a later [Stop] finds the stop channel closed and returns nil
    without touching the log channel. *)
Theorem Stop_half_closed (ks : kubeStream.t) :
  kubeStream.locked ks = false →
  kubeStream.stop ks = OpenChan →
  kubeStream.stream ks ≠ OpenChan →
  let after := kubeStream.mk (kubeStream.stream ks) false ClosedChan
                 (kubeStream.err ks) in
  (∃ p, kubeStream.Stop ks = (Panics p, after, [CloseStop])) ∧
  kubeStream.Stop after = (Returns None, after, []).
Proof.
  intros Hl Hs Hc after. split; [|reflexivity].
  unfold kubeStream.Stop. rewrite Hl, Hs. simpl.
  destruct (kubeStream.stream ks) eqn:Hst; [by eexists|done|by eexists].
Qed.

Lemma Stop_half_closed_witness :
  kubeStream.Stop (kubeStream.mk ClosedChan false OpenChan None) =
    (Panics CloseOfClosedChannel,
     kubeStream.mk ClosedChan false ClosedChan None, [CloseStop]).
Proof.
  destruct (Stop_half_closed (kubeStream.mk ClosedChan false OpenChan None)
              eq_refl eq_refl ltac:(done)) as [[p Hp] _].
  rewrite Hp. vm_compute in Hp. by injection Hp as ->.
Defined.
